(** * GenerativeGNN: graph records, batching, spectral encoding, walk pooling

    A shallow embedding of the graph layer of [models.py] ([BaseGraph],
    [BaseGraphUtils], [WalkPooling]) and of [gnn_comparison/datasets/data.py]
    ([Data.to_numpy_array]), with the properties of the specification stated
    and settled against it. The rest of [models.py] that can be embedded
    follows: [get_spd_matrix], [GraphDataset], [Logger], the link predictors,
    the convolution stacks ([GCN], [SAGEConv], [GraphSAGE]), the graph
    auto-encoder and the noise buffer of [LatentGraphGenerator].

    Conventions.
    - Python exceptions are values of [exn]; a computation that may raise
      lives in [result], with stdpp's monad notation [x ← m; k].
    - Tensors of the batching layer are nested lists ([tensor]); matrices of
      numbers are lists of rows.
    - Floating-point numbers are idealised: rationals where the code only
      stores and moves them, real numbers where it computes with [exp] and
      [sigmoid]. Rounding is not modelled; a bound that single precision
      reaches (a sigmoid of 0 or 1, a normalised sum of exactly 1) is
      stated with its end included, so that the property holds of the
      rounded computation as well.
    - Where a library leaves a choice open (the order [argsort] gives to
      equal values), the properties do not depend on the choice. *)

From Stdlib Require Import ZArith QArith List Lia Reals Lra Lqa Psatz.
From stdpp Require Import base option list sorting gmap strings.
Import ListNotations.

(** ** Exceptions and the error monad *)

Inductive exn : Set :=
| AssertionError
| KeyError
| TypeError
| IndexError
| RuntimeError
| AttributeError
| NotImplementedError
| LinAlgError
| ValueError
| NameError.

Inductive result (A : Type) : Type :=
| Ok (a : A)
| Raise (e : exn).
Arguments Ok {A} a.
Arguments Raise {A} e.

#[global] Instance result_ret : MRet result := fun A a => Ok a.
#[global] Instance result_bind : MBind result := fun A B k m =>
  match m with
  | Ok a => k a
  | Raise e => Raise e
  end.

Definition returns {A} (m : result A) : Prop := exists a, m = Ok a.
Definition raises {A} (m : result A) : Prop := exists e, m = Raise e.

(** [for_each f l]: run [f] on every element in order, stop at the first
    exception. *)
Fixpoint for_each {A B} (f : A -> result B) (l : list A) : result (list B) :=
  match l with
  | [] => Ok []
  | a :: l' => b ← f a; bs ← for_each f l'; mret (b :: bs)
  end.

(** [a[i]]; a position outside is an IndexError. *)
Definition getidx {X} (a : list X) (i : nat) : result X :=
  match a !! i with
  | Some v => Ok v
  | None => Raise IndexError
  end.

(** [a[idx]] for a list of positions. *)
Definition take_indices {X} (a : list X) (idx : list nat) : result (list X) :=
  for_each (getidx a) idx.

(** [for i in range(n): s = body(i, s)]. *)
Definition for_range {S} (n : nat) (body : nat -> S -> result S) (s : S) : result S :=
  foldl (fun acc i => s ← acc; body i s) (Ok s) (seq 0 n).

(** ** [gnn_comparison/datasets/data.py]: class [Data] *)

Module DataRecord.

(** The two fields [to_numpy_array] reads: the node-feature matrix [x]
    (one row per node) and [edge_index], a 2×E integer tensor given by its
    columns (source, destination), or [None] (the constructor's default). *)
Record Data : Type := mkData {
  x : list (list Q);
  edge_index : option (list (Z * Z))
}.

Abbreviation ndarray := (list (list Q)).

(** [np.ones((n, m))]. *)
Definition np_ones (n m : nat) : ndarray := replicate n (replicate m 1%Q).

(** numpy index normalisation on an axis of length [n]: [-n <= i < n],
    negative indices count from the end, anything else is an IndexError. *)
Definition np_index (n : nat) (i : Z) : result nat :=
  if decide (0 <= i < Z.of_nat n)%Z then Ok (Z.to_nat i)
  else if decide (- Z.of_nat n <= i < 0)%Z then Ok (Z.to_nat (i + Z.of_nat n))
  else Raise IndexError.

(** [m[r, c] = v] on an already normalised position. *)
Definition set_entry (m : ndarray) (r c : nat) (v : Q) : ndarray :=
  alter (fun row => <[c := v]> row) r m.

Definition entry (m : ndarray) (r c : nat) : option Q :=
  row ← m !! r; row !! c.

(** [Data.to_numpy_array]:
<<
      self.N = self.x.shape[0]
      m = np.ones((self.N, self.N))
      m[self.edge_index[0], self.edge_index[1]] = 1
      return m
>>
      The index arrays are validated before anything is written. *)
Definition to_numpy_array (d : Data) : result ndarray :=
  let N := length (x d) in
  let m := np_ones N N in
  match edge_index d with
  | None => Raise TypeError
  | Some es =>
      idx ← for_each (fun rc : Z * Z =>
               r ← np_index N rc.1; c ← np_index N rc.2; mret (r, c)) es;
      mret (foldl (fun m (rc : nat * nat) => set_entry m rc.1 rc.2 1%Q) m idx)
  end.

(** An edge list is well formed for [n] nodes when both ends are valid
    numpy indices for an axis of length [n]. *)
Definition valid_index (n : nat) (i : Z) : Prop :=
  (- Z.of_nat n <= i < Z.of_nat n)%Z.
Definition valid_edges (n : nat) (es : list (Z * Z)) : Prop :=
  Forall (fun rc => valid_index n rc.1 /\ valid_index n rc.2) es.

#[global] Instance valid_edges_dec n es : Decision (valid_edges n es).
Proof. unfold valid_edges, valid_index. apply _. Defined.

End DataRecord.

(** ** [models.py]: tensors *)

Module Tensor.

(** A dense tensor as nested lists: a scalar, or the stack of its slices
    along dimension 0. *)
#[warnings="-register-all"]
Inductive tensor : Type :=
| Scalar (v : Q)
| Stack (ts : list tensor).

(** [t.shape]. *)
Fixpoint shape (t : tensor) : list nat :=
  match t with
  | Scalar _ => []
  | Stack ts => length ts :: match ts with
                             | [] => []
                             | t' :: _ => shape t'
                             end
  end.

(** [t.shape[i]]; a missing dimension is an IndexError. *)
Definition shape_at (t : tensor) (i : nat) : result nat :=
  match shape t !! i with
  | Some n => Ok n
  | None => Raise IndexError
  end.

(** [t[i]] for [0 <= i]. *)
Definition slice (t : tensor) (i : nat) : option tensor :=
  match t with
  | Scalar _ => None
  | Stack ts => ts !! i
  end.

(** [torch.stack(ts, dim=0)]: the list is not empty, every element is a
    tensor (not [None]) and all have one shape. *)
Definition torch_stack (ts : list (option tensor)) : result tensor :=
  ts' ← for_each (fun o : option tensor =>
           match o with
           | Some t => Ok t
           | None => Raise TypeError
           end) ts;
  match ts' with
  | [] => Raise RuntimeError
  | t0 :: _ =>
      if forallb (fun t => bool_decide (shape t = shape t0)) ts'
      then Ok (Stack ts')
      else Raise RuntimeError
  end.

(** A matrix given by its rows, as a tensor. *)
Definition of_rows (m : list (list Q)) : tensor :=
  Stack (map (fun row => Stack (map Scalar row)) m).

End Tensor.

(** ** [models.py]: [BaseGraph] and [BaseGraphUtils] *)

Module Graph.
Import Tensor.

(** What the code reads of a [torch_geometric] graph. *)
Record pyg_Data : Type := mkPyg {
  num_nodes : nat;
  edge_index : list (nat * nat);
  pyg_x : option tensor;
  edge_attr : option tensor;
  pyg_y : option tensor
}.

Record BaseGraph : Type := mkBaseGraph {
  graph_type : option string;
  ndata : gmap string (option tensor);
  edata : gmap string (option tensor);
  batch : bool;
  batch_num : option nat;
  A : option tensor;
  label : option tensor;
  coo : option (nat * list (nat * nat));
  node_num : option nat;
  pyg_graph : option pyg_Data;
  adj_type : string
}.

(** [BaseGraph.__init__]. Line 44 stores the [graph_type] argument and
    line 52 then assigns [self.graph_type = None]: the field is [None]
    after construction whatever was passed. *)
Definition BaseGraph_init (graph_type adj_type : string) (batch : bool)
    (batch_num : option nat) (pyg_graph : option pyg_Data) : BaseGraph :=
  let self_graph_type := Some graph_type in
  let self_graph_type : option string := None in
  {| graph_type := self_graph_type;
     ndata := ∅; edata := ∅;
     batch := batch; batch_num := batch_num;
     A := None; label := None; coo := None;
     node_num := None; pyg_graph := pyg_graph; adj_type := adj_type |}.

Definition _set_node_num (g : BaseGraph) (N : nat) : BaseGraph :=
  {| graph_type := graph_type g; ndata := ndata g; edata := edata g;
     batch := batch g; batch_num := batch_num g; A := A g; label := label g;
     coo := coo g; node_num := Some N; pyg_graph := pyg_graph g;
     adj_type := adj_type g |}.

Definition _set_A (g : BaseGraph) (a : option tensor) : BaseGraph :=
  {| graph_type := graph_type g; ndata := ndata g; edata := edata g;
     batch := batch g; batch_num := batch_num g; A := a; label := label g;
     coo := coo g; node_num := node_num g; pyg_graph := pyg_graph g;
     adj_type := adj_type g |}.

Definition _set_graph_type (g : BaseGraph) (t : option string) : BaseGraph :=
  {| graph_type := t; ndata := ndata g; edata := edata g;
     batch := batch g; batch_num := batch_num g; A := A g; label := label g;
     coo := coo g; node_num := node_num g; pyg_graph := pyg_graph g;
     adj_type := adj_type g |}.

Definition set_coo (g : BaseGraph) (s : nat * list (nat * nat)) : BaseGraph :=
  {| graph_type := graph_type g; ndata := ndata g; edata := edata g;
     batch := batch g; batch_num := batch_num g; A := A g; label := label g;
     coo := Some s; node_num := node_num g; pyg_graph := pyg_graph g;
     adj_type := adj_type g |}.

Definition set_label (g : BaseGraph) (l : option tensor) : BaseGraph :=
  {| graph_type := graph_type g; ndata := ndata g; edata := edata g;
     batch := batch g; batch_num := batch_num g; A := A g; label := l;
     coo := coo g; node_num := node_num g; pyg_graph := pyg_graph g;
     adj_type := adj_type g |}.

Definition set_ndata (g : BaseGraph) (k : string) (v : option tensor) : BaseGraph :=
  {| graph_type := graph_type g; ndata := <[k := v]> (ndata g); edata := edata g;
     batch := batch g; batch_num := batch_num g; A := A g; label := label g;
     coo := coo g; node_num := node_num g; pyg_graph := pyg_graph g;
     adj_type := adj_type g |}.

Definition set_edata (g : BaseGraph) (k : string) (v : option tensor) : BaseGraph :=
  {| graph_type := graph_type g; ndata := ndata g; edata := <[k := v]> (edata g);
     batch := batch g; batch_num := batch_num g; A := A g; label := label g;
     coo := coo g; node_num := node_num g; pyg_graph := pyg_graph g;
     adj_type := adj_type g |}.

(** [d[k]] on a Python dict. *)
Definition getitem (d : gmap string (option tensor)) (k : string)
    : result (option tensor) :=
  match d !! k with
  | Some v => Ok v
  | None => Raise KeyError
  end.

Definition get_node_features (g : BaseGraph) : result (option tensor) :=
  getitem (ndata g) "nfeat".

Definition get_edge_features (g : BaseGraph) : result (option tensor) :=
  getitem (edata g) "efeat".

(** The condition of the [assert] of [set_node_feat], with Python's
    precedence and short-circuit evaluation:
    [(not batch and shape[0] == node_num) or
     (batch and shape[0] == batch_num and shape[1] == node_num)].
    An integer never equals [None]. *)
Definition node_feat_shape_ok (g : BaseGraph) (t : tensor) : result bool :=
  c1 ← (if negb (batch g)
        then s0 ← shape_at t 0; mret (bool_decide (Some s0 = node_num g))
        else mret false);
  if (c1 : bool) then mret true
  else if batch g
       then s0 ← shape_at t 0;
            if bool_decide (Some s0 = batch_num g)
            then s1 ← shape_at t 1; mret (bool_decide (Some s1 = node_num g))
            else mret false
       else mret false.

(** [BaseGraph.set_node_feat]; [None] has no [shape]. *)
Definition set_node_feat (g : BaseGraph) (node_feat : option tensor)
    : result BaseGraph :=
  match node_feat with
  | None => Raise AttributeError
  | Some t =>
      ok ← node_feat_shape_ok g t;
      if (ok : bool) then Ok (set_ndata g "nfeat" (Some t))
      else Raise AssertionError
  end.

(** [BaseGraph.set_edge_feat]; [None] has no [float]. *)
Definition set_edge_feat (g : BaseGraph) (edge_feat : option tensor)
    : result BaseGraph :=
  match edge_feat with
  | None => Raise AttributeError
  | Some t => Ok (set_edata g "efeat" (Some t))
  end.

(** [BaseGraphUtils.from_dense_A] and [from_numpy] (the same code up to
    the conversion of the array). *)
Definition from_dense_A (a : tensor) : result BaseGraph :=
  let g := BaseGraph_init "default" "dense" false None None in
  n ← shape_at a 0;
  let g := _set_node_num g n in
  mret (_set_A g (Some a)).

Definition from_numpy (a : tensor) : result BaseGraph := from_dense_A a.

(** [torch.sparse_coo_tensor(edge_index, v, (N, N))] with [v] all ones.
    The constructor stores the indices as they come: torch compares them
    with the size only on request ([check_invariants], off unless it is
    asked for), so an edge to a node outside the graph is not refused
    here. *)
Definition sparse_coo_tensor (es : list (nat * nat)) (N : nat)
    : result (nat * list (nat * nat)) :=
  Ok (N, es).

(** [s.to_dense()]: entry (r, c) of the N×N matrix is the number of times
    the edge occurs. *)
Definition to_dense (s : nat * list (nat * nat)) : tensor :=
  let '(N, es) := s in
  Stack (map (fun r =>
    Stack (map (fun c =>
      Scalar (inject_Z (Z.of_nat
        (length (filter (fun rc : nat * nat => rc = (r, c)) es)))))
      (seq 0 N)))
    (seq 0 N)).

(** Calling an [int]: [graph.num_nodes()]. Line 126 uses
    [graph.num_nodes] as the integer it is (the size [(N, N)] of the
    sparse tensor), so the call of line 133 is a call of an integer,
    which Python refuses. *)
Definition call_int (n : nat) : result nat := Raise TypeError.

(** [BaseGraphUtils.from_pyg_graph]. *)
Definition from_pyg_graph (graph : pyg_Data) : result BaseGraph :=
  let N := num_nodes graph in
  s ← sparse_coo_tensor (edge_index graph) N;
  let a := to_dense s in
  let g := BaseGraph_init "pyg" "both" false None (Some graph) in
  let g := _set_A g (Some a) in
  n ← call_int (num_nodes graph);
  let g := _set_node_num g n in
  let g := set_coo g s in
  g ← set_node_feat g (pyg_x graph);
  g ← set_edge_feat g (edge_attr graph);
  mret (set_label g (pyg_y graph)).

(** The loop of lines 150-153 of [init_batch_graph]: does every graph have
    the node count of the first? *)
Definition same_node_num (graphs : list BaseGraph) : bool :=
  match graphs with
  | [] => true
  | g1 :: _ => forallb (fun g => bool_decide (node_num g1 = node_num g)) graphs
  end.

Inductive batch_path : Set := SparseUnion | DenseStack.

(** The test of line 155: [g1.graph_type == 'pyg' and not same_node_num]. *)
Definition select_path (graphs : list BaseGraph) : batch_path :=
  match graphs with
  | [] => DenseStack
  | g1 :: _ =>
      if bool_decide (graph_type g1 = Some "pyg") && negb (same_node_num graphs)
      then SparseUnion else DenseStack
  end.

(** What one turn of the loop of lines 171-182 appends to the five lists;
    a missing key is a KeyError. *)
Record gathered : Type := mkGathered {
  g_A : option tensor;
  g_node_feas : option tensor;
  g_edge_feas : option (option tensor);
  g_pos_enc : option (option tensor);
  g_label : option (option tensor)
}.

Definition gather (g : BaseGraph) : result gathered :=
  nf ← get_node_features g;
  ef ← get_edge_features g;
  mret {| g_A := A g;
          g_node_feas := nf;
          g_edge_feas := if ef is Some _ then Some ef else None;
          g_pos_enc := match ndata g !! "pos_enc" with
                       | Some (Some t) => Some (Some t)
                       | _ => None
                       end;
          g_label := if label g is Some _ then Some (label g) else None |}.

(** Lines 160-207, the dense stack. *)
Definition dense_stack (graphs : list BaseGraph) (g1 : BaseGraph)
    : result BaseGraph :=
  let batched_g := BaseGraph_init "default" "dense" true (Some (length graphs)) None in
  let batched_g := _set_graph_type batched_g (graph_type g1) in
  if bool_decide (adj_type batched_g = "dense") || bool_decide (adj_type batched_g = "both")
  then
    items ← for_each gather graphs;
    let batch_A := map g_A items in
    let batch_node_feas := map g_node_feas items in
    let batch_edge_feas := omap g_edge_feas items in
    let batch_pos_encs := omap g_pos_enc items in
    let batch_labels := omap g_label items in
    batch_A ← torch_stack batch_A;
    let batched_g := _set_A batched_g (Some batch_A) in
    batch_node_feas ← torch_stack batch_node_feas;
    batched_g ← set_node_feat batched_g (Some batch_node_feas);
    batched_g ← (if decide (0 < length batch_pos_encs)
                 then t ← torch_stack batch_pos_encs;
                      mret (set_ndata batched_g "pos_enc" (Some t))
                 else mret batched_g);
    batched_g ← (if decide (0 < length batch_edge_feas)
                 then t ← torch_stack batch_edge_feas;
                      set_edge_feat batched_g (Some t)
                 else mret batched_g);
    (if decide (0 < length batch_labels)
     then t ← torch_stack batch_labels;
          mret (set_label batched_g (Some t))
     else mret batched_g)
  else if bool_decide (adj_type batched_g = "coo") then mret batched_g
  else Raise NotImplementedError.

(** The behaviour [torch_geometric] documents for
    [Batch.from_data_list], used to run the batcher on concrete inputs:
    node counts add up, the edges of each member are shifted by the number
    of nodes before it, per-node and per-edge tensors are concatenated.
    A member that is [None] has no attributes to read. *)
Fixpoint union_edges (offset : nat) (ds : list pyg_Data) : list (nat * nat) :=
  match ds with
  | [] => []
  | d :: ds' =>
      map (fun rc : nat * nat => (rc.1 + offset, rc.2 + offset)) (edge_index d)
      ++ union_edges (offset + num_nodes d) ds'
  end.

Definition torch_cat (ts : list (option tensor)) : option tensor :=
  rows ← mapM (fun o : option tensor =>
            t ← o; match t with Stack r => Some r | Scalar _ => None end) ts;
  Some (Stack (concat rows)).

Definition disjoint_union (ds : list (option pyg_Data)) : result pyg_Data :=
  ds' ← for_each (fun o : option pyg_Data =>
           match o with
           | Some d => Ok d
           | None => Raise AttributeError
           end) ds;
  mret {| num_nodes := sum_list (map num_nodes ds');
          edge_index := union_edges 0 ds';
          pyg_x := torch_cat (map pyg_x ds');
          edge_attr := torch_cat (map edge_attr ds');
          pyg_y := torch_cat (map pyg_y ds') |}.

Section Batching.

(** [torch_geometric.data.Batch.from_data_list], applied to the members'
    [pyg_graph] fields (each possibly [None]): a function of the
    library, not of this repository. *)
Variable from_data_list : list (option pyg_Data) -> result pyg_Data.

(** Lines 156-158, the sparse union. *)
Definition sparse_union (graphs : list BaseGraph) : result BaseGraph :=
  pyg_b_graph ← from_data_list (map pyg_graph graphs);
  from_pyg_graph pyg_b_graph.

(** [BaseGraphUtils.init_batch_graph]. *)
Definition init_batch_graph (graphs : list BaseGraph) : result BaseGraph :=
  match graphs with
  | [] => Raise AssertionError
  | g1 :: _ =>
      match select_path graphs with
      | SparseUnion => sparse_union graphs
      | DenseStack => dense_stack graphs g1
      end
  end.

End Batching.

(** *** Laplacian positional encoding *)

(** numpy's complex numbers; a real array has [im] zero throughout. *)
Record complex : Type := mkC { re : Q; im : Q }.

(** The order numpy sorts complex numbers by: real part first, then
    imaginary part. *)
Definition complex_leb (a b : complex) : bool :=
  match (re a ?= re b)%Q with
  | Lt => true
  | Eq => Qle_bool (im a) (im b)
  | Gt => false
  end.

Definition complex_le (a b : complex) : Prop := complex_leb a b = true.

Definition key_le (a b : nat * complex) : Prop := complex_le a.2 b.2.

(** [vals.argsort()]: the indices of [vals] in increasing order of value,
    by insertion, so that values that compare equal stay in the order they
    came in. numpy's default sort promises no order among equal values; no
    property below depends on the order they are given. *)
Fixpoint insert_key (p : nat * complex) (l : list (nat * complex))
    : list (nat * complex) :=
  match l with
  | [] => [p]
  | q :: l' =>
      if complex_leb p.2 q.2 then p :: q :: l' else q :: insert_key p l'
  end.

Definition argsort (vals : list complex) : list nat :=
  (foldr insert_key [] (imap pair vals)).*1.

Section Spectral.

(** [utils.calculate_normalized_laplacian], a module of the repository
    that is not among the sources, and [np.linalg.eig]: both are taken
    as they come. [np.linalg.eig] answers with the eigenvalues and the
    matrix whose columns are the eigenvectors, or raises LinAlgError. *)
Variable calculate_normalized_laplacian : tensor -> result (list (list Q)).
Variable np_linalg_eig :
  list (list Q) -> result (list complex * list (list complex)).

(** [BaseGraphUtils.lap_positional_encoding]. *)
Definition lap_positional_encoding (g : BaseGraph) (pos_enc_dim : nat)
    : result BaseGraph :=
  a ← (match A g with
       | Some a => Ok a
       | None => Raise AttributeError
       end);
  normed_L ← calculate_normalized_laplacian a;
  eig ← np_linalg_eig normed_L;
  let EigVal := eig.1 in
  let EigVec := eig.2 in
  let idx := argsort EigVal in
  EigVal ← take_indices EigVal idx;
  EigVec ← for_each (fun row => take_indices row idx) EigVec;
  let EigVec := map (map re) EigVec in
  let pos_enc := of_rows (map (fun row => take pos_enc_dim (drop 1 row)) EigVec) in
  let g := set_ndata g "pos_enc" (Some pos_enc) in
  mret (set_ndata g "eigvec" (Some pos_enc)).

End Spectral.

End Graph.

(** ** [models.py]: [WalkPooling] *)

Module WalkPool.
Local Open Scope R_scope.

(** *** Numbers and vectors *)

Fixpoint sum_R (l : list R) : R :=
  match l with
  | [] => 0
  | v :: l' => v + sum_R l'
  end.

Definition list_max (l : list R) : R :=
  match l with
  | [] => 0
  | v :: l' => foldl Rmax v l'
  end.

(** [torch.max(t)] of an integer tensor; an empty tensor has no maximum. *)
Definition torch_max (l : list nat) : result nat :=
  match l with
  | [] => Raise RuntimeError
  | _ => Ok (foldr Nat.max 0%nat l)
  end.

Definition sigmoid (v : R) : R := 1 / (1 + exp (- v)).

(** [F.leaky_relu(v, slope)]. *)
Definition leaky_relu (slope v : R) : R := Rmax 0 v + slope * Rmin 0 v.

Definition vadd (a b : list R) : list R := zip_with Rplus a b.
Definition vscale (c : R) (a : list R) : list R := map (Rmult c) a.
Definition vsum (width : nat) (l : list (list R)) : list R :=
  foldr vadd (replicate width 0) l.

(** *** [torch_scatter] *)

(** The entries of [src] whose index is [d]. *)
Definition group {X} (src : list X) (index : list nat) (d : nat) : list X :=
  (filter (fun p : X * nat => p.2 = d) (zip src index)).*1.

(** [scatter_max(src, index, dim=0, dim_size)[0]] and
    [scatter_add(src, index, dim=0, dim_size)] on one column; a slot no entry
    goes to holds 0. *)
Definition scatter_max (src : list R) (index : list nat) (dim_size : nat) : list R :=
  map (fun d => list_max (group src index d)) (seq 0 dim_size).

Definition scatter_add (src : list R) (index : list nat) (dim_size : nat) : list R :=
  map (fun d => sum_R (group src index d)) (seq 0 dim_size).

(** [t[mask]] for a boolean mask along dimension 0. *)
Definition mask_select {X} (t : list X) (mask : list bool) : result (list X) :=
  if decide (length mask = length t)
  then Ok ((filter (fun p : X * bool => p.2 = true) (zip t mask)).*1)
  else Raise IndexError.

(** An E×heads tensor of scores is kept by columns, one list of E numbers
    per head: the code reads such a tensor by column ([weights_p[:, head]])
    or entry by entry. *)

(** [t[mask]] on a tensor of [n] rows kept by columns. *)
Definition select_rows (n : nat) (columns : list (list R)) (mask : list bool)
    : result (list (list R)) :=
  if decide (length mask = n)
  then for_each (fun w => mask_select w mask) columns
  else Raise IndexError.

(** Lines 980-984 of [weight_encoder] on the column of one head:
<<
    weights_m = weights - scatter_max(weights, col, dim=0, dim_size=num_nodes)[0][col]
    weights_m = torch.exp(weights_m)
    weights_m = weights_m * edge_mask.view(-1,1)
    norm = scatter_add(weights_m, col, dim=0, dim_size=num_nodes)[col] + 1e-16
    weights_m = weights_m / norm
>> *)
Definition minus_column (weights : list R) (col : list nat) (edge_mask : list bool)
    (num_nodes : nat) : result (list R) :=
  mx ← take_indices (scatter_max weights col num_nodes) col;
  let weights_m := zip_with Rminus weights mx in
  let weights_m := map exp weights_m in
  let weights_m :=
    zip_with (fun w (b : bool) => w * (if b then 1 else 0)) weights_m edge_mask in
  norm ← take_indices (scatter_add weights_m col num_nodes) col;
  let norm := map (fun n => n + 1e-16) norm in
  mret (zip_with Rdiv weights_m norm).

(** *** [MessagePassing.propagate] with the default sum aggregation *)

(** [norm.view(-1, 1) * x_j]: one factor per edge, or a single factor for
    all of them. *)
Definition message (x_j : list (list R)) (norm : list R) : result (list (list R)) :=
  if decide (length norm = length x_j) then Ok (zip_with vscale norm x_j)
  else match norm with
       | [c] => Ok (map (vscale c) x_j)
       | _ => Raise RuntimeError
       end.

Definition width (x : list (list R)) : nat :=
  match x with
  | [] => 0%nat
  | r :: _ => length r
  end.

(** Row [d] of the result is the sum of the messages of the edges that end
    in [d]; the messages start from the rows of the edges' sources. The
    aggregation is asked for as many rows as [x] has, and refuses a
    destination beyond them with a ValueError. *)
Definition propagate (edge_index : list (nat * nat)) (x : list (list R))
    (norm : list R) : result (list (list R)) :=
  x_j ← take_indices x edge_index.*1;
  msg ← message x_j norm;
  if decide (Forall (fun d => (d < length x)%nat) edge_index.*2)
  then Ok (map (fun d => vsum (width x) (group msg edge_index.*2 d))
               (seq 0 (length x)))
  else Raise ValueError.

(** *** Pieces of [forward] *)

(** [torch.unique(batch, sorted=True, return_counts=True)[1]]. *)
Definition unique_counts (batch : list nat) : list nat :=
  let values := filter (fun v => v ∈ batch) (seq 0 (S (foldr Nat.max 0%nat batch))) in
  map (fun v => length (filter (fun b => b = v) batch)) values.

(** [index[start:start+len(vals)] = vals]: the slice is clipped to the
    tensor, and the values have to fill it (a single value is repeated). *)
Definition assign_slice (index : list nat) (start : nat) (vals : list nat)
    : result (list nat) :=
  let lo := start `min` length index in
  let hi := (start + length vals) `min` length index in
  if decide (hi - lo = length vals)%nat
  then Ok (take lo index ++ vals ++ drop hi index)
  else match vals with
       | [v] => Ok (take lo index ++ replicate (hi - lo) v ++ drop hi index)
       | _ => Raise RuntimeError
       end.

(** Lines 997-1009: the position of every node inside its graph. *)
Definition make_index (batch : list nat) (batch_size : nat) (counts : list nat)
    : result (list nat) :=
  r ← for_range batch_size (fun i (st : list nat * nat) =>
         c ← getidx counts i;
         index ← assign_slice st.1 st.2 (seq 0 c);
         mret (index, (st.2 + c)%nat))
       (replicate (length batch) 0%nat, 0%nat);
  mret r.1.

(** [torch.zeros(n, m).scatter_(1, index, 1)]: row [r] is the indicator of
    position [index[r]]. *)
Definition one_hot (n m : nat) (index : list nat) : result (list (list R)) :=
  if decide (length index = n /\ Forall (fun i => (i < m)%nat) index)
  then Ok (map (fun i => <[i := 1]> (replicate m 0)) index)
  else Raise RuntimeError.

(** [x[rows, cols]]. *)
Definition pick (x : list (list R)) (rows cols : list nat) : result (list R) :=
  if decide (length rows = length cols)
  then for_each (fun rc : nat * nat => r ← getidx x rc.1; getidx r rc.2) (zip rows cols)
  else Raise IndexError.

(** [torch.gather(x, 1, index)] with one index per row. *)
Definition gather_diag (x : list (list R)) (index : list nat) : result (list R) :=
  if decide (length index <= length x)%nat
  then for_each (fun ri : list R * nat =>
         match ri.1 !! ri.2 with
         | Some v => Ok v
         | None => Raise RuntimeError
         end) (zip x index)
  else Raise RuntimeError.

(** [scatter_add(src, batch, dim=0)]: as many slots as the largest index
    needs. *)
Definition scatter_add_batch (src : list R) (batch : list nat) : result (list R) :=
  if decide (length src = length batch)
  then Ok (scatter_add src batch (S (foldr Nat.max 0%nat batch)))
  else Raise RuntimeError.

(** [m[:, c] = v] on a matrix given by its rows. *)
Definition set_column (m : list (list R)) (c : nat) (v : list R)
    : result (list (list R)) :=
  if decide (Forall (fun row => (c < length row)%nat) m)
  then if decide (length v = length m)
       then Ok (zip_with (fun row a => <[c := a]> row) m v)
       else match v with
            | [a] => Ok (map (fun row => <[c := a]> row) m)
            | _ => Raise RuntimeError
            end
  else Raise IndexError.

(** [torch.cat((a, b), dim=1)]. *)
Definition cat1 (a b : list (list R)) : result (list (list R)) :=
  if decide (length a = length b) then Ok (zip_with app a b)
  else Raise RuntimeError.

(** [a + b] on two columns, with broadcasting along dimension 0. *)
Definition add_broadcast (a b : list R) : result (list R) :=
  if decide (length a = length b) then Ok (zip_with Rplus a b)
  else match a, b with
       | [u], _ => Ok (map (Rplus u) b)
       | _, [v] => Ok (map (fun u => u + v) a)
       | _, _ => Raise RuntimeError
       end.

(** The length of [a + b] for columns of lengths [n] and [m]. *)
Definition broadcast_length (n m : nat) : result nat :=
  if decide (n = m) then Ok n
  else if decide (n = 1%nat) then Ok m
  else if decide (m = 1%nat) then Ok n
  else Raise RuntimeError.

(** [x[rows, index[cols].view(-1)]]. *)
Definition pick_at (x : list (list R)) (index rows cols : list nat) : result (list R) :=
  idx ← take_indices index cols;
  pick x rows idx.

(** [x[r1, index[c1].view(-1)] + x[r2, index[c2].view(-1)]]. *)
Definition pick_sum (x : list (list R)) (index r1 c1 r2 c2 : list nat)
    : result (list R) :=
  a ← pick_at x index r1 c1;
  b ← pick_at x index r2 c2;
  add_broadcast a b.

(** The rows of a tensor kept by columns. *)
Definition rows_of (n : nat) (columns : list (list R)) : list (list R) :=
  map (fun r => map (fun c => nth r c 0) columns) (seq 0 n).

(** [torch.arange(start, stop, 2)]. *)
Definition arange2 (start stop : nat) : list nat :=
  map (fun k => (start + 2 * k)%nat) (seq 0 (Nat.div2 (stop + 1 - start))).

(** The five accumulators of [forward], each a matrix with one row per
    graph and [walk_len * heads] columns. *)
Record levels : Type := mkLevels {
  nodelevel_p : list (list R);
  nodelevel_m : list (list R);
  linklevel_p : list (list R);
  linklevel_m : list (list R);
  graphlevel : list (list R)
}.

Section Model.

(** The hyperparameters and the learned layers of a [WalkPooling] module.
    [dropout_query] and [dropout_key] are the two calls of [F.dropout] (the
    identity outside training). *)
Variables (hidden_channels heads walk_len : nat).
Variables (lin_key1 lin_query1 lin_key2 lin_query2 : list R -> list R).
Variables (dropout_query dropout_key : list (list R) -> list (list R)).

(** [torch.nn.functional.softmax(input, d)] for an integer dimension [d]:
    the library's softmax along that dimension. *)
Variable softmax_dim : list (list R) -> nat -> result (list (list R)).

(** [WalkPooling.attention_mlp]. After [.view(-1, heads, hidden_channels)]
    entry (h, c) of a node's vector is at position
    [h * hidden_channels + c] of the layer's output. *)
Definition attention_mlp (x : list (list R)) (edge_index : list (nat * nat))
    : result (list (list R)) :=
  let query := map lin_key1 x in
  let key := map lin_query1 x in
  let query := map (map (leaky_relu 0.2)) query in
  let key := map (map (leaky_relu 0.2)) key in
  let query := dropout_query query in
  let key := dropout_key key in
  let query := map lin_key2 query in
  let key := map lin_query2 key in
  q ← take_indices query edge_index.*1;
  k ← take_indices key edge_index.*2;
  mret (map (fun h =>
          zip_with (fun qe ke =>
            sum_R (map (fun c => nth (h * hidden_channels + c) qe 0
                                 * nth (h * hidden_channels + c) ke 0)
                       (seq 0 hidden_channels))
            / sqrt (INR hidden_channels)) q k)
        (seq 0 heads)).

(** [F.softmax(weights, edge_index[1])]. [F] is [torch.nn.functional]
    (lines 8 and 846), whose [softmax] takes the dimension to normalise
    along as its second argument. Here it is handed the tensor of
    destinations: torch takes a tensor for an integer only if it holds a
    single element, and raises a TypeError for any other. *)
Definition F_softmax (input : list (list R)) (dim : list nat)
    : result (list (list R)) :=
  match dim with
  | [d] => softmax_dim input d
  | _ => Raise TypeError
  end.

(** [WalkPooling.weight_encoder]. *)
Definition weight_encoder (x : list (list R)) (edge_index : list (nat * nat))
    (edge_mask : list bool)
    : result (list (list R) * list (list R) * list (list R)) :=
  weights ← attention_mlp x edge_index;
  omega ← select_rows (length edge_index) weights (map negb edge_mask);
  let omega := map (map sigmoid) omega in
  let row := edge_index.*1 in
  let col := edge_index.*2 in
  m ← torch_max (row ++ col);
  let num_nodes := S m in
  weights_p ← F_softmax weights col;
  weights_m ← for_each (fun w => minus_column w col edge_mask num_nodes) weights;
  mret (weights_p, weights_m, omega).

(** Lines 1049-1071: one turn of the inner loop, for the head whose weight
    columns are [wp] and [wm], writing column [c] of the accumulators. *)
Definition walk_step (edge_index : list (nat * nat)) (batch index : list nat)
    (node_i node_j : list nat) (wp wm : list R) (c : nat)
    (st : list (list R) * list (list R) * levels)
    : result (list (list R) * list (list R) * levels) :=
  let '(x_p, x_m, lv) := st in
  x_p ← propagate edge_index x_p wp;
  x_m ← propagate edge_index x_m wm;
  nodelevel_p_w ← pick_sum x_p index node_i node_i node_j node_j;
  nodelevel_m_w ← pick_sum x_m index node_i node_i node_j node_j;
  nl_p ← set_column (nodelevel_p lv) c nodelevel_p_w;
  nl_m ← set_column (nodelevel_m lv) c nodelevel_m_w;
  linklevel_p_w ← pick_sum x_p index node_i node_j node_j node_i;
  linklevel_m_w ← pick_sum x_m index node_i node_j node_j node_i;
  ll_p ← set_column (linklevel_p lv) c linklevel_p_w;
  ll_m ← set_column (linklevel_m lv) c linklevel_m_w;
  diag_ele_p ← gather_diag x_p index;
  diag_ele_m ← gather_diag x_m index;
  graphlevel_p ← scatter_add_batch diag_ele_p batch;
  graphlevel_m ← scatter_add_batch diag_ele_m batch;
  gl ← set_column (graphlevel lv) c (zip_with Rminus graphlevel_p graphlevel_m);
  mret (x_p, x_m, mkLevels nl_p nl_m ll_p ll_m gl).

(** Lines 1035-1071: the loop body for one head. *)
Definition walk_head (edge_index : list (nat * nat)) (batch index : list nat)
    (max_nodes : nat) (node_i node_j : list nat)
    (weights_p weights_m : list (list R)) (head : nat) (lv : levels)
    : result levels :=
  x_p ← one_hot (length batch) max_nodes index;
  x_m ← one_hot (length batch) max_nodes index;
  wp ← getidx weights_p head;
  x_p ← propagate edge_index x_p wp;
  wm ← getidx weights_m head;
  x_m ← propagate edge_index x_m wm;
  r ← for_range walk_len (fun i st =>
         walk_step edge_index batch index node_i node_j wp wm
                   (head * walk_len + i) st)
       (x_p, x_m, lv);
  mret r.2.

(** Lines 993-1081 of [forward]: everything after the weight encoder.
    [omega.size(0)] is the number of candidate edges. *)
Definition walk_features (weights_p weights_m omega : list (list R))
    (edge_index : list (nat * nat)) (edge_mask : list bool) (batch : list nat)
    : result (list (list R)) :=
  m ← torch_max batch;
  let batch_size := S m in
  let counts := unique_counts batch in
  max_nodes ← torch_max counts;
  index ← make_index batch batch_size counts;
  let zeros := replicate batch_size (replicate (walk_len * heads) 0) in
  let lv := mkLevels zeros zeros zeros zeros zeros in
  link ← mask_select edge_index (map negb edge_mask);
  let n_cand := length link in
  let indices_odd := arange2 0 n_cand in
  let indices_even := arange2 1 n_cand in
  n_pairs ← broadcast_length (length indices_even) (length indices_odd);
  omega ← for_each (fun w =>
             a ← take_indices w indices_even;
             b ← take_indices w indices_odd;
             add_broadcast a b) omega;
  let link_ij := link.*1 in
  node_i ← take_indices link_ij indices_odd;
  node_j ← take_indices link_ij indices_even;
  lv ← for_range heads (fun head lv =>
          walk_head edge_index batch index max_nodes node_i node_j
                    weights_p weights_m head lv) lv;
  feature_list ← cat1 (graphlevel lv) (rows_of n_pairs omega);
  feature_list ← cat1 feature_list (nodelevel_p lv);
  feature_list ← cat1 feature_list (nodelevel_m lv);
  feature_list ← cat1 feature_list (linklevel_p lv);
  cat1 feature_list (linklevel_m lv).

(** [WalkPooling.forward]. *)
Definition forward (x : list (list R)) (edge_index : list (nat * nat))
    (edge_mask : list bool) (batch : list nat) : result (list (list R)) :=
  w ← weight_encoder x edge_index edge_mask;
  walk_features w.1.1 w.1.2 w.2 edge_index edge_mask batch.

End Model.

End WalkPool.

(** ** More of [models.py] *)

(** [for a in l: s = body(a, s)]. *)
Fixpoint for_fold {A St} (body : A -> St -> result St) (l : list A) (s : St)
    : result St :=
  match l with
  | [] => Ok s
  | a :: l' => s' ← body a s; for_fold body l' s'
  end.

(** ** [models.py]: [GraphDataset] *)

Module Dataset.
Import Tensor Graph.

(** [l[i]] on a Python list for an integer [i]: a negative position counts
    from the end, a position outside is an IndexError. *)
Definition list_index {X} (l : list X) (i : Z) : result X :=
  k ← DataRecord.np_index (length l) i; getidx l k.

(** [t[i]] on a tensor; a tensor without dimensions cannot be indexed. *)
Definition tensor_index (t : tensor) (i : Z) : result tensor :=
  match t with
  | Scalar _ => Raise IndexError
  | Stack ts => list_index ts i
  end.

(** The dataset: a list of graphs [x] and the tensor [y] of their labels. *)
Record GraphDataset : Type := mkGraphDataset {
  x : list BaseGraph;
  y : tensor
}.

(** [GraphDataset.__init__]: [assert len(x) == y.shape[0]]. *)
Definition GraphDataset_init (x : list BaseGraph) (y : tensor)
    : result GraphDataset :=
  n ← shape_at y 0;
  if decide (length x = n) then Ok (mkGraphDataset x y)
  else Raise AssertionError.

Definition __getitem__ (self : GraphDataset) (index : Z)
    : result (BaseGraph * tensor) :=
  gx ← list_index (x self) index;
  gy ← tensor_index (y self) index;
  mret (gx, gy).

Definition __len__ (self : GraphDataset) : nat := length (x self).

Section Collate.

Variable from_data_list : list (option pyg_Data) -> result pyg_Data.

(** [GraphDataset.collate]: the samples, pairs of a graph and its label,
    are unzipped into the list of graphs and the list of labels (line 249);
    the labels are stacked and the graphs handed to [init_batch_graph].
    Unzipping no sample yields nothing, which cannot be unpacked into the
    two names: a ValueError. *)
Definition collate (samples : list (BaseGraph * tensor))
    : result (BaseGraph * tensor) :=
  match samples with
  | [] => Raise ValueError
  | _ =>
      let graphs := samples.*1 in
      let labels := samples.*2 in
      labels ← torch_stack (map Some labels);
      batched_graph ← init_batch_graph from_data_list graphs;
      mret (batched_graph, labels)
  end.

End Collate.

Section Encodings.

Variable calculate_normalized_laplacian : tensor -> result (list (list Q)).
Variable np_linalg_eig :
  list (list Q) -> result (list complex * list (list complex)).

(** The list comprehension of [_add_lap_positional_encodings]:
    [lap_positional_encoding] writes into the graph it is given, so a graph
    that has been encoded stays encoded when a later one raises. The
    encoder writes only once everything it computes has succeeded: the
    graph that raises is left as it was. *)
Fixpoint encode_graphs (pos_enc_dim : nat) (graphs : list BaseGraph)
    : list BaseGraph * result unit :=
  match graphs with
  | [] => ([], Ok tt)
  | g :: rest =>
      match lap_positional_encoding calculate_normalized_laplacian
                                    np_linalg_eig g pos_enc_dim with
      | Ok g' => let r := encode_graphs pos_enc_dim rest in (g' :: r.1, r.2)
      | Raise e => (g :: rest, Raise e)
      end
  end.

(** [GraphDataset._add_lap_positional_encodings]: the dataset after the
    call, and how the call ended. *)
Definition _add_lap_positional_encodings (self : GraphDataset) (pos_enc_dim : nat)
    : GraphDataset * result unit :=
  let r := encode_graphs pos_enc_dim (x self) in
  (mkGraphDataset r.1 (y self), r.2).

End Encodings.

End Dataset.

(** ** [models.py]: [Logger] *)

Module Logging.
Local Open Scope R_scope.

(** [results[run]] is the list of the results added for that run, each a
    sequence of numbers (validation score, test score). *)
Record Logger : Type := mkLogger {
  info : option string;
  results : list (list (list R))
}.

(** [Logger.__init__]: [[[] for _ in range(runs)]], one list per run, none
    for a negative [runs]. *)
Definition Logger_init (runs : Z) (info : option string) : Logger :=
  mkLogger info (replicate (Z.to_nat runs) []).

(** [Logger.add_result]:
<<
      assert len(result) == 2
      assert run >= 0 and run < len(self.results)
      self.results[run].append(result)
>> *)
Definition add_result (self : Logger) (run : Z) (res : list R) : result Logger :=
  if decide (length res = 2%nat)
  then if decide (0 <= run < Z.of_nat (length (results self)))%Z
       then Ok (mkLogger (info self)
                  (alter (fun l => l ++ [res]) (Z.to_nat run) (results self)))
       else Raise AssertionError
  else Raise AssertionError.

(** [torch.tensor(rows)] for a list of lists of numbers: the inner lists
    must have one length. No list at all gives a tensor of shape [(0,)]. *)
Definition torch_tensor (rows : list (list R)) : result (list (list R)) :=
  match rows with
  | [] => Ok []
  | r0 :: _ =>
      if forallb (fun r => length r =? length r0)%nat rows then Ok rows
      else Raise ValueError
  end.

(** [torch.tensor(runs)] one level deeper: every run has the same number
    of results, and every result the same length. *)
Definition torch_tensor3 (runs : list (list (list R)))
    : result (list (list (list R))) :=
  match runs with
  | [] => Ok []
  | r0 :: _ =>
      if forallb (fun r => length r =? length r0)%nat runs
      then match concat runs with
           | [] => Ok runs
           | e0 :: _ =>
               if forallb (fun e => length e =? length e0)%nat (concat runs)
               then Ok runs else Raise ValueError
           end
      else Raise ValueError
  end.

(** [t[:, c]]: a tensor without rows has a single dimension, which two
    indices are too many for. *)
Definition column (t : list (list R)) (c : nat) : result (list R) :=
  match t with
  | [] => Raise IndexError
  | _ => for_each (fun r => getidx r c) t
  end.

(** [t.argmax()]: the position of the first maximal value. *)
Fixpoint argmax_from (l : list R) (i : nat) (best : R) (best_i : nat) : nat :=
  match l with
  | [] => best_i
  | v :: l' =>
      if Rlt_dec best v then argmax_from l' (S i) v i
      else argmax_from l' (S i) best best_i
  end.

Definition argmax (l : list R) : result nat :=
  match l with
  | [] => Raise IndexError
  | v :: l' => Ok (argmax_from l' 1 v 0)
  end.

(** [t.max()]. *)
Definition tensor_max (l : list R) : result R :=
  match l with
  | [] => Raise RuntimeError
  | _ => Ok (WalkPool.list_max l)
  end.

(** The two numbers [print_statistics] takes from the results of one run
    [r] (a tensor with one row per result): the highest validation score
    [r[:, 0].max()] and the test score where it is first reached,
    [r[r[:, 0].argmax(), 1]]. *)
Definition best_epoch (r : list (list R)) : result (R * R) :=
  valid_col ← column r 0;
  valid ← tensor_max valid_col;
  am ← argmax valid_col;
  row ← getidx r am;
  test ← getidx row 1;
  mret (valid, test).

(** [t.mean()] and [t.std()] (the unbiased estimate); [None] is the [nan]
    torch answers when the estimate does not exist. *)
Definition mean (l : list R) : option R :=
  match l with
  | [] => None
  | _ => Some (WalkPool.sum_R l / INR (length l))
  end.

Definition std (l : list R) : option R :=
  match mean l with
  | None => None
  | Some m =>
      if decide (length l <= 1)%nat then None
      else Some (sqrt (WalkPool.sum_R (map (fun v => (v - m) * (v - m)) l)
                       / INR (length l - 1)))
  end.

(** What [print_statistics] prints, as numbers: for one run the run's
    number, the highest validation score and the final test score; for all
    runs the mean and the deviation of both over the runs. *)
Inductive report : Type :=
| RunReport (run : Z) (highest_valid final_test : R)
| AllRuns (valid_mean valid_std test_mean test_std : option R).

(** [Logger.print_statistics]; the scores are scaled by 100 first. The
    formatting of the numbers is not modelled. *)
Definition print_statistics (self : Logger) (run : option Z) : result report :=
  match run with
  | Some run =>
      rows ← Dataset.list_index (results self) run;
      t ← torch_tensor rows;
      let result := map (map (Rmult 100)) t in
      b ← best_epoch result;
      mret (RunReport (run + 1) b.1 b.2)
  | None =>
      t ← torch_tensor3 (results self);
      let result := map (map (map (Rmult 100))) t in
      best_results ← for_each best_epoch result;
      best_result ← torch_tensor (map (fun b : R * R => [b.1; b.2]) best_results);
      r ← column best_result 0;
      let valid_mean := mean r in
      let valid_std := std r in
      r ← column best_result 1;
      mret (AllRuns valid_mean valid_std (mean r) (std r))
  end.

End Logging.

(** ** [models.py]: [get_spd_matrix] *)

Module Distances.
Import DataRecord.

Section Spd.

(** A [networkx] graph, of which the code uses two things:
    [G.number_of_nodes()], and [nx.shortest_path_length(G, source)], the
    dictionary that gives every node reachable from [source] its distance,
    read through its items. The nodes are integers, since they index the
    rows of the matrix. *)
Variable nx_Graph : Type.
Variable number_of_nodes : nx_Graph -> nat.
Variable shortest_path_length : nx_Graph -> Z -> result (list (Z * nat)).

(** [get_spd_matrix]:
<<
    spd_matrix = np.zeros((G.number_of_nodes(), len(S)), dtype=np.float32)
    for i, node_S in enumerate(S):
        for node, length in nx.shortest_path_length(G, source=node_S).items():
            spd_matrix[node, i] = min(length, max_spd)
    return spd_matrix
>> *)
Definition get_spd_matrix (G : nx_Graph) (S : list Z) (max_spd : Z)
    : result ndarray :=
  let spd_matrix := replicate (number_of_nodes G) (replicate (length S) 0%Q) in
  for_fold (fun (i_node_S : nat * Z) spd_matrix =>
      items ← shortest_path_length G i_node_S.2;
      for_fold (fun (node_length : Z * nat) spd_matrix =>
          r ← np_index (number_of_nodes G) node_length.1;
          mret (set_entry spd_matrix r i_node_S.1
                  (inject_Z (Z.min (Z.of_nat node_length.2) max_spd))))
        items spd_matrix)
    (imap pair S) spd_matrix.

End Spd.

End Distances.

(** ** [models.py]: link predictors and decoders *)

Module LinkPrediction.
Import WalkPool.
Local Open Scope R_scope.

(** A two-dimensional tensor is the list of its rows. Its shape is read off
    the rows, so every dimension has at least one entry here. *)
Abbreviation matrix := (list (list R)).

(** [a op b] entry by entry on two rows, with torch's broadcasting: a row
    of one entry is repeated. *)
Definition broadcast_row (op : R -> R -> R) (a b : list R) : result (list R) :=
  if decide (length a = length b) then Ok (zip_with op a b)
  else match a, b with
       | [u], _ => Ok (map (op u) b)
       | _, [v] => Ok (map (fun u => op u v) a)
       | _, _ => Raise RuntimeError
       end.

(** The same on two matrices: a matrix of one row is repeated. *)
Definition broadcast (op : R -> R -> R) (a b : matrix) : result matrix :=
  if decide (length a = length b)
  then for_each (fun p : list R * list R => broadcast_row op p.1 p.2) (zip a b)
  else match a, b with
       | [ra], _ => for_each (broadcast_row op ra) b
       | _, [rb] => for_each (fun r => broadcast_row op r rb) a
       | _, _ => Raise RuntimeError
       end.

(** [torch.matmul(a, b)] / [a @ b] / [torch.mm(a, b)]: the rows of [a] are
    as long as [b] has rows. *)
Definition matmul (a b : matrix) : result matrix :=
  if decide (Forall (fun row => length row = length b) a)
  then Ok (map (fun row =>
             map (fun j => sum_R (zip_with Rmult row (map (fun r => nth j r 0) b)))
                 (seq 0 (width b))) a)
  else Raise RuntimeError.

(** [m.t()]. *)
Definition transpose (m : matrix) : matrix :=
  map (fun j => map (fun r => nth j r 0) m) (seq 0 (width m)).

(** [torch.einsum('nc, nc -> n', a, b)]: the rows of the product entry by
    entry, summed. *)
Definition einsum_nc_nc_n (a b : matrix) : result (list R) :=
  p ← broadcast Rmult a b;
  mret (map sum_R p).

Definition relu (v : R) : R := Rmax 0 v.

(** [dot_product_decode]: [torch.sigmoid(torch.matmul(Z, Z.t()))]. *)
Definition dot_product_decode (Z : matrix) : result matrix :=
  A_pred ← matmul Z (transpose Z);
  mret (map (map sigmoid) A_pred).

(** *** [LinkPredictor] *)

(** A layer [torch.nn.Linear]: a function of the batch it is applied to,
    which refuses a batch of the wrong width. *)
Abbreviation layer := (matrix -> result matrix).

(** [lins] is the module list; [dropout k] is the [F.dropout] applied
    after layer [k] (outside training the identity, in training the mask
    drawn at that call). *)
Record LinkPredictor : Type := mkLinkPredictor {
  lins : list layer;
  dropout : nat -> matrix -> matrix
}.

Section Layers.

(** [torch.nn.Linear(n, m)], for the layer created in position [k] of a
    module list: the weights are drawn when the layer is created. *)
Variable Linear : nat -> nat -> nat -> layer.

(** [LinkPredictor.__init__]: [num_layers - 2] hidden layers between the
    first and the last, none when [num_layers] is 2 or less. *)
Definition LinkPredictor_init (in_channels hidden_channels out_channels : nat)
    (num_layers : nat) (dropout : nat -> matrix -> matrix) : LinkPredictor :=
  mkLinkPredictor
    (Linear 0 in_channels hidden_channels
     :: map (fun k => Linear (S k) hidden_channels hidden_channels)
            (seq 0 (num_layers - 2))
     ++ [Linear (S (num_layers - 2)) hidden_channels out_channels])
    dropout.

End Layers.

(** [LinkPredictor.forward]:
<<
      x = x_i * x_j
      for lin in self.lins[:-1]:
          x = lin(x)
          x = F.relu(x)
          x = F.dropout(x, p=self.dropout, training=self.training)
      x = self.lins[-1](x)
      return torch.sigmoid(x)
>> *)
Definition LinkPredictor_forward (self : LinkPredictor) (x_i x_j : matrix)
    : result matrix :=
  x ← broadcast Rmult x_i x_j;
  x ← for_fold (fun (k_lin : nat * layer) x =>
                  x ← k_lin.2 x;
                  let x := map (map relu) x in
                  mret (dropout self k_lin.1 x))
               (imap pair (removelast (lins self))) x;
  lin ← (match last (lins self) with
         | Some lin => Ok lin
         | None => Raise IndexError
         end);
  x ← lin x;
  mret (map (map sigmoid) x).

(** *** [gumbel_sampling] and [LinkPredictorMy] *)

Section Sampling.

(** [torch.rand(shape).cuda()] for the [k]-th draw of a call: numbers of
    [[0, 1)], or the exception of a machine without the device. *)
Variable torch_rand_cuda : nat -> nat -> nat -> result matrix.
Variable Linear : nat -> nat -> nat -> layer.

(** [gumbel_sampling(shape, mu, beta)] for a shape of two dimensions:
<<
    y = torch.rand(shape).cuda() + 1e-20
    g = mu - beta * torch.log(-torch.log(y)+1e-20)
>> *)
Definition gumbel_sampling (k : nat) (n m : nat) (mu beta : R) : result matrix :=
  y ← torch_rand_cuda k n m;
  let y := map (map (fun v => v + 1e-20)) y in
  mret (map (map (fun v => mu - beta * ln (- ln v + 1e-20))) y).

(** The predictor: the matrix [W], the temperature, the inner
    [LinkPredictor], the two counters of the warm-up and the sampling
    options. [num_gumbels] is a positive number of samples. *)
Record LinkPredictorMy : Type := mkLinkPredictorMy {
  W : matrix;
  tau : R;
  dim_hidden : nat;
  linkpred : LinkPredictor;
  warm_up : Z;
  count : Z;
  num_gumbels : positive;
  emperical : bool
}.

(** [LinkPredictorMy.__init__]; [W0] is the matrix [torch.randn] draws,
    [dropout] the dropout (of probability 0.3) of the inner predictor. *)
Definition LinkPredictorMy_init (W0 : matrix) (dim_in dim_hidden : nat)
    (dropout : nat -> matrix -> matrix)
    (num_gumbels : positive) (emperical : bool) : LinkPredictorMy :=
  mkLinkPredictorMy W0 0.5 dim_hidden
    (LinkPredictor_init Linear dim_in dim_in 1 2 dropout)
    (-1) 0 num_gumbels emperical.

(** [LinkPredictorMy.expectation_sampling]:
<<
      U = torch.log(pi)
      gumbs = gumbel_sampling(pi.shape)
      for n in range(self.num_gumbels-1):
          gumbs += gumbel_sampling(pi.shape)
      U += gumbs/self.num_gumbels
      U = U/self.tau
>> *)
Definition expectation_sampling (self : LinkPredictorMy) (pi : matrix)
    : result matrix :=
  let U := map (map ln) pi in
  gumbs ← gumbel_sampling 0 (length pi) (width pi) 0 1;
  gumbs ← for_fold (fun n gumbs =>
                      g ← gumbel_sampling (S n) (length pi) (width pi) 0 1;
                      broadcast Rplus gumbs g)
                   (seq 0 (Pos.to_nat (num_gumbels self) - 1)) gumbs;
  let gumbs := map (map (fun v => v / IZR (Z.pos (num_gumbels self)))) gumbs in
  U ← broadcast Rplus U gumbs;
  mret (map (map (fun v => v / tau self)) U).

(** What [forward] returns: the inner predictor's matrix during the
    warm-up, the vector [p1] afterwards. *)
Inductive prediction : Type :=
| WarmUp (p : matrix)
| Sampled (p1 : list R).

(** [LinkPredictorMy.forward]: the predictor after the call (its counter
    may have moved) and the outcome of the call.
<<
      if self.count < self.warm_up:
          self.count += 1
          return self.linkpred(zi, zj)
      P = torch.sigmoid(torch.einsum('nc, nc -> n', zi@self.W, zj))
      pi = torch.stack((1-P, P),dim=1)
      if self.emperical:
          U = self.expectation_sampling(pi)
      else:
          U = torch.log(pi)
          U = U/self.tau
      p_exp = torch.exp(U)
      p_sum = torch.sum(p_exp, dim=1)
      p1 = p_exp[:,1]/p_sum
      return p1
>> *)
Definition LinkPredictorMy_forward (self : LinkPredictorMy) (zi zj : matrix)
    : LinkPredictorMy * result prediction :=
  if decide (count self < warm_up self)%Z
  then
    let self := mkLinkPredictorMy (W self) (tau self) (dim_hidden self)
                  (linkpred self) (warm_up self) (count self + 1)
                  (num_gumbels self) (emperical self) in
    (self, p ← LinkPredictor_forward (linkpred self) zi zj; mret (WarmUp p))
  else
    (self,
     zw ← matmul zi (W self);
     s ← einsum_nc_nc_n zw zj;
     let P := map sigmoid s in
     let pi := map (fun p => [1 - p; p]) P in
     U ← (if emperical self then expectation_sampling self pi
          else mret (map (map (fun v => v / tau self)) (map (map ln) pi)));
     let p_exp := map (map exp) U in
     let p_sum := map sum_R p_exp in
     p_exp1 ← for_each (fun r => getidx r 1) p_exp;
     p1 ← broadcast_row Rdiv p_exp1 p_sum;
     mret (Sampled p1)).

End Sampling.

End LinkPrediction.

(** ** [models.py]: [GCN], [MultiGCN] and [GenerativeGNN] *)

Module Convolution.
Import WalkPool LinkPrediction.
Local Open Scope R_scope.

(** Line 665 calls [degree], a name that [models.py] neither defines nor
    imports (its imports are lines 3-26 and 843-852): looking the name up
    is a NameError, whatever the arguments. *)
Definition degree (index : list nat) (num_nodes : nat) : result (list nat) :=
  Raise NameError.

(** [GCN.message]: [norm.view(-1, 1) * (x_j + edge_attr)]. *)
Definition GCN_message (x_j edge_attr : matrix) (norm : list R) : result matrix :=
  s ← broadcast Rplus x_j edge_attr;
  message s norm.

(** [MessagePassing.propagate] for [GCN]: the messages of the edges that
    end in a node are added up; a destination that is no row of [x] is
    refused by the aggregation with a ValueError. *)
Definition GCN_propagate (edge_index : list (nat * nat)) (x edge_attr : matrix)
    (norm : list R) : result matrix :=
  x_j ← take_indices x edge_index.*1;
  msg ← GCN_message x_j edge_attr norm;
  let w := match msg with
           | [] => width x
           | r :: _ => length r
           end in
  if decide (Forall (fun d => (d < length x)%nat) edge_index.*2)
  then Ok (map (fun d => vsum w (group msg edge_index.*2 d)) (seq 0 (length x)))
  else Raise ValueError.

Record GCN : Type := mkGCN { lin : layer }.

(** [GCN.forward]:
<<
      x = self.lin(x)
      if isinstance(x, Tensor):
          xx: OptPairTensor = (x, x)
      row, col = edge_index
      deg = degree(col, x.size(0), dtype=x.dtype)
      deg_inv_sqrt = deg.pow(-0.5)
      deg_inv_sqrt[deg_inv_sqrt == float('inf')] = 0
      norm = deg_inv_sqrt[row] * deg_inv_sqrt[col]
      out = self.propagate(edge_index, x=xx, edge_attr=edge_attr, norm=norm)
      out = out + xx[1]
      return out
>> *)
Definition GCN_forward (self : GCN) (x : matrix) (edge_index : list (nat * nat))
    (edge_attr : matrix) : result matrix :=
  x ← lin self x;
  let xx := (x, x) in
  let row := edge_index.*1 in
  let col := edge_index.*2 in
  deg ← degree col (length x);
  let deg_inv_sqrt :=
    map (fun d : nat => match d with
                        | O => 0
                        | _ => / sqrt (INR d)
                        end) deg in
  a ← take_indices deg_inv_sqrt row;
  b ← take_indices deg_inv_sqrt col;
  let norm := zip_with Rmult a b in
  out ← GCN_propagate edge_index xx.1 edge_attr norm;
  broadcast Rplus out xx.2.

(** The stack of convolutions [MultiGCN] and [GenerativeGNN] share, and
    the [F.dropout] applied after each but the last. *)
Record MultiGCN : Type := mkMultiGCN {
  convs : list GCN;
  dropout : nat -> matrix -> matrix
}.

Record GenerativeGNN : Type := mkGenerativeGNN {
  gen_convs : list GCN;
  gen_dropout : nat -> matrix -> matrix;
  W : matrix;
  tau : R;
  A_0 : matrix;
  N : nat;
  dim_hidden : nat
}.

Section Layers.

Variable Linear : nat -> nat -> nat -> layer.

(** The module list both constructors build: [num_layers - 2] hidden
    convolutions between the first and the last. *)
Definition gcn_stack (dim_in dim_hidden dim_out num_layers : nat) : list GCN :=
  mkGCN (Linear 0 dim_in dim_hidden)
  :: map (fun k => mkGCN (Linear (S k) dim_hidden dim_hidden))
         (seq 0 (num_layers - 2))
  ++ [mkGCN (Linear (S (num_layers - 2)) dim_hidden dim_out)].

Definition MultiGCN_init (dim_in dim_hidden dim_out num_layers : nat)
    (dropout : nat -> matrix -> matrix) : MultiGCN :=
  mkMultiGCN (gcn_stack dim_in dim_hidden dim_out num_layers) dropout.

(** [GenerativeGNN.__init__]; [W0] is the matrix [torch.rand] draws. *)
Definition GenerativeGNN_init (A_0 : matrix) (tau : R)
    (dim_in dim_hidden dim_out num_layers : nat)
    (dropout : nat -> matrix -> matrix) (W0 : matrix) : GenerativeGNN :=
  mkGenerativeGNN (gcn_stack dim_in dim_hidden dim_out num_layers) dropout
                  W0 tau A_0 (length A_0) dim_hidden.

End Layers.

(** The body [MultiGCN.forward] and [GenerativeGNN.forward] have in
    common:
<<
      edge_attr = torch.mm(edge_attr, emb_ea)
      for conv in self.convs[:-1]:
          x = conv(x, adj_t, edge_attr)
          x = F.relu(x)
          x = F.dropout(x, training=self.training)
      x = self.convs[-1](x, adj_t, edge_attr)
      return x
>> *)
Definition stack_forward (convs : list GCN) (dropout : nat -> matrix -> matrix)
    (x : matrix) (adj_t : list (nat * nat)) (edge_attr emb_ea : matrix)
    : result matrix :=
  edge_attr ← matmul edge_attr emb_ea;
  x ← for_fold (fun (k_conv : nat * GCN) x =>
                  x ← GCN_forward k_conv.2 x adj_t edge_attr;
                  let x := map (map relu) x in
                  mret (dropout k_conv.1 x))
               (imap pair (removelast convs)) x;
  conv ← (match last convs with
          | Some conv => Ok conv
          | None => Raise IndexError
          end);
  GCN_forward conv x adj_t edge_attr.

Definition MultiGCN_forward (self : MultiGCN) (x : matrix)
    (adj_t : list (nat * nat)) (edge_attr emb_ea : matrix) : result matrix :=
  stack_forward (convs self) (dropout self) x adj_t edge_attr emb_ea.

Definition GenerativeGNN_forward (self : GenerativeGNN) (x : matrix)
    (adj_t : list (nat * nat)) (edge_attr emb_ea : matrix) : result matrix :=
  stack_forward (gen_convs self) (gen_dropout self) x adj_t edge_attr emb_ea.

End Convolution.

(** ** [models.py]: [GraphConvSparse], [GAE], and the noise of
    [LatentGraphGenerator] *)

Module AutoEncoder.
Import WalkPool LinkPrediction.
Local Open Scope R_scope.

(** [GraphConvSparse]: the weight [glorot_init] draws, the adjacency and
    the activation. *)
Record GraphConvSparse : Type := mkGraphConvSparse {
  weight : matrix;
  adj : matrix;
  activation : matrix -> matrix
}.

(** [GraphConvSparse.forward]:
<<
		x = torch.mm(x,self.weight)
		x = torch.mm(self.adj, x)
		outputs = self.activation(x)
>> *)
Definition GraphConvSparse_forward (self : GraphConvSparse) (inputs : matrix)
    : result matrix :=
  x ← matmul inputs (weight self);
  x ← matmul (adj self) x;
  mret (activation self x).

(** [GAE]: the two convolutions, and the attribute [mean] that [encode]
    sets. *)
Record GAE : Type := mkGAE {
  base_gcn : GraphConvSparse;
  gcn_mean : GraphConvSparse;
  mean : option matrix
}.

(** [GAE.__init__]; [w1] and [w2] are the weights [glorot_init] draws. The
    first convolution keeps the default activation [F.relu], the second is
    given the identity. *)
Definition GAE_init (adj w1 w2 : matrix) : GAE :=
  mkGAE (mkGraphConvSparse w1 adj (map (map relu)))
        (mkGraphConvSparse w2 adj (fun x => x))
        None.

(** [GAE.encode]: the model after the call, and the outcome.
<<
		hidden = self.base_gcn(X)
		z = self.mean = self.gcn_mean(hidden)
		return z
>> *)
Definition GAE_encode (self : GAE) (X : matrix) : GAE * result matrix :=
  match (hidden ← GraphConvSparse_forward (base_gcn self) X;
         GraphConvSparse_forward (gcn_mean self) hidden) with
  | Ok z => (mkGAE (base_gcn self) (gcn_mean self) (Some z), Ok z)
  | Raise e => (self, Raise e)
  end.

(** [GAE.forward]. *)
Definition GAE_forward (self : GAE) (X : matrix) : GAE * result matrix :=
  let r := GAE_encode self X in
  (r.1, Z ← r.2; dot_product_decode Z).

End AutoEncoder.

Module Noise.
Import Tensor.

(** [t.squeeze()]: every dimension of size 1 is removed. *)
Fixpoint squeeze (t : tensor) : tensor :=
  match t with
  | Scalar v => Scalar v
  | Stack ts =>
      match ts with
      | [t'] => squeeze t'
      | _ => Stack (map squeeze ts)
      end
  end.

(** What [init_norm] and [get_norm_noise] use of a
    [LatentGraphGenerator]: the number of nodes [N], [args.batch_size],
    the buffer [Norm] of samples and the position [norm_index] in it. *)
Record LatentGraphGenerator : Type := mkLatentGraphGenerator {
  N : nat;
  batch_size : Z;
  Norm : tensor;
  norm_index : Z
}.

(** [init_norm]; [drawn] is what
    [torch.randn(size=(1000, batch_size, N)).cuda()] answers: the samples,
    or the exception of a machine without the device, which leaves the
    generator as it was. *)
Definition init_norm (self : LatentGraphGenerator) (drawn : result tensor)
    : LatentGraphGenerator * result unit :=
  match drawn with
  | Ok t => (mkLatentGraphGenerator (N self) (batch_size self) t 0, Ok tt)
  | Raise e => (self, Raise e)
  end.

(** [get_norm_noise]; [drawn] is as for [init_norm] and [fresh] is what
    [torch.randn((size, N)).cuda()] answers.
<<
        if self.norm_index >= 999:
            self.init_norm()
        if size == self.args.batch_size:
            self.norm_index += 1
            return self.Norm[self.norm_index].squeeze()
        else:
            return torch.randn((size, self.N)).cuda()
>> *)
Definition get_norm_noise (self : LatentGraphGenerator) (size : Z)
    (drawn fresh : result tensor) : LatentGraphGenerator * result tensor :=
  let r := if decide (999 <= norm_index self)%Z then init_norm self drawn
           else (self, Ok tt) in
  match r.2 with
  | Raise e => (r.1, Raise e)
  | Ok _ =>
      let self := r.1 in
      if decide (size = batch_size self)
      then
        let self := mkLatentGraphGenerator (N self) (batch_size self) (Norm self)
                      (norm_index self + 1) in
        (self, t ← Dataset.tensor_index (Norm self) (norm_index self);
               mret (squeeze t))
      else (self, fresh)
  end.

End Noise.

(** ** [models.py]: [SAGEConv] and [GraphSAGE] *)

Module Sage.
Import WalkPool LinkPrediction.
Local Open Scope R_scope.

(** [torch.nn.Linear]: the weight, with one row per output feature and one
    column per input feature, and the bias when there is one. *)
Record Linear : Type := mkLinear {
  weight : matrix;
  bias : option (list R)
}.

(** [lin(x)]: every row [v] of [x] becomes [W v + b]; the rows of [x] have
    to be as long as the rows of [W]. *)
Definition Linear_forward (lin : Linear) (x : matrix) : result matrix :=
  if decide (Forall (fun row => length row = width (weight lin)) x)
  then
    let b := match bias lin with
             | Some b => b
             | None => replicate (length (weight lin)) 0
             end in
    Ok (map (fun row =>
               map (fun wb : list R * R => sum_R (zip_with Rmult wb.1 row) + wb.2)
                   (zip (weight lin) b)) x)
  else Raise RuntimeError.

Record SAGEConv : Type := mkSAGEConv {
  in_channels : nat;
  out_channels : nat;
  normalize : bool;
  root_weight : bool;
  lin_l : Linear;
  lin_r : option Linear
}.

(** [SAGEConv.__init__]; [W_l], [b_l] and [W_r] are the parameters the two
    [Linear] layers draw. [lin_r] has no bias and exists only with
    [root_weight]. *)
Definition SAGEConv_init (in_channels out_channels : nat)
    (normalize root_weight with_bias : bool)
    (W_l : matrix) (b_l : list R) (W_r : matrix) : SAGEConv :=
  mkSAGEConv in_channels out_channels normalize root_weight
    (mkLinear W_l (if with_bias then Some b_l else None))
    (if root_weight then Some (mkLinear W_r None) else None).

(** [SAGEConv.message] and the mean aggregation of [propagate]: the
    messages [F.relu(x_j + edge_attr)] of the edges that end in a node are
    averaged; a node no edge ends in gets zeros, and a destination that
    is no row of [x] is refused by the aggregation with a ValueError. *)
Definition SAGE_propagate (edge_index : list (nat * nat)) (x edge_attr : matrix)
    : result matrix :=
  x_j ← take_indices x edge_index.*1;
  s ← broadcast Rplus x_j edge_attr;
  let msg := map (map relu) s in
  if decide (Forall (fun d => (d < length x)%nat) edge_index.*2)
  then Ok (map (fun d =>
                  let g := group msg edge_index.*2 d in
                  map (fun v => v / INR (Nat.max 1 (length g))) (vsum (width x) g))
               (seq 0 (length x)))
  else Raise ValueError.

(** [out += r]: the sum has to have the shape of [out]. *)
Definition iadd (out r : matrix) : result matrix :=
  s ← broadcast Rplus out r;
  if decide (length s = length out /\ width s = width out) then Ok s
  else Raise RuntimeError.

(** [F.normalize(v, p=2., dim=-1)] on one row. *)
Definition l2_normalize (v : list R) : list R :=
  let n := Rmax (sqrt (sum_R (map (fun a => a * a) v))) 1e-12 in
  map (fun a => a / n) v.

(** [SAGEConv.forward] for [edge_index] given as a tensor of two rows:
<<
        if isinstance(edge_index, Tensor):
            assert edge_attr is not None
            assert x[0].size(-1) == edge_attr.size(-1)
        out = self.propagate(edge_index, x=x, edge_attr=edge_attr, size=size)
        out = self.lin_l(out)
        x_r = x[1]
        if self.root_weight and x_r is not None:
            out += self.lin_r(x_r)
        if self.normalize:
            out = F.normalize(out, p=2., dim=-1)
        return out
>> *)
Definition SAGEConv_forward (self : SAGEConv) (x : matrix)
    (edge_index : list (nat * nat)) (edge_attr : option matrix) : result matrix :=
  match edge_attr with
  | None => Raise AssertionError
  | Some edge_attr =>
      if decide (width x = width edge_attr)
      then
        out ← SAGE_propagate edge_index x edge_attr;
        out ← Linear_forward (lin_l self) out;
        out ← (if root_weight self
               then match lin_r self with
                    | Some lin => r ← Linear_forward lin x; iadd out r
                    | None => Raise AttributeError
                    end
               else Ok out);
        mret (if normalize self then map l2_normalize out else out)
      else Raise AssertionError
  end.

Record GraphSAGE : Type := mkGraphSAGE {
  convs : list SAGEConv;
  dropout : nat -> matrix -> matrix
}.

Section Parameters.

(** The parameters drawn for the convolution created in position [k],
    from [in] to [out] channels: the weight and bias of [lin_l], and the
    weight of [lin_r]. *)
Variable draw : nat -> nat -> nat -> matrix * list R * matrix.

Definition conv_at (k in_channels out_channels : nat) : SAGEConv :=
  let p := draw k in_channels out_channels in
  SAGEConv_init in_channels out_channels false true true p.1.1 p.1.2 p.2.

(** [GraphSAGE.__init__]. *)
Definition GraphSAGE_init (in_channels hidden_channels out_channels : nat)
    (num_layers : nat) (dropout : nat -> matrix -> matrix) : GraphSAGE :=
  mkGraphSAGE
    (conv_at 0 in_channels hidden_channels
     :: map (fun k => conv_at (S k) hidden_channels hidden_channels)
            (seq 0 (num_layers - 2))
     ++ [conv_at (S (num_layers - 2)) hidden_channels out_channels])
    dropout.

End Parameters.

(** [GraphSAGE.forward]:
<<
        edge_attr = torch.mm(edge_attr, emb_ea)
        for conv in self.convs[:-1]:
            x = conv(x, adj_t, edge_attr)
            x = F.relu(x)
            x = F.dropout(x, p=self.dropout, training=self.training)
        x = self.convs[-1](x, adj_t, edge_attr)
        return x
>> *)
Definition GraphSAGE_forward (self : GraphSAGE) (x : matrix)
    (adj_t : list (nat * nat)) (edge_attr emb_ea : matrix) : result matrix :=
  edge_attr ← matmul edge_attr emb_ea;
  x ← for_fold (fun (k_conv : nat * SAGEConv) x =>
                  x ← SAGEConv_forward k_conv.2 x adj_t (Some edge_attr);
                  let x := map (map relu) x in
                  mret (dropout self k_conv.1 x))
               (imap pair (removelast (convs self))) x;
  conv ← (match last (convs self) with
          | Some conv => Ok conv
          | None => Raise IndexError
          end);
  SAGEConv_forward conv x adj_t (Some edge_attr).

End Sage.


(** * Properties *)

(** ** The error monad *)

Lemma raises_not_returns {A} (m : result A) : raises m -> ~ returns m.
Proof. intros [e ->] [a Ha]. discriminate. Qed.

Lemma for_each_ok {A B} (f : A -> result B) (g : A -> B) (l : list A) :
  Forall (fun a => f a = Ok (g a)) l -> for_each f l = Ok (map g l).
Proof.
  induction 1 as [|a l Ha _ IH]; [reflexivity|].
  cbn. rewrite Ha. cbn. rewrite IH. reflexivity.
Qed.

Lemma for_each_length {A B} (f : A -> result B) (l : list A) (bs : list B) :
  for_each f l = Ok bs -> length bs = length l.
Proof.
  revert bs. induction l as [|a l IH]; intros bs; cbn.
  - intros [= <-]. reflexivity.
  - destruct (f a) as [b|e]; cbn; [|discriminate].
    destruct (for_each f l) as [bs'|e]; cbn; [|discriminate].
    intros [= <-]. cbn. f_equal. apply IH. reflexivity.
Qed.

Lemma bind_ok {A B} (m : result A) (k : A -> result B) (b : B) :
  (m ≫= k) = Ok b -> exists a, m = Ok a /\ k a = Ok b.
Proof. destruct m as [a|e]; cbn; [eauto | discriminate]. Qed.

Lemma for_each_Forall2 {X Y} (f : X -> result Y) (l : list X) (bs : list Y) :
  for_each f l = Ok bs <-> Forall2 (fun a b => f a = Ok b) l bs.
Proof.
  revert bs. induction l as [|a l IH]; intros bs; cbn.
  - split; [intros [= <-]; constructor | intros H; inversion H; reflexivity].
  - split.
    + intros H. apply bind_ok in H as (b & Hb & H).
      apply bind_ok in H as (bs' & Hbs' & [= <-]).
      constructor; [exact Hb | now apply IH].
    + intros H. inversion H as [|? b ? bs' Hb Hbs']; subst.
      rewrite Hb. cbn. apply IH in Hbs'. rewrite Hbs'. reflexivity.
Qed.

Lemma take_indices_in_range {X} (a : list X) (idx : list nat) :
  (forall j, j ∈ idx -> j < length a) ->
  exists l, take_indices a idx = Ok l
    /\ length l = length idx
    /\ forall p j, idx !! p = Some j -> l !! p = a !! j.
Proof.
  unfold take_indices, getidx. induction idx as [|j idx IH]; intros H; cbn.
  - exists []. repeat split. intros p j Hp. discriminate.
  - destruct (lookup_lt_is_Some_2 a j) as [v Hv]; [apply H; left|].
    rewrite Hv. cbn.
    destruct IH as (l & -> & Hlen & Hl); [intros; apply H; now right|]. cbn.
    exists (v :: l). split; [reflexivity|]. split; [cbn; lia|].
    intros [|p] j'; cbn; [intros [= <-]; now rewrite Hv | apply Hl].
Qed.

(** ** [Data.to_numpy_array] *)

Module DataRecordSpec.
Import DataRecord.

Lemma np_index_valid n i :
  valid_index n i -> exists k, np_index n i = Ok k /\ k < n.
Proof.
  unfold valid_index, np_index. intros H.
  destruct (decide (0 <= i < Z.of_nat n)%Z) as [H0|H0].
  - exists (Z.to_nat i). split; [reflexivity | lia].
  - destruct (decide (- Z.of_nat n <= i < 0)%Z) as [H1|H1].
    + exists (Z.to_nat (i + Z.of_nat n)). split; [reflexivity | lia].
    + lia.
Qed.

Lemma np_index_invalid n i :
  ~ valid_index n i -> np_index n i = Raise IndexError.
Proof.
  unfold valid_index, np_index. intros H.
  destruct (decide (0 <= i < Z.of_nat n)%Z); [lia|].
  destruct (decide (- Z.of_nat n <= i < 0)%Z); [lia|]. reflexivity.
Qed.

(** Writing a 1 into the all-ones matrix changes nothing, wherever it
    lands. *)
Lemma set_entry_ones n m r c :
  set_entry (np_ones n m) r c 1%Q = np_ones n m.
Proof.
  unfold set_entry, np_ones.
  assert (Hrow : <[c := 1%Q]> (replicate m 1%Q) = replicate m 1%Q).
  { destruct (decide (c < m)) as [Hc|Hc].
    - apply list_insert_id. apply lookup_replicate. auto.
    - apply list_insert_ge. rewrite length_replicate. lia. }
  revert r. induction n as [|n IH]; intros [|r]; cbn; try reflexivity.
  - rewrite Hrow. reflexivity.
  - f_equal. apply IH.
Qed.

Lemma foldl_set_entry_ones n m (idx : list (nat * nat)) :
  foldl (fun a (rc : nat * nat) => set_entry a rc.1 rc.2 1%Q) (np_ones n m) idx
  = np_ones n m.
Proof.
  induction idx as [|rc idx IH]; cbn; [reflexivity|].
  rewrite set_entry_ones. exact IH.
Qed.

Lemma indices_ok n es :
  valid_edges n es ->
  returns (for_each (fun rc : Z * Z =>
             r ← np_index n rc.1; c ← np_index n rc.2; mret (r, c)) es).
Proof.
  induction 1 as [|[r c] es [Hr Hc] _ [idx IH]]; cbn in *.
  - eexists; reflexivity.
  - destruct (np_index_valid _ _ Hr) as (r' & -> & _).
    destruct (np_index_valid _ _ Hc) as (c' & -> & _). cbn.
    rewrite IH. cbn. eexists; reflexivity.
Qed.

Lemma entry_ones n m i j : i < n -> j < m -> entry (np_ones n m) i j = Some 1%Q.
Proof.
  intros Hi Hj. unfold entry, np_ones.
  rewrite lookup_replicate_2 by exact Hi. cbn.
  apply lookup_replicate_2. exact Hj.
Qed.

(** C10. For a record with N nodes whose [edge_index] addresses nodes of
    the record, [to_numpy_array] returns the N×N matrix of ones: every
    entry is 1 whatever the edges are, so the result does not encode the
    adjacency. *)
Theorem to_numpy_array_all_ones (d : Data) (es : list (Z * Z)) :
  edge_index d = Some es ->
  valid_edges (length (x d)) es ->
  exists m, to_numpy_array d = Ok m
    /\ m = np_ones (length (x d)) (length (x d))
    /\ length m = length (x d)
    /\ forall i j, i < length (x d) -> j < length (x d) -> entry m i j = Some 1%Q.
Proof.
  intros Hes Hvalid. unfold to_numpy_array. rewrite Hes.
  destruct (indices_ok _ _ Hvalid) as [idx ->]. cbn.
  rewrite foldl_set_entry_ones.
  eexists; split; [reflexivity|]. split; [reflexivity|].
  split; [apply length_replicate|]. apply entry_ones.
Qed.

Definition path3 : Data :=
  mkData [[1%Q]; [2%Q]; [3%Q]] (Some [(0, 1); (1, 2); (-1, 0)]%Z).

Lemma to_numpy_array_all_ones_witness :
  exists m, to_numpy_array path3 = Ok m
    /\ m = np_ones 3 3
    /\ length m = 3
    /\ forall i j, i < 3 -> j < 3 -> entry m i j = Some 1%Q.
Proof.
  apply (to_numpy_array_all_ones path3 [(0, 1); (1, 2); (-1, 0)]%Z).
  - reflexivity.
  - vm_compute. repeat constructor; discriminate.
Defined.

(** Outside that domain the call raises instead of returning. *)
Lemma to_numpy_array_no_edge_index d :
  edge_index d = None -> to_numpy_array d = Raise TypeError.
Proof. unfold to_numpy_array. intros ->. reflexivity. Qed.

End DataRecordSpec.

(** ** Batching: [BaseGraphUtils.init_batch_graph] *)

Module GraphSpec.
Import Tensor Graph.

Lemma forallb_false {X} (f : X -> bool) (l : list X) :
  forallb f l = false <-> exists a, a ∈ l /\ f a = false.
Proof.
  induction l as [|a l IH]; cbn.
  - split; [discriminate|]. intros (a & Ha & _). inversion Ha.
  - destruct (f a) eqn:Hfa; cbn.
    + rewrite IH. split.
      * intros (b & Hb & Hfb). exists b. split; [now right | exact Hfb].
      * intros (b & Hb & Hfb). apply elem_of_cons in Hb as [->|Hb];
          [congruence | eauto].
    + split; [|reflexivity]. intros _. exists a. split; [left | exact Hfa].
Qed.

(** The same-node-count loop finds a difference exactly when two of the
    graphs differ. *)
Lemma same_node_num_false (graphs : list BaseGraph) :
  same_node_num graphs = false <->
  exists g g', g ∈ graphs /\ g' ∈ graphs /\ node_num g <> node_num g'.
Proof.
  destruct graphs as [|g1 rest]; cbn -[forallb].
  - split; [discriminate|]. intros (g & _ & Hg & _). inversion Hg.
  - rewrite forallb_false. split.
    + intros (g & Hg & Hne). exists g1, g. repeat split; [left | exact Hg |].
      now apply bool_decide_eq_false in Hne.
    + intros (g & g' & Hg & Hg' & Hne).
      destruct (decide (node_num g1 = node_num g)) as [Heq|Hneq].
      * exists g'. split; [exact Hg'|]. apply bool_decide_eq_false. congruence.
      * exists g. split; [exact Hg|]. now apply bool_decide_eq_false.
Qed.

(** [set_node_feat] on a batch record that has no [node_num] cannot
    succeed: the batch disjunct of its assertion compares an integer with
    [None]. *)
Lemma set_node_feat_batch_no_node_num (g : BaseGraph) (t : tensor) :
  batch g = true -> node_num g = None ->
  set_node_feat g (Some t) =
    match shape_at t 0 with
    | Ok s0 => if bool_decide (Some s0 = batch_num g)
               then match shape_at t 1 with
                    | Ok _ => Raise AssertionError
                    | Raise e => Raise e
                    end
               else Raise AssertionError
    | Raise e => Raise e
    end.
Proof.
  intros Hb Hn. unfold set_node_feat, node_feat_shape_ok. rewrite Hb, Hn. cbn.
  destruct (shape_at t 0) as [s0|e]; cbn; [|reflexivity].
  destruct (bool_decide (Some s0 = batch_num g)); cbn; [|reflexivity].
  destruct (shape_at t 1) as [s1|e]; cbn; reflexivity.
Qed.

Lemma set_node_feat_batch_raises (g : BaseGraph) (t : option tensor) :
  batch g = true -> node_num g = None -> raises (set_node_feat g t).
Proof.
  intros Hb Hn. destruct t as [t|]; [|eexists; reflexivity].
  rewrite set_node_feat_batch_no_node_num by assumption.
  destruct (shape_at t 0); [|eexists; reflexivity].
  destruct (bool_decide _); [|eexists; reflexivity].
  destruct (shape_at t 1); eexists; reflexivity.
Qed.

Lemma torch_stack_shape ts t :
  torch_stack ts = Ok t -> shape_at t 0 = Ok (length ts).
Proof.
  unfold torch_stack. intros H. apply bind_ok in H as (ts' & Hts' & H).
  apply for_each_length in Hts'.
  destruct ts' as [|t0 ts0]; [discriminate|].
  destruct (forallb _ _); [|discriminate]. injection H as <-.
  unfold shape_at. cbn in *. rewrite Hts'. reflexivity.
Qed.

(** The dense stack, traced to the point where it stops. *)
Lemma dense_stack_trace (graphs : list BaseGraph) (g1 : BaseGraph) :
  dense_stack graphs g1 =
    match for_each gather graphs with
    | Raise e => Raise e
    | Ok items =>
        match torch_stack (map g_A items) with
        | Raise e => Raise e
        | Ok _ =>
            match torch_stack (map g_node_feas items) with
            | Raise e => Raise e
            | Ok nf => match shape_at nf 1 with
                       | Ok _ => Raise AssertionError
                       | Raise e => Raise e
                       end
            end
        end
    end.
Proof.
  unfold dense_stack. cbn -[for_each torch_stack set_node_feat].
  rewrite orb_true_l.
  destruct (for_each gather graphs) as [items|e] eqn:Hitems;
    cbn -[torch_stack set_node_feat]; [|reflexivity].
  destruct (torch_stack (map g_A items)) as [a|e];
    cbn -[torch_stack set_node_feat]; [|reflexivity].
  destruct (torch_stack (map g_node_feas items)) as [nf|e] eqn:Hnf;
    cbn -[set_node_feat]; [|reflexivity].
  rewrite set_node_feat_batch_no_node_num by reflexivity.
  rewrite (torch_stack_shape _ _ Hnf). cbn.
  rewrite length_map, (for_each_length _ _ _ Hitems).
  rewrite bool_decide_eq_true_2 by reflexivity.
  destruct (shape_at nf 1); reflexivity.
Qed.

Lemma dense_stack_raises (graphs : list BaseGraph) (g1 : BaseGraph) :
  raises (dense_stack graphs g1).
Proof.
  rewrite dense_stack_trace.
  destruct (for_each gather graphs); [|eexists; reflexivity].
  destruct (torch_stack _); [|eexists; reflexivity].
  destruct (torch_stack _); [|eexists; reflexivity].
  destruct (shape_at _ 1); eexists; reflexivity.
Qed.

(** *** Concrete graphs *)

(** A graph built the way the repository builds plain graphs:
    [from_numpy], then [set_node_feat], then (optionally) [set_edge_feat]. *)
Definition plain_graph (adj nfeat : list (list Q)) (efeat : option (list (list Q)))
    : result BaseGraph :=
  g ← from_numpy (of_rows adj);
  g ← set_node_feat g (Some (of_rows nfeat));
  match efeat with
  | Some e => set_edge_feat g (Some (of_rows e))
  | None => mret g
  end.

(** Two graphs of two nodes each, one feature per node, edge features set. *)
Definition two_equal_graphs : result (list BaseGraph) :=
  ga ← plain_graph [[0; 1]; [1; 0]]%Q [[1]; [2]]%Q (Some [[1]; [1]]%Q);
  gb ← plain_graph [[0; 0]; [0; 0]]%Q [[3]; [4]]%Q (Some [[1]; [1]]%Q);
  mret [ga; gb].

(** One graph of one node with node features and no edge features. *)
Definition one_graph_no_efeat : result (list BaseGraph) :=
  g ← plain_graph [[0]]%Q [[1]]%Q None;
  mret [g].

(** A one-node and a two-node graph. *)
Definition two_unequal_graphs : result (list BaseGraph) :=
  ga ← plain_graph [[0]]%Q [[1]]%Q (Some [[1]]%Q);
  gb ← plain_graph [[0; 1]; [1; 0]]%Q [[1]; [2]]%Q (Some [[1]; [1]]%Q);
  mret [ga; gb].

(** The same two, marked as ['pyg'] graphs by [_set_graph_type]. *)
Definition mark_pyg (g : BaseGraph) : BaseGraph := _set_graph_type g (Some "pyg").

Definition pyg1 : BaseGraph :=
  mark_pyg (_set_node_num (BaseGraph_init "pyg" "both" false None
    (Some (mkPyg 1 [] None None None))) 1).
Definition pyg2 : BaseGraph :=
  mark_pyg (_set_node_num (BaseGraph_init "pyg" "both" false None
    (Some (mkPyg 2 [(0, 1); (1, 0)] None None None))) 2).

(** *** C2 *)

(** C2 (the code departs from the claim). Two graphs of the same node
    count and feature width, every field set: the dense stack does not
    return a batched record, it stops with an AssertionError in
    [set_node_feat], because the fresh batch record has no [node_num]. *)
Theorem dense_stack_equal_graphs_fails fdl :
  (gs ← two_equal_graphs; mret (select_path gs, init_batch_graph fdl gs))
  = Ok (DenseStack, Raise AssertionError).
Proof. vm_compute. reflexivity. Qed.

(** *** C3 *)

(** C3 as stated fails: a graph without edge features takes the dense
    branch and stops with a KeyError in the gathering loop, before
    [set_node_feat] is reached. *)
Lemma dense_stack_key_error :
  (gs ← one_graph_no_efeat;
   mret (select_path gs, init_batch_graph disjoint_union gs))
  = Ok (DenseStack, Raise KeyError).
Proof. vm_compute. reflexivity. Qed.

(** C3 (amended). A non-empty sequence that takes the dense branch never
    gets a batched record back: the call raises. The exception is the
    AssertionError of [set_node_feat] whenever the gathering loop and the
    two stacks before it succeed and the stacked node features have a
    second dimension. *)
Theorem dense_path_never_returns fdl (graphs : list BaseGraph) :
  graphs <> [] ->
  select_path graphs = DenseStack ->
  raises (init_batch_graph fdl graphs)
  /\ (forall items a nf n,
        for_each gather graphs = Ok items ->
        torch_stack (map g_A items) = Ok a ->
        torch_stack (map g_node_feas items) = Ok nf ->
        shape_at nf 1 = Ok n ->
        init_batch_graph fdl graphs = Raise AssertionError).
Proof.
  intros Hne Hpath. destruct graphs as [|g1 rest]; [congruence|].
  unfold init_batch_graph. rewrite Hpath. split.
  - apply dense_stack_raises.
  - intros items a nf n Hitems Ha Hnf Hn.
    rewrite dense_stack_trace, Hitems, Ha, Hnf, Hn. reflexivity.
Qed.

(** The two graphs of [two_equal_graphs], as values. *)
Definition unwrap (r : result BaseGraph) : BaseGraph :=
  match r with
  | Ok g => g
  | Raise _ => BaseGraph_init "default" "dense" false None None
  end.

Definition ga : BaseGraph :=
  unwrap (plain_graph [[0; 1]; [1; 0]]%Q [[1]; [2]]%Q (Some [[1]; [1]]%Q)).
Definition gb : BaseGraph :=
  unwrap (plain_graph [[0; 0]; [0; 0]]%Q [[3]; [4]]%Q (Some [[1]; [1]]%Q)).

Lemma dense_path_never_returns_witness :
  raises (init_batch_graph disjoint_union [ga; gb])
  /\ (forall items a nf n,
        for_each gather [ga; gb] = Ok items ->
        torch_stack (map g_A items) = Ok a ->
        torch_stack (map g_node_feas items) = Ok nf ->
        shape_at nf 1 = Ok n ->
        init_batch_graph disjoint_union [ga; gb] = Raise AssertionError).
Proof.
  apply (dense_path_never_returns disjoint_union [ga; gb]).
  - discriminate.
  - vm_compute. reflexivity.
Defined.

(** *** C4 *)

(** C4 as stated fails: plain graphs of different node counts are sent to
    the dense stack. *)
Lemma unequal_plain_graphs_dense :
  (gs ← two_unequal_graphs;
   mret (map node_num gs, same_node_num gs, select_path gs))
  = Ok ([Some 1; Some 2], false, DenseStack).
Proof. vm_compute. reflexivity. Qed.

(** C4 (amended). When two of the graphs differ in node count, the branch
    is decided by the first graph's [graph_type]: ['pyg'] selects the
    sparse union, which hands the members' [pyg_graph]s to
    [Batch.from_data_list] and the result to [from_pyg_graph]; any other
    [graph_type] selects the dense stack. *)
Theorem unequal_node_counts_path fdl (g1 : BaseGraph) (rest : list BaseGraph) :
  (exists g g', g ∈ g1 :: rest /\ g' ∈ g1 :: rest /\ node_num g <> node_num g') ->
  (graph_type g1 = Some "pyg" ->
     select_path (g1 :: rest) = SparseUnion
     /\ init_batch_graph fdl (g1 :: rest)
        = (b ← fdl (map pyg_graph (g1 :: rest)); from_pyg_graph b))
  /\ (graph_type g1 <> Some "pyg" ->
     select_path (g1 :: rest) = DenseStack
     /\ init_batch_graph fdl (g1 :: rest) = dense_stack (g1 :: rest) g1).
Proof.
  intros Hdiff. apply same_node_num_false in Hdiff.
  unfold init_batch_graph, select_path. rewrite Hdiff. split.
  - intros Hpyg. rewrite bool_decide_eq_true_2 by exact Hpyg. cbn.
    split; reflexivity.
  - intros Hpyg. rewrite bool_decide_eq_false_2 by exact Hpyg. cbn.
    split; reflexivity.
Qed.

Lemma unequal_node_counts_path_witness :
  (graph_type pyg1 = Some "pyg" ->
     select_path [pyg1; pyg2] = SparseUnion
     /\ init_batch_graph disjoint_union [pyg1; pyg2]
        = (b ← disjoint_union (map pyg_graph [pyg1; pyg2]); from_pyg_graph b))
  /\ (graph_type pyg1 <> Some "pyg" ->
     select_path [pyg1; pyg2] = DenseStack
     /\ init_batch_graph disjoint_union [pyg1; pyg2]
        = dense_stack [pyg1; pyg2] pyg1).
Proof.
  apply (unequal_node_counts_path disjoint_union pyg1 [pyg2]).
  exists pyg1, pyg2. split; [left|]. split; [right; left|]. discriminate.
Defined.

(** The sparse branch itself does not get through [from_pyg_graph], which
    calls the integer [num_nodes]. *)
Lemma from_pyg_graph_raises (graph : pyg_Data) : raises (from_pyg_graph graph).
Proof.
  unfold from_pyg_graph.
  destruct (sparse_coo_tensor _ _); eexists; reflexivity.
Qed.

(** Graphs of equal node count take the dense branch whatever their
    [graph_type]. *)
Lemma equal_node_counts_dense (graphs : list BaseGraph) :
  same_node_num graphs = true -> select_path graphs = DenseStack.
Proof.
  intros H. unfold select_path. destruct graphs; [reflexivity|].
  rewrite H, andb_false_r. reflexivity.
Qed.

End GraphSpec.

(** ** Spectral encoding: [BaseGraphUtils.lap_positional_encoding] *)

Module SpectralSpec.
Import Tensor Graph.

Lemma complex_le_total a b : complex_le a b \/ complex_le b a.
Proof.
  unfold complex_le, complex_leb.
  rewrite <- (Qcompare_antisym (re a) (re b)).
  destruct (Qcompare_spec (re a) (re b)) as [He|Hl|Hg]; cbn; auto.
  destruct (Qle_bool (im a) (im b)) eqn:Hab; [auto|]. right.
  apply Qle_bool_iff. apply Qlt_le_weak, Qnot_le_lt.
  intros Hle. apply Qle_bool_iff in Hle. congruence.
Qed.

Lemma complex_le_trans a b c : complex_le a b -> complex_le b c -> complex_le a c.
Proof.
  unfold complex_le, complex_leb.
  destruct (Qcompare_spec (re a) (re b)) as [Hab|Hab|Hab]; [| |discriminate];
  destruct (Qcompare_spec (re b) (re c)) as [Hbc|Hbc|Hbc]; try discriminate;
  destruct (Qcompare_spec (re a) (re c)) as [Hac|Hac|Hac];
  rewrite ?Qle_bool_iff; intros H1 H2; try reflexivity; lra.
Qed.

Lemma insert_key_permutation p l : insert_key p l ≡ₚ p :: l.
Proof.
  induction l as [|q l IH]; cbn; [reflexivity|].
  destruct (complex_leb p.2 q.2); [reflexivity|].
  rewrite IH. apply Permutation_swap.
Qed.

Lemma insert_key_sorted p l :
  StronglySorted key_le l -> StronglySorted key_le (insert_key p l).
Proof.
  induction 1 as [|q l Hl IH Hq]; cbn; [repeat constructor|].
  destruct (complex_leb p.2 q.2) eqn:E.
  - constructor; [now constructor|]. constructor; [exact E|].
    eapply Forall_impl; [exact Hq|]. intros r Hr.
    eapply complex_le_trans; [exact E | exact Hr].
  - constructor; [exact IH|].
    apply Forall_forall. intros r Hr.
    rewrite insert_key_permutation in Hr. apply elem_of_cons in Hr as [->|Hr].
    + destruct (complex_le_total p.2 q.2) as [H|H]; [|exact H].
      unfold complex_le in H. congruence.
    + rewrite Forall_forall in Hq. now apply Hq.
Qed.

Lemma insertion_permutation (l : list (nat * complex)) :
  foldr insert_key [] l ≡ₚ l.
Proof.
  induction l as [|p l IH]; cbn; [reflexivity|].
  now rewrite insert_key_permutation, IH.
Qed.

Lemma insertion_sorted (l : list (nat * complex)) :
  StronglySorted key_le (foldr insert_key [] l).
Proof.
  induction l as [|p l IH]; cbn; [constructor | now apply insert_key_sorted].
Qed.

(** Equal values keep their order: of three equal eigenvalues the first
    comes first. *)
Example argsort_ties : argsort [mkC 1 0; mkC 1 0; mkC 1 0] = [0; 1; 2].
Proof. reflexivity. Qed.

Definition sorted_pairs (w : list complex) : list (nat * complex) :=
  foldr insert_key [] (imap pair w).

(** The eigenvalues in the order [argsort] puts them. *)
Definition sorted_eigvals (w : list complex) : list complex := (sorted_pairs w).*2.

Lemma imap_pair_fst {X} (w : list X) : (imap pair w).*1 = seq 0 (length w).
Proof.
  apply list_eq. intros i.
  rewrite list_lookup_fmap, list_lookup_imap.
  destruct (w !! i) as [x|] eqn:Hx; cbn.
  - symmetry. apply lookup_seq. split; [reflexivity|].
    now apply lookup_lt_Some in Hx.
  - symmetry. apply lookup_seq_ge. now apply lookup_ge_None in Hx.
Qed.

Lemma argsort_permutation (w : list complex) : argsort w ≡ₚ seq 0 (length w).
Proof.
  unfold argsort. rewrite insertion_permutation. now rewrite imap_pair_fst.
Qed.

Lemma argsort_length (w : list complex) : length (argsort w) = length w.
Proof. now rewrite argsort_permutation, length_seq. Qed.

Lemma argsort_in_range (w : list complex) j : j ∈ argsort w -> j < length w.
Proof.
  rewrite argsort_permutation, elem_of_seq. lia.
Qed.

Lemma sorted_pairs_lookup (w : list complex) j v :
  (j, v) ∈ sorted_pairs w -> w !! j = Some v.
Proof.
  unfold sorted_pairs. rewrite insertion_permutation.
  intros H. apply elem_of_lookup_imap_1 in H as (i & y & [= -> ->] & Hy).
  exact Hy.
Qed.

Lemma take_indices_pairs {X} (a : list X) (s : list (nat * X)) :
  (forall j v, (j, v) ∈ s -> a !! j = Some v) ->
  take_indices a s.*1 = Ok s.*2.
Proof.
  unfold take_indices, getidx. induction s as [|[j v] s IH]; intros H; cbn; [reflexivity|].
  rewrite (H j v) by left. cbn.
  rewrite IH; [reflexivity|]. intros j' v' Hin. apply H. now right.
Qed.

(** [EigVal[idx]] is the list of eigenvalues in non-decreasing order. *)
Lemma eigvals_sorted (w : list complex) :
  take_indices w (argsort w) = Ok (sorted_eigvals w)
  /\ StronglySorted complex_le (sorted_eigvals w)
  /\ length (sorted_eigvals w) = length w.
Proof.
  split; [|split].
  - apply take_indices_pairs, sorted_pairs_lookup.
  - unfold sorted_eigvals, sorted_pairs.
    apply (StronglySorted_fmap snd key_le complex_le); [auto|].
    apply insertion_sorted.
  - unfold sorted_eigvals, sorted_pairs.
    now rewrite length_fmap, insertion_permutation, length_imap.
Qed.

Lemma take_indices_window {X} (a : list X) (idx : list nat) (l : list X) k d :
  take_indices a idx = Ok l ->
  take_indices a (take k (drop d idx)) = Ok (take k (drop d l)).
Proof.
  unfold take_indices. rewrite !for_each_Forall2. intros H.
  apply Forall2_take, Forall2_drop, H.
Qed.

(** The columns the encoder keeps: positions 1..k of the argsort. *)
Definition kept (w : list complex) (k : nat) : list nat :=
  take k (drop 1 (argsort w)).

Lemma kept_length w k : length (kept w k) = k `min` (length w - 1).
Proof. unfold kept. now rewrite length_take, length_drop, argsort_length. Qed.

Lemma kept_eigvals w k :
  take_indices w (kept w k) = Ok (take k (drop 1 (sorted_eigvals w)))
  /\ StronglySorted complex_le (take k (drop 1 (sorted_eigvals w))).
Proof.
  destruct (eigvals_sorted w) as (Hidx & Hsorted & _). split.
  - now apply take_indices_window.
  - rewrite <- (take_drop 1 (sorted_eigvals w)) in Hsorted.
    apply StronglySorted_app_1_r in Hsorted.
    rewrite <- (take_drop k (drop 1 _)) in Hsorted.
    now apply StronglySorted_app_1_l in Hsorted.
Qed.

Lemma shape_of_rows (rows : list (list Q)) n m :
  0 < n -> length rows = n -> Forall (fun row => length row = m) rows ->
  shape (of_rows rows) = [n; m].
Proof.
  intros Hn Hlen Hrows. destruct rows as [|row rows]; cbn in *; [lia|].
  apply Forall_cons in Hrows as [Hrow _].
  rewrite !length_map, Hrow. f_equal; [lia|].
  destruct row; cbn in *; subst; reflexivity.
Qed.

Lemma pos_enc_stored (g : BaseGraph) (P : tensor) :
  ndata (set_ndata (set_ndata g "pos_enc" (Some P)) "eigvec" (Some P)) !! "pos_enc"
  = Some (Some P).
Proof.
  cbn. rewrite lookup_insert_ne by discriminate. apply lookup_insert_eq.
Qed.

Section Encoder.

Variable lap : tensor -> result (list (list Q)).
Variable eig : list (list Q) -> result (list complex * list (list complex)).

(** When the Laplacian and the decomposition are delivered, the encoder
    returns, whatever [k] is: row [r] of the stored matrix is the real
    part of row [r] of the eigenvector matrix at the kept columns. *)
Lemma encoder_returns g k a L w v :
  A g = Some a -> lap a = Ok L -> eig L = Ok (w, v) ->
  Forall (fun row => length row = length w) v ->
  exists rows,
    lap_positional_encoding lap eig g k
    = Ok (set_ndata (set_ndata g "pos_enc" (Some (of_rows rows)))
                    "eigvec" (Some (of_rows rows)))
    /\ length rows = length v
    /\ Forall (fun row => length row = length (kept w k)) rows
    /\ forall r row, v !! r = Some row ->
         exists picks, take_indices row (kept w k) = Ok picks
                       /\ rows !! r = Some (map re picks).
Proof.
  intros HA HL Heig Hv.
  assert (Hvecs : exists vecs,
             Forall2 (fun row vec => take_indices row (argsort w) = Ok vec) v vecs).
  { clear Heig. induction Hv as [|row v Hrow _ [vecs IH]].
    - exists []. constructor.
    - destruct (take_indices_in_range row (argsort w)) as (vec & Hvec & _).
      { intros j Hj. rewrite Hrow. now apply argsort_in_range. }
      exists (vec :: vecs). now constructor. }
  destruct Hvecs as [vecs Hvecs].
  exists (map (fun row => take k (drop 1 row)) (map (map re) vecs)).
  split; [|split; [|split]].
  - unfold lap_positional_encoding. rewrite HA. cbn -[take_indices argsort].
    rewrite HL. cbn -[take_indices argsort].
    rewrite Heig. cbn -[take_indices argsort].
    rewrite (proj1 (eigvals_sorted w)). cbn -[take_indices argsort].
    rewrite (proj2 (for_each_Forall2 _ _ _) Hvecs). reflexivity.
  - rewrite !length_map. symmetry. eapply Forall2_length, Hvecs.
  - clear Heig Hv. induction Hvecs as [|row vec v vecs Hrow _ IH]; cbn;
      constructor; [|exact IH].
    apply (take_indices_window _ _ _ k 1) in Hrow.
    apply for_each_length in Hrow. fold (kept w k) in Hrow.
    rewrite <- Hrow, length_take, !length_drop, length_take, length_drop.
    now rewrite length_map.
  - intros r row Hr.
    destruct (Forall2_lookup_l _ _ _ _ _ Hvecs Hr) as (vec & Hvec & Hrow).
    exists (take k (drop 1 vec)). split.
    + now apply take_indices_window.
    + rewrite !list_lookup_fmap, Hvec. cbn.
      now rewrite <- fmap_drop, <- fmap_take.
Qed.

(** C7. With [1 <= k < N] and the N eigenpairs of the Laplacian
    delivered, the encoder puts the eigenpairs in an order [idx] of
    non-decreasing eigenvalue, drops rank 0 and stores, as an N×k matrix
    under ['pos_enc'], the eigenvectors of ranks 1..k: row [r] of the
    stored matrix is the real part of row [r] of the eigenvector matrix at
    the columns [idx[1..k]]. The eigenvalues of that window are
    non-decreasing. Which of several equal eigenvalues comes first is the
    sort's choice; the statement holds for whichever it makes. *)
Theorem lap_positional_encoding_ranks g k a L w v N :
  A g = Some a -> lap a = Ok L -> eig L = Ok (w, v) ->
  length w = N -> length v = N -> Forall (fun row => length row = N) v ->
  1 <= k < N ->
  exists g' P idx vals,
    lap_positional_encoding lap eig g k = Ok g'
    /\ ndata g' !! "pos_enc" = Some (Some P)
    /\ shape P = [N; k]
    /\ idx ≡ₚ seq 0 N
    /\ take_indices w idx = Ok vals
    /\ StronglySorted complex_le vals
    /\ take_indices w (take k (drop 1 idx)) = Ok (take k (drop 1 vals))
    /\ StronglySorted complex_le (take k (drop 1 vals))
    /\ forall r row, v !! r = Some row ->
         exists picks, take_indices row (take k (drop 1 idx)) = Ok picks
                       /\ slice P r = Some (Stack (map Scalar (map re picks))).
Proof.
  intros HA HL Heig Hw Hvlen Hv Hk. subst N.
  destruct (encoder_returns g k a L w v HA HL Heig Hv)
    as (rows & Hrun & Hrows & Hcols & Hentries).
  eexists _, (of_rows rows), (argsort w), (sorted_eigvals w).
  split; [exact Hrun|].
  split; [apply pos_enc_stored|]. split.
  { apply shape_of_rows; [lia | congruence |].
    eapply Forall_impl; [exact Hcols|]. cbn. intros row ->.
    rewrite kept_length. lia. }
  split; [apply argsort_permutation|].
  destruct (eigvals_sorted w) as (H1 & H2 & _).
  destruct (kept_eigvals w k) as (H3 & H4).
  split; [exact H1|]. split; [exact H2|].
  split; [exact H3|]. split; [exact H4|].
  intros r row Hr. destruct (Hentries r row Hr) as (picks & Hp & Hrow).
  exists picks. split; [exact Hp|].
  cbn. rewrite list_lookup_fmap, Hrow. reflexivity.
Qed.

(** C8 (amended). The encoder has no check on [k]. What the Laplacian
    computation raises it raises, and what the decomposition raises; and
    when the N eigenpairs are delivered and [k >= N], it returns the
    record with the N-1 eigenvectors of ranks 1..N-1: an N×(N-1) matrix
    (N×0 for a single node) whose row [r] is the real part of row [r] of
    the eigenvector matrix at the columns [idx[1..N-1]], for the order
    [idx] of non-decreasing eigenvalue the sort has chosen. *)
Theorem lap_positional_encoding_large_k g k a :
  A g = Some a ->
  (forall e, lap a = Raise e -> lap_positional_encoding lap eig g k = Raise e)
  /\ (forall L, lap a = Ok L ->
        (forall e, eig L = Raise e ->
                   lap_positional_encoding lap eig g k = Raise e)
        /\ (forall w v N,
              eig L = Ok (w, v) ->
              length w = N -> length v = N ->
              Forall (fun row => length row = N) v ->
              1 <= N <= k ->
              exists g' P idx vals,
                lap_positional_encoding lap eig g k = Ok g'
                /\ ndata g' !! "pos_enc" = Some (Some P)
                /\ shape P = [N; N - 1]
                /\ idx ≡ₚ seq 0 N
                /\ take_indices w idx = Ok vals
                /\ StronglySorted complex_le vals
                /\ forall r row, v !! r = Some row ->
                     exists picks,
                       take_indices row (drop 1 idx) = Ok picks
                       /\ slice P r
                          = Some (Stack (map Scalar (map re picks))))).
Proof.
  intros HA. split.
  { intros e He. unfold lap_positional_encoding.
    rewrite HA. cbn. rewrite He. reflexivity. }
  intros L HL. split.
  - intros e He. unfold lap_positional_encoding.
    rewrite HA. cbn. rewrite HL. cbn. rewrite He. reflexivity.
  - intros w v N Heig Hw Hvlen Hv Hk. subst N.
    destruct (encoder_returns g k a L w v HA HL Heig Hv)
      as (rows & Hrun & Hrows & Hcols & Hentries).
    assert (Hkept : kept w k = drop 1 (argsort w)).
    { unfold kept. apply take_ge. rewrite length_drop, argsort_length. lia. }
    eexists _, (of_rows rows), (argsort w), (sorted_eigvals w).
    split; [exact Hrun|].
    split; [apply pos_enc_stored|]. split.
    { apply shape_of_rows; [lia | congruence |].
      eapply Forall_impl; [exact Hcols|]. cbn. intros row ->.
      rewrite kept_length. lia. }
    split; [apply argsort_permutation|].
    destruct (eigvals_sorted w) as (H1 & H2 & _).
    split; [exact H1|]. split; [exact H2|].
    intros r row Hr. destruct (Hentries r row Hr) as (picks & Hp & Hrow).
    exists picks. rewrite <- Hkept. split; [exact Hp|].
    cbn. rewrite list_lookup_fmap, Hrow. reflexivity.
Qed.

End Encoder.

(** *** A concrete run: the graph of one edge *)

(** Two nodes joined by an edge, as [from_numpy] builds it. *)
Definition K2_adjacency : tensor := of_rows [[0; 1]; [1; 0]]%Q.

Definition K2 : BaseGraph :=
  _set_A (_set_node_num (BaseGraph_init "default" "dense" false None None) 2)
         (Some K2_adjacency).

Lemma K2_from_numpy : from_numpy K2_adjacency = Ok K2.
Proof. reflexivity. Qed.

(** Its normalised Laplacian (both degrees are 1) and the decomposition of
    that matrix as numpy prints it: eigenvalues 2 and 0, unit
    eigenvectors in the columns. *)
Definition K2_laplacian (a : tensor) : result (list (list Q)) :=
  Ok [[1; -1]; [-1; 1]]%Q.

Definition r2 : Q := 7071067811865475 # 10000000000000000.

Definition K2_eig (L : list (list Q))
    : result (list complex * list (list complex)) :=
  Ok ([mkC 2 0; mkC 0 0],
      [[mkC r2 0; mkC r2 0]; [mkC (- r2) 0; mkC r2 0]]).

Lemma lap_positional_encoding_ranks_witness :
  exists g' P idx vals,
    lap_positional_encoding K2_laplacian K2_eig K2 1 = Ok g'
    /\ ndata g' !! "pos_enc" = Some (Some P)
    /\ shape P = [2; 1]
    /\ idx ≡ₚ seq 0 2
    /\ take_indices [mkC 2 0; mkC 0 0] idx = Ok vals
    /\ StronglySorted complex_le vals
    /\ take_indices [mkC 2 0; mkC 0 0] (take 1 (drop 1 idx))
       = Ok (take 1 (drop 1 vals))
    /\ StronglySorted complex_le (take 1 (drop 1 vals))
    /\ forall r row,
         [[mkC r2 0; mkC r2 0]; [mkC (- r2) 0; mkC r2 0]] !! r = Some row ->
         exists picks, take_indices row (take 1 (drop 1 idx)) = Ok picks
           /\ slice P r = Some (Stack (map Scalar (map re picks))).
Proof.
  apply (lap_positional_encoding_ranks K2_laplacian K2_eig K2 1 K2_adjacency
           [[1; -1]; [-1; 1]]%Q [mkC 2 0; mkC 0 0]
           [[mkC r2 0; mkC r2 0]; [mkC (- r2) 0; mkC r2 0]] 2).
  - reflexivity.
  - reflexivity.
  - reflexivity.
  - reflexivity.
  - reflexivity.
  - repeat constructor.
  - lia.
Defined.

(** On that run the stored column is the eigenvector of the eigenvalue 2,
    the one of rank 1. *)
Example K2_pos_enc :
  (g' ← lap_positional_encoding K2_laplacian K2_eig K2 1;
   mret (ndata g' !! "pos_enc"))
  = Ok (Some (Some (of_rows [[r2]; [- r2]]%Q))).
Proof. vm_compute. reflexivity. Qed.

(** C8 as stated fails: with [k = 2] on the two-node graph ([k] equal to
    the node count) the encoder returns a record, with a 2×1 encoding. *)
Lemma large_k_returns :
  node_num K2 = Some 2
  /\ (g' ← lap_positional_encoding K2_laplacian K2_eig K2 2;
      mret (ndata g' !! "pos_enc"))
     = Ok (Some (Some (of_rows [[r2]; [- r2]]%Q))).
Proof. split; [reflexivity|]. vm_compute. reflexivity. Qed.

Lemma lap_positional_encoding_large_k_witness :
  (forall e, K2_laplacian K2_adjacency = Raise e ->
             lap_positional_encoding K2_laplacian K2_eig K2 2 = Raise e)
  /\ (forall L, K2_laplacian K2_adjacency = Ok L ->
        (forall e, K2_eig L = Raise e ->
                   lap_positional_encoding K2_laplacian K2_eig K2 2 = Raise e)
        /\ (forall w v N,
              K2_eig L = Ok (w, v) ->
              length w = N -> length v = N ->
              Forall (fun row => length row = N) v ->
              1 <= N <= 2 ->
              exists g' P idx vals,
                lap_positional_encoding K2_laplacian K2_eig K2 2 = Ok g'
                /\ ndata g' !! "pos_enc" = Some (Some P)
                /\ shape P = [N; N - 1]
                /\ idx ≡ₚ seq 0 N
                /\ take_indices w idx = Ok vals
                /\ StronglySorted complex_le vals
                /\ forall r row, v !! r = Some row ->
                     exists picks,
                       take_indices row (drop 1 idx) = Ok picks
                       /\ slice P r
                          = Some (Stack (map Scalar (map re picks))))).
Proof.
  apply (lap_positional_encoding_large_k K2_laplacian K2_eig K2 2 K2_adjacency).
  reflexivity.
Defined.

(** A single node: whenever its 1×1 Laplacian is decomposed, [k = 1]
    yields a record with a 1×0 encoding, not an error. *)
Definition K1 : BaseGraph :=
  _set_A (_set_node_num (BaseGraph_init "default" "dense" false None None) 1)
         (Some (of_rows [[0%Q]])).

Example single_node_returns lap l :
  lap (of_rows [[0%Q]]) = Ok [[l]] ->
  (g' ← lap_positional_encoding lap (fun _ => Ok ([mkC l 0], [[mkC 1 0]])) K1 1;
   mret (ndata g' !! "pos_enc"))
  = Ok (Some (Some (Stack [Stack []]))).
Proof.
  intros Hl. unfold lap_positional_encoding. cbn -[argsort take_indices].
  rewrite Hl. vm_compute. reflexivity.
Qed.

End SpectralSpec.

(** ** Walk pooling: [WalkPooling.weight_encoder] and [forward] *)

Module WalkPoolSpec.
Import WalkPool.
Local Open Scope R_scope.

(** *** Sums and maxima *)

Lemma sum_R_app l1 l2 : sum_R (l1 ++ l2) = sum_R l1 + sum_R l2.
Proof. induction l1 as [|a l1 IH]; cbn; [lra | rewrite IH; lra]. Qed.

Lemma sum_R_nonneg l : Forall (fun v => 0 <= v) l -> 0 <= sum_R l.
Proof. induction 1 as [|a l Ha _ IH]; cbn; lra. Qed.

Lemma sum_R_ge_elem l v : Forall (fun u => 0 <= u) l -> v ∈ l -> v <= sum_R l.
Proof.
  induction 1 as [|a l Ha Hl IH]; intros Hv; [inversion Hv|].
  apply elem_of_cons in Hv as [->|Hv]; cbn.
  - pose proof (sum_R_nonneg l Hl). lra.
  - specialize (IH Hv). lra.
Qed.

Lemma sum_R_scale c l : sum_R (map (fun a => a / c) l) = sum_R l / c.
Proof.
  induction l as [|a l IH]; cbn; [unfold Rdiv; ring|].
  rewrite IH. unfold Rdiv. ring.
Qed.

Lemma foldl_Rmax_ge v l : v <= foldl Rmax v l.
Proof.
  revert v. induction l as [|a l IH]; intros v; cbn; [lra|].
  etransitivity; [apply (Rmax_l v a) | apply IH].
Qed.

Lemma foldl_Rmax_upper v l u : u ∈ l -> u <= foldl Rmax v l.
Proof.
  revert v. induction l as [|a l IH]; intros v Hu; [inversion Hu|].
  apply elem_of_cons in Hu as [->|Hu]; cbn.
  - etransitivity; [apply (Rmax_r v a) | apply foldl_Rmax_ge].
  - now apply IH.
Qed.

Lemma foldl_Rmax_bound v l w :
  v <= w -> (forall u, u ∈ l -> u <= w) -> foldl Rmax v l <= w.
Proof.
  revert v. induction l as [|a l IH]; intros v Hv Hl; cbn; [exact Hv|].
  apply IH.
  - apply Rmax_lub; [exact Hv | apply Hl; left].
  - intros u Hu. apply Hl. now right.
Qed.

(** [list_max] is an upper bound of the list, and the bound any upper bound
    of a non-empty list stays above. *)
Lemma list_max_upper l u : u ∈ l -> u <= list_max l.
Proof.
  destruct l as [|v l]; intros Hu; [inversion Hu|].
  apply elem_of_cons in Hu as [->|Hu]; cbn.
  - apply foldl_Rmax_ge.
  - now apply foldl_Rmax_upper.
Qed.

Lemma list_max_attained l w :
  w ∈ l -> (forall u, u ∈ l -> u <= w) -> list_max l = w.
Proof.
  intros Hw Hl. apply Rle_antisym; [|now apply list_max_upper].
  destruct l as [|v l]; [inversion Hw|]. cbn.
  apply foldl_Rmax_bound; [apply Hl; left|].
  intros u Hu. apply Hl. now right.
Qed.

(** *** The minus-graph weights *)

(** The entries of [vals] at the non-candidate edges that end in [d]. *)
Definition noncandidates_into (vals : list R) (col : list nat) (mask : list bool)
    (d : nat) : list R :=
  (filter (fun p : R * (nat * bool) => p.2.1 = d /\ p.2.2 = true)
          (zip vals (zip col mask))).*1.

(** The largest raw score among the edges that end in [d]. *)
Definition gmax (ws : list R) (col : list nat) (d : nat) : R :=
  list_max (group ws col d).

(** [exp] of the raw scores, each lowered by the largest score of its
    destination. *)
Definition shifted (ws : list R) (col : list nat) : list R :=
  map exp (zip_with Rminus ws (map (gmax ws col) col)).

Definition masked (W : list R) (mask : list bool) : list R :=
  zip_with (fun w (b : bool) => w * (if b then 1 else 0)) W mask.

Lemma take_indices_tabulate {X} (f : nat -> X) (n : nat) (idx : list nat) :
  Forall (fun j => (j < n)%nat) idx ->
  take_indices (map f (seq 0 n)) idx = Ok (map f idx).
Proof.
  intros H. unfold take_indices. apply for_each_ok.
  eapply Forall_impl; [exact H|]. cbn. intros j Hj. unfold getidx.
  rewrite list_lookup_fmap, lookup_seq_lt by exact Hj. reflexivity.
Qed.

(** The code's five lines in closed form. *)
Lemma minus_column_eq ws col mask n :
  Forall (fun c => (c < n)%nat) col ->
  minus_column ws col mask n
  = Ok (zip_with (fun a c => a / (sum_R (group (masked (shifted ws col) mask) col c) + 1e-16))
                 (masked (shifted ws col) mask) col).
Proof.
  intros Hcol. unfold minus_column, scatter_max, scatter_add.
  rewrite (take_indices_tabulate _ _ _ Hcol). cbn -[take_indices].
  rewrite (take_indices_tabulate _ _ _ Hcol). cbn.
  f_equal. unfold masked, shifted, gmax.
  rewrite <- list_fmap_compose. now rewrite zip_with_fmap_r.
Qed.

Lemma noncandidates_zip_with (g : R -> nat -> R) A col mask d :
  noncandidates_into (zip_with g A col) col mask d
  = map (fun a => g a d) (noncandidates_into A col mask d).
Proof.
  unfold noncandidates_into.
  revert col mask. induction A as [|a A IH]; intros [|c col] [|b mask];
    try reflexivity.
  cbn [zip_with zip]. rewrite !filter_cons. cbn [fst snd].
  destruct (decide (c = d /\ b = true)) as [[-> _]|_]; cbn; [f_equal|]; apply IH.
Qed.

Lemma noncandidates_masked W col mask d :
  noncandidates_into (masked W mask) col mask d = noncandidates_into W col mask d.
Proof.
  unfold noncandidates_into, masked.
  revert col mask. induction W as [|w W IH]; intros [|c col] [|b mask];
    try reflexivity.
  cbn [zip_with zip]. rewrite !filter_cons. cbn [fst snd].
  destruct (decide (c = d /\ b = true)) as [[_ ->]|_]; cbn.
  - f_equal; [lra | apply IH].
  - apply IH.
Qed.

Lemma group_masked_sum W col mask d :
  sum_R (group (masked W mask) col d) = sum_R (noncandidates_into W col mask d).
Proof.
  unfold group, noncandidates_into, masked.
  revert col mask. induction W as [|w W IH]; intros [|c col] [|b mask];
    try reflexivity.
  cbn [zip_with zip]. rewrite !filter_cons. cbn [fst snd].
  specialize (IH col mask).
  destruct (decide (c = d)) as [->|Hc].
  - destruct b.
    + rewrite decide_True by done. cbn. rewrite IH. lra.
    + rewrite decide_False by (intros [_ ?]; discriminate). cbn. rewrite IH. lra.
  - rewrite decide_False by (intros [? _]; done). exact IH.
Qed.

Lemma noncandidates_elem W col mask d e w :
  W !! e = Some w -> col !! e = Some d -> mask !! e = Some true ->
  w ∈ noncandidates_into W col mask d.
Proof.
  unfold noncandidates_into.
  revert col mask e. induction W as [|u W IH]; intros [|c col] [|b mask] [|e];
    try discriminate; cbn [zip]; rewrite filter_cons; cbn [fst snd lookup list_lookup].
  - intros [= ->] [= ->] [= ->]. rewrite decide_True by done. left.
  - intros Hw Hc Hb. destruct (decide _); [right|]; eapply IH; eassumption.
Qed.

Lemma group_elem {X} (src : list X) col d e (v : X) :
  src !! e = Some v -> col !! e = Some d -> v ∈ group src col d.
Proof.
  unfold group.
  revert col e. induction src as [|u src IH]; intros [|c col] [|e];
    try discriminate; cbn [zip]; rewrite filter_cons; cbn [fst snd lookup list_lookup].
  - intros [= ->] [= ->]. rewrite decide_True by done. left.
  - intros Hv Hc. destruct (decide _); [right|]; eapply IH; eassumption.
Qed.

Lemma group_elem_inv {X} (src : list X) col d (v : X) :
  v ∈ group src col d -> exists e, src !! e = Some v /\ col !! e = Some d.
Proof.
  unfold group.
  revert col. induction src as [|u src IH]; intros [|c col]; cbn [zip];
    try (intros H; inversion H; fail).
  rewrite filter_cons. cbn [fst snd]. destruct (decide (c = d)) as [->|Hc].
  - cbn. intros H. apply elem_of_cons in H as [->|H].
    + exists 0%nat. split; reflexivity.
    + destruct (IH _ H) as (e & He1 & He2). exists (S e). split; assumption.
  - intros H. destruct (IH _ H) as (e & He1 & He2). exists (S e). split; assumption.
Qed.

Lemma shifted_lookup ws col e w d :
  ws !! e = Some w -> col !! e = Some d ->
  shifted ws col !! e = Some (exp (w - gmax ws col d)).
Proof.
  intros Hw Hd. unfold shifted.
  rewrite list_lookup_fmap, lookup_zip_with, Hw. cbn.
  rewrite list_lookup_fmap, Hd. reflexivity.
Qed.

Lemma shifted_pos ws col : Forall (fun v => 0 < v) (shifted ws col).
Proof.
  unfold shifted. apply Forall_fmap, Forall_true. intros v. apply exp_pos.
Qed.

Lemma noncandidates_Forall (P : R -> Prop) W col mask d :
  Forall P W -> Forall P (noncandidates_into W col mask d).
Proof.
  unfold noncandidates_into. intros H.
  revert col mask. induction H as [|w W Hw _ IH]; intros [|c col] [|b mask];
    cbn [zip]; try constructor.
  rewrite filter_cons. destruct (decide _); cbn; [constructor; [exact Hw|]|]; apply IH.
Qed.

Lemma frac_mono a b eps :
  0 < eps -> 0 <= a <= b -> a / (a + eps) <= b / (b + eps).
Proof.
  intros He [Ha Hab].
  apply (Rmult_le_reg_r ((a + eps) * (b + eps))); [nra|].
  replace (a / (a + eps) * ((a + eps) * (b + eps))) with (a * (b + eps))
    by (field; lra).
  replace (b / (b + eps) * ((a + eps) * (b + eps))) with (b * (a + eps))
    by (field; lra).
  nra.
Qed.

Lemma frac_bounds a eps : 0 < eps -> 0 <= a -> 0 <= a / (a + eps) < 1.
Proof.
  intros He Ha. split.
  - apply Rmult_le_pos; [exact Ha|]. left. apply Rinv_0_lt_compat. lra.
  - apply (Rmult_lt_reg_r (a + eps)); [lra|].
    replace (a / (a + eps) * (a + eps)) with a by (field; lra). lra.
Qed.

(** The sum of the minus-graph weights over the non-candidate edges that
    end in [d] is [S / (S + 1e-16)], where [S] adds up the shifted
    exponentials of those edges. *)
Lemma minus_column_sum ws col mask n d :
  Forall (fun c => (c < n)%nat) col ->
  exists wm, minus_column ws col mask n = Ok wm
    /\ sum_R (noncandidates_into wm col mask d)
       = sum_R (noncandidates_into (shifted ws col) col mask d)
         / (sum_R (noncandidates_into (shifted ws col) col mask d) + 1e-16).
Proof.
  intros Hcol. eexists. split; [now apply minus_column_eq|].
  rewrite noncandidates_zip_with, sum_R_scale, noncandidates_masked.
  now rewrite group_masked_sum.
Qed.

Lemma group_Forall {X} (P : X -> Prop) (src : list X) col d :
  Forall P src -> Forall P (group src col d).
Proof.
  intros H. apply Forall_forall. intros v Hv.
  apply group_elem_inv in Hv as (e & He & _).
  rewrite Forall_forall in H. apply H. eapply list_elem_of_lookup_2, He.
Qed.

Lemma masked_nonneg W mask :
  Forall (fun v => 0 < v) W -> Forall (fun v => 0 <= v) (masked W mask).
Proof.
  intros H. apply Forall_forall. intros v Hv.
  apply list_elem_of_lookup in Hv as [e He].
  apply lookup_zip_with_Some in He as (w & b & -> & Hw & _).
  rewrite Forall_forall in H.
  pose proof (H w (list_elem_of_lookup_2 _ _ _ Hw)). destruct b; lra.
Qed.

(** What the minus-graph weights [wm] of one head satisfy, for raw scores
    [ws], destinations [col] and the edge mask: candidate edges weigh 0, no
    weight is negative, and over the non-candidate edges that end in a node
    the weights add up to [S / (S + 1e-16)], [S] being the sum of the
    shifted exponentials of those edges. That is a number from 0 to 1, and
    both ends are met in single precision, where the constant is absorbed
    by an [S] near 1 and a small exponential underflows; so the bounds are
    stated with the ends included. When one of the non-candidate edges
    carries the largest raw score among the edges that end in the node, [S]
    is at least 1 and the quotient at least [1 / (1 + 1e-16)]. *)
Definition minus_normalized (ws : list R) (col : list nat) (mask : list bool)
    (wm : list R) : Prop :=
  length wm = length ws
  /\ (forall e v, wm !! e = Some v -> 0 <= v /\ (mask !! e = Some false -> v = 0))
  /\ forall d,
       sum_R (noncandidates_into wm col mask d)
       = sum_R (noncandidates_into (shifted ws col) col mask d)
         / (sum_R (noncandidates_into (shifted ws col) col mask d) + 1e-16)
       /\ 0 <= sum_R (noncandidates_into wm col mask d) <= 1
       /\ ((exists e w, ws !! e = Some w /\ col !! e = Some d
                        /\ mask !! e = Some true
                        /\ forall e' w', ws !! e' = Some w' -> col !! e' = Some d ->
                                         w' <= w) ->
           1 <= sum_R (noncandidates_into (shifted ws col) col mask d)
           /\ 1 / (1 + 1e-16)
              <= sum_R (noncandidates_into (shifted ws col) col mask d)
                 / (sum_R (noncandidates_into (shifted ws col) col mask d)
                    + 1e-16)).

Lemma minus_column_normalized ws col mask n :
  length col = length ws -> length mask = length ws ->
  Forall (fun c => (c < n)%nat) col ->
  exists wm, minus_column ws col mask n = Ok wm /\ minus_normalized ws col mask wm.
Proof.
  intros Hlc Hlm Hcol.
  assert (HlW : length (shifted ws col) = length ws).
  { unfold shifted. rewrite length_fmap, length_zip_with, length_fmap. lia. }
  assert (HlA : length (masked (shifted ws col) mask) = length ws).
  { unfold masked. rewrite length_zip_with. lia. }
  pose proof (masked_nonneg _ mask (shifted_pos ws col)) as HA.
  eexists. split; [now apply minus_column_eq|].
  split; [|split].
  - rewrite length_zip_with. lia.
  - intros e v He.
    apply lookup_zip_with_Some in He as (a & c & -> & Ha & Hc).
    assert (Hsum : 0 <= sum_R (group (masked (shifted ws col) mask) col c)).
    { apply sum_R_nonneg. now apply group_Forall. }
    split.
    + apply Rmult_le_pos.
      * rewrite Forall_forall in HA. apply HA. eapply list_elem_of_lookup_2, Ha.
      * left. apply Rinv_0_lt_compat. lra.
    + intros Hm. apply lookup_zip_with_Some in Ha as (w & b & -> & _ & Hb).
      rewrite Hb in Hm. injection Hm as ->. unfold Rdiv. ring.
  - intros d.
    destruct (minus_column_sum ws col mask n d Hcol) as (wm & Hwm & Hsum).
    rewrite minus_column_eq in Hwm by exact Hcol. injection Hwm as <-.
    set (S := sum_R (noncandidates_into (shifted ws col) col mask d)) in *.
    assert (Hpos : Forall (fun v => 0 < v) (noncandidates_into (shifted ws col) col mask d))
      by apply noncandidates_Forall, shifted_pos.
    assert (Hnn : Forall (fun v => 0 <= v) (noncandidates_into (shifted ws col) col mask d)).
    { eapply Forall_impl; [exact Hpos|]. cbn. intros; lra. }
    assert (HS : 0 <= S) by now apply sum_R_nonneg.
    rewrite Hsum. split; [reflexivity|]. split.
    + pose proof (frac_bounds S 1e-16 ltac:(lra) HS). lra.
    + intros (e & w & Hw & Hc & Hm & Hmax).
      assert (Hg : gmax ws col d = w).
      { apply list_max_attained; [eapply group_elem; eassumption|].
        intros u Hu. apply group_elem_inv in Hu as (e' & Hu1 & Hu2). eauto. }
      pose proof (shifted_lookup _ _ _ _ _ Hw Hc) as Hsh.
      rewrite Hg, Rminus_diag, exp_0 in Hsh.
      pose proof (noncandidates_elem _ _ _ _ _ _ Hsh Hc Hm) as Hin.
      assert (1 <= S) by now apply sum_R_ge_elem.
      split; [assumption|].
      apply (frac_mono 1 S 1e-16); lra.
Qed.

Lemma foldr_max_bound (l : list nat) :
  Forall (fun c => (c <= foldr Nat.max 0 l)%nat) l.
Proof.
  induction l as [|a l IH]; constructor; cbn [foldr]; [lia|].
  eapply Forall_impl; [exact IH|]. cbn beta. intros; lia.
Qed.









Lemma foldl_Rmax_in v l : foldl Rmax v l = v \/ foldl Rmax v l ∈ l.
Proof.
  revert v. induction l as [|a l IH]; intros v; cbn; [now left|].
  destruct (IH (Rmax v a)) as [H|H].
  - rewrite H. unfold Rmax. destruct (Rle_dec v a); [right; left | now left].
  - right. now right.
Qed.

Lemma list_max_in l : l <> [] -> list_max l ∈ l.
Proof.
  destruct l as [|v l]; [congruence|]. intros _. cbn.
  destruct (foldl_Rmax_in v l) as [->|H]; [left | now right].
Qed.

Lemma noncandidates_unmasked (vals : list R) col d :
  noncandidates_into vals col (replicate (length vals) true) d = group vals col d.
Proof.
  unfold noncandidates_into, group.
  revert col. induction vals as [|v vals IH]; intros [|c col]; try reflexivity.
  cbn [length replicate zip_with]. rewrite !filter_cons. cbn [fst snd].
  specialize (IH col).
  destruct (decide (c = d)) as [->|Hc].
  - rewrite decide_True by done. cbn [fmap list_fmap fst]. f_equal. exact IH.
  - rewrite decide_False by (intros [? _]; done). exact IH.
Qed.

(** With no edge masked out, lines 980-984 are the softmax grouped by
    destination that the plus graph is meant to get: over the edges into a
    node the weights add up to 1 within 1e-16. *)
Lemma unmasked_column_normalized ws col n d :
  length col = length ws ->
  Forall (fun c => (c < n)%nat) col ->
  (exists e, col !! e = Some d) ->
  exists wm, minus_column ws col (replicate (length ws) true) n = Ok wm
    /\ 1 / (1 + 1e-16) <= sum_R (group wm col d) <= 1.
Proof.
  intros Hlen Hcol [e He].
  destruct (minus_column_normalized ws col (replicate (length ws) true) n)
    as (wm & Hwm & Hl & _ & Hsum); [exact Hlen | apply length_replicate | exact Hcol |].
  exists wm. split; [exact Hwm|].
  destruct (Hsum d) as (Heq & [_ Hle] & Hge).
  assert (Hg : sum_R (noncandidates_into wm col (replicate (length ws) true) d)
               = sum_R (group wm col d)).
  { rewrite <- Hl. now rewrite noncandidates_unmasked. }
  rewrite Hg in Heq, Hle. split; [|exact Hle]. rewrite Heq.
  refine (proj2 (Hge _)).
  destruct (lookup_lt_is_Some_2 ws e) as [w Hw].
  { rewrite <- Hlen. now apply lookup_lt_Some in He. }
  assert (Hne : group ws col d <> []).
  { intros Hnil. pose proof (group_elem _ _ _ _ _ Hw He) as Hin.
    rewrite Hnil in Hin. inversion Hin. }
  pose proof (list_max_in _ Hne) as Hin.
  apply group_elem_inv in Hin as (e' & He1 & He2).
  exists e', (list_max (group ws col d)). repeat split; try assumption.
  - apply lookup_replicate_2. eapply lookup_lt_Some, He1.
  - intros e'' w'' Hw'' Hc''. apply list_max_upper.
    eapply group_elem; eassumption.
Qed.

(** *** Shapes in the walk loop *)

(** [x] has [n] rows of [w] entries. *)
Definition is_matrix (n w : nat) (x : list (list R)) : Prop :=
  length x = n /\ Forall (fun r => length r = w) x.

Lemma for_range_indexed {S} (P : nat -> S -> Prop) (n : nat)
    (body : nat -> S -> result S) (s : S) :
  (forall i s, (i < n)%nat -> P i s -> exists s', body i s = Ok s' /\ P (Datatypes.S i) s') ->
  P 0%nat s -> exists s', for_range n body s = Ok s' /\ P n s'.
Proof.
  unfold for_range. intros Hbody.
  assert (Hgen : forall k a s, (a + k <= n)%nat -> P a s ->
            exists s', foldl (fun acc i => s ← acc; body i s) (Ok s) (seq a k) = Ok s'
                       /\ P (a + k)%nat s').
  { induction k as [|k IH]; intros a s0 Hak Hs; cbn [seq foldl].
    - rewrite Nat.add_0_r. eauto.
    - destruct (Hbody a s0) as (s1 & Hs1 & HP1); [lia | exact Hs |].
      cbn [mbind result_bind]. rewrite Hs1.
      replace (a + Datatypes.S k)%nat with (Datatypes.S a + k)%nat by lia.
      apply IH; [lia | exact HP1]. }
  intros Hs. apply (Hgen n 0%nat s); [lia | exact Hs].
Qed.

Lemma for_range_invariant {S} (P : S -> Prop) (n : nat)
    (body : nat -> S -> result S) (s : S) :
  (forall i s, (i < n)%nat -> P s -> exists s', body i s = Ok s' /\ P s') ->
  P s -> exists s', for_range n body s = Ok s' /\ P s'.
Proof. intros Hbody. apply (for_range_indexed (fun _ => P)). exact Hbody. Qed.

Lemma take_indices_Forall {X} (P : X -> Prop) (a : list X) idx l :
  take_indices a idx = Ok l -> Forall P a -> Forall P l.
Proof.
  unfold take_indices. rewrite for_each_Forall2. intros H Ha.
  induction H as [|j v idx l Hj _ IH]; constructor; [|exact IH].
  unfold getidx in Hj. destruct (a !! j) as [u|] eqn:Hu; [|discriminate].
  injection Hj as <-. rewrite Forall_forall in Ha. apply Ha.
  eapply list_elem_of_lookup_2, Hu.
Qed.

Lemma take_indices_ok {X} (a : list X) (idx : list nat) :
  Forall (fun j => (j < length a)%nat) idx ->
  exists l, take_indices a idx = Ok l /\ length l = length idx.
Proof.
  intros H. destruct (take_indices_in_range a idx) as (l & Hl & Hlen & _).
  - intros j Hj. rewrite Forall_forall in H. now apply H.
  - eauto.
Qed.

Lemma vsum_length w (l : list (list R)) :
  Forall (fun v => length v = w) l -> length (vsum w l) = w.
Proof.
  unfold vsum. induction 1 as [|v l Hv _ IH]; cbn [foldr].
  - apply length_replicate.
  - unfold vadd at 1. rewrite length_zip_with, Hv, IH. lia.
Qed.

Lemma width_matrix n w x : is_matrix n w x -> (0 < n)%nat -> width x = w.
Proof.
  intros [Hn Hx] Hpos. destruct x as [|r x]; cbn in *; [lia|].
  now apply Forall_cons in Hx as [? _].
Qed.

(** One propagation step keeps the shape of the indicator matrix. *)
Lemma propagate_shape edge_index x norm n w :
  is_matrix n w x ->
  Forall (fun e : nat * nat => (e.1 < n)%nat /\ (e.2 < n)%nat) edge_index ->
  length norm = length edge_index ->
  exists y, propagate edge_index x norm = Ok y /\ is_matrix n w y.
Proof.
  intros Hx He Hnorm. pose proof Hx as [Hn Hrows]. unfold propagate.
  destruct (take_indices_ok x edge_index.*1) as (x_j & Hxj & Hlen).
  { apply Forall_fmap. eapply Forall_impl; [exact He|]. cbn. intros e [H1 _]. lia. }
  rewrite Hxj. cbn -[message]. rewrite length_fmap in Hlen.
  unfold message. rewrite decide_True by congruence. cbn.
  rewrite decide_True.
  2:{ apply Forall_fmap. eapply Forall_impl; [exact He|]. cbn. intros e [_ H2]. lia. }
  eexists. split; [reflexivity|]. split.
  - now rewrite length_map, length_seq.
  - apply Forall_fmap, Forall_forall. intros d Hd. cbn.
    apply elem_of_seq in Hd.
    rewrite (width_matrix n w x Hx) by lia.
    apply vsum_length, group_Forall.
    apply Forall_forall. intros v Hv.
    apply list_elem_of_lookup in Hv as [i Hi].
    apply lookup_zip_with_Some in Hi as (c & r & -> & _ & Hr).
    unfold vscale. rewrite length_map.
    pose proof (take_indices_Forall _ _ _ _ Hxj Hrows) as Hall.
    rewrite Forall_forall in Hall. apply Hall. eapply list_elem_of_lookup_2, Hr.
Qed.

Lemma for_each_returns {X Y} (f : X -> result Y) (l : list X) :
  Forall (fun a => returns (f a)) l ->
  exists bs, for_each f l = Ok bs /\ length bs = length l.
Proof.
  induction 1 as [|a l [b Hb] _ (bs & IH & Hlen)].
  - exists []. split; reflexivity.
  - exists (b :: bs). cbn. rewrite Hb. cbn. rewrite IH. cbn.
    split; [reflexivity | lia].
Qed.

Lemma one_hot_shape n m index :
  length index = n -> Forall (fun i => (i < m)%nat) index ->
  exists x, one_hot n m index = Ok x /\ is_matrix n m x.
Proof.
  intros Hn Hi. unfold one_hot. rewrite decide_True by done.
  eexists. split; [reflexivity|]. split.
  - now rewrite length_map.
  - apply Forall_fmap, Forall_true. intros i. cbn.
    now rewrite length_insert, length_replicate.
Qed.

Lemma getidx_ok {X} (a : list X) i :
  (i < length a)%nat -> exists v, getidx a i = Ok v /\ a !! i = Some v.
Proof.
  intros Hi. destruct (lookup_lt_is_Some_2 a i Hi) as [v Hv].
  exists v. unfold getidx. rewrite Hv. split; reflexivity.
Qed.

Lemma pick_ok x n w rows cols :
  is_matrix n w x -> length rows = length cols ->
  Forall (fun r => (r < n)%nat) rows -> Forall (fun c => (c < w)%nat) cols ->
  exists v, pick x rows cols = Ok v /\ length v = length rows.
Proof.
  intros [Hn Hx] Hlen Hrows Hcols. unfold pick. rewrite decide_True by exact Hlen.
  destruct (for_each_returns
              (fun rc : nat * nat => r ← getidx x rc.1; getidx r rc.2)
              (zip rows cols)) as (v & Hv & Hl).
  - apply Forall_forall. intros [r c] Hrc.
    apply list_elem_of_lookup in Hrc as [i Hi].
    apply lookup_zip_with_Some in Hi as (r' & c' & [= <- <-] & Hr & Hc).
    rewrite Forall_forall in Hrows. rewrite Forall_forall in Hcols.
    rewrite Forall_forall in Hx.
    pose proof (Hrows r (list_elem_of_lookup_2 _ _ _ Hr)) as Hr'.
    pose proof (Hcols c (list_elem_of_lookup_2 _ _ _ Hc)) as Hc'.
    destruct (getidx_ok x r) as (row & Hrow & Hlk); [lia|].
    cbn. rewrite Hrow. cbn.
    destruct (getidx_ok row c) as (u & Hu & _).
    { rewrite (Hx row (list_elem_of_lookup_2 _ _ _ Hlk)). exact Hc'. }
    exists u. exact Hu.
  - exists v. split; [exact Hv|]. rewrite Hl, length_zip. lia.
Qed.

Lemma pick_at_ok x index n w rows cols :
  is_matrix n w x -> length index = n -> Forall (fun i => (i < w)%nat) index ->
  length rows = length cols ->
  Forall (fun r => (r < n)%nat) rows -> Forall (fun c => (c < n)%nat) cols ->
  exists v, pick_at x index rows cols = Ok v /\ length v = length rows.
Proof.
  intros Hx Hn Hi Hlen Hrows Hcols. unfold pick_at.
  destruct (take_indices_ok index cols) as (idx & Hidx & Hl); [now rewrite Hn|].
  rewrite Hidx. cbn -[pick].
  apply (pick_ok x n w); [exact Hx | congruence | exact Hrows |].
  eapply take_indices_Forall; eassumption.
Qed.

Lemma add_broadcast_ok a b :
  length a = length b ->
  exists v, add_broadcast a b = Ok v /\ length v = length a.
Proof.
  intros H. unfold add_broadcast. rewrite decide_True by exact H.
  eexists. split; [reflexivity|]. rewrite length_zip_with. lia.
Qed.

Lemma set_column_shape m c v B W :
  is_matrix B W m -> (c < W)%nat -> length v = B ->
  exists m', set_column m c v = Ok m' /\ is_matrix B W m'.
Proof.
  intros [HB Hm] Hc Hv. unfold set_column.
  rewrite decide_True.
  2:{ eapply Forall_impl; [exact Hm|]. cbn. intros row ->. exact Hc. }
  rewrite decide_True by congruence.
  eexists. split; [reflexivity|]. split.
  - rewrite length_zip_with. lia.
  - apply Forall_forall. intros row Hrow.
    apply list_elem_of_lookup in Hrow as [i Hi].
    apply lookup_zip_with_Some in Hi as (r & a & -> & Hr & _).
    rewrite length_insert. rewrite Forall_forall in Hm. apply Hm.
    eapply list_elem_of_lookup_2, Hr.
Qed.

Lemma gather_diag_ok x index n w :
  is_matrix n w x -> length index = n -> Forall (fun i => (i < w)%nat) index ->
  exists v, gather_diag x index = Ok v /\ length v = n.
Proof.
  intros [Hn Hx] Hl Hi. unfold gather_diag. rewrite decide_True by lia.
  destruct (for_each_returns
              (fun ri : list R * nat =>
                 match ri.1 !! ri.2 with
                 | Some v => Ok v
                 | None => Raise RuntimeError
                 end) (zip x index)) as (v & Hv & Hlen).
  - apply Forall_forall. intros [row i] Hri.
    apply list_elem_of_lookup in Hri as [k Hk].
    apply lookup_zip_with_Some in Hk as (r' & i' & [= <- <-] & Hr & Hi').
    rewrite Forall_forall in Hx. rewrite Forall_forall in Hi.
    destruct (lookup_lt_is_Some_2 row i) as [u Hu].
    { rewrite (Hx row (list_elem_of_lookup_2 _ _ _ Hr)).
      apply Hi. eapply list_elem_of_lookup_2, Hi'. }
    cbn. rewrite Hu. eexists; reflexivity.
  - exists v. split; [exact Hv|]. rewrite Hlen, length_zip. lia.
Qed.

Lemma scatter_add_batch_ok src batch :
  length src = length batch ->
  exists v, scatter_add_batch src batch = Ok v
            /\ length v = S (foldr Nat.max 0%nat batch).
Proof.
  intros H. unfold scatter_add_batch. rewrite decide_True by exact H.
  eexists. split; [reflexivity|]. unfold scatter_add.
  now rewrite length_map, length_seq.
Qed.

Section WalkShapes.

(** A batch of [n] nodes in [B] graphs, positions bounded by [w], one
    candidate link per graph with ends [node_i] and [node_j]; accumulators
    of [W] columns. *)
Variables (edge_index : list (nat * nat)) (batch index node_i node_j : list nat).
Variables (n w B W : nat).
Hypothesis Hedges :
  Forall (fun e : nat * nat => (e.1 < n)%nat /\ (e.2 < n)%nat) edge_index.
Hypothesis Hbatch : length batch = n.
Hypothesis HB : B = S (foldr Nat.max 0%nat batch).
Hypothesis Hindex : length index = n.
Hypothesis Hindex_w : Forall (fun i => (i < w)%nat) index.
Hypothesis Hnode_i : length node_i = B /\ Forall (fun r => (r < n)%nat) node_i.
Hypothesis Hnode_j : length node_j = B /\ Forall (fun r => (r < n)%nat) node_j.

Definition levels_shape (lv : levels) : Prop :=
  is_matrix B W (nodelevel_p lv) /\ is_matrix B W (nodelevel_m lv)
  /\ is_matrix B W (linklevel_p lv) /\ is_matrix B W (linklevel_m lv)
  /\ is_matrix B W (graphlevel lv).

Definition state_shape (st : list (list R) * list (list R) * levels) : Prop :=
  is_matrix n w st.1.1 /\ is_matrix n w st.1.2 /\ levels_shape st.2.

(** The sum of two picked statistics, one entry per graph. *)
Lemma pick_sum_ok x rows1 cols1 rows2 cols2 :
  is_matrix n w x ->
  length rows1 = B /\ Forall (fun r => (r < n)%nat) rows1 ->
  length cols1 = B /\ Forall (fun r => (r < n)%nat) cols1 ->
  length rows2 = B /\ Forall (fun r => (r < n)%nat) rows2 ->
  length cols2 = B /\ Forall (fun r => (r < n)%nat) cols2 ->
  exists v, pick_sum x index rows1 cols1 rows2 cols2 = Ok v /\ length v = B.
Proof using Hindex Hindex_w.
  intros Hx [Hr1 Hr1'] [Hc1 Hc1'] [Hr2 Hr2'] [Hc2 Hc2']. unfold pick_sum.
  destruct (pick_at_ok x index n w rows1 cols1) as (a & -> & Ha);
    try assumption; [congruence|].
  destruct (pick_at_ok x index n w rows2 cols2) as (b & -> & Hb);
    try assumption; [congruence|].
  cbn [mbind result_bind].
  destruct (add_broadcast_ok a b) as (v & -> & Hv); [congruence|].
  exists v. split; [reflexivity | congruence].
Qed.

(** One turn of the inner loop keeps every shape. *)
Lemma walk_step_ok wp wm c st :
  length wp = length edge_index -> length wm = length edge_index ->
  (c < W)%nat -> state_shape st ->
  exists st', walk_step edge_index batch index node_i node_j wp wm c st = Ok st'
              /\ state_shape st'.
Proof using All.
  intros Hwp Hwm Hc. destruct st as [[x_p x_m] lv].
  intros (Hxp & Hxm & Hnp & Hnm & Hlp & Hlm & Hgl). cbn [fst snd] in *.
  unfold walk_step.
  destruct (propagate_shape edge_index x_p wp n w Hxp Hedges Hwp) as (x_p' & -> & Hxp').
  cbn [mbind result_bind].
  destruct (propagate_shape edge_index x_m wm n w Hxm Hedges Hwm) as (x_m' & -> & Hxm').
  cbn [mbind result_bind].
  destruct (pick_sum_ok x_p' node_i node_i node_j node_j) as (v1 & -> & Hv1);
    try assumption. cbn [mbind result_bind].
  destruct (pick_sum_ok x_m' node_i node_i node_j node_j) as (v2 & -> & Hv2);
    try assumption. cbn [mbind result_bind].
  destruct (set_column_shape (nodelevel_p lv) c v1 B W) as (nl_p & -> & Hnl_p);
    try assumption. cbn [mbind result_bind].
  destruct (set_column_shape (nodelevel_m lv) c v2 B W) as (nl_m & -> & Hnl_m);
    try assumption. cbn [mbind result_bind].
  destruct (pick_sum_ok x_p' node_i node_j node_j node_i) as (v3 & -> & Hv3);
    try assumption. cbn [mbind result_bind].
  destruct (pick_sum_ok x_m' node_i node_j node_j node_i) as (v4 & -> & Hv4);
    try assumption. cbn [mbind result_bind].
  destruct (set_column_shape (linklevel_p lv) c v3 B W) as (ll_p & -> & Hll_p);
    try assumption. cbn [mbind result_bind].
  destruct (set_column_shape (linklevel_m lv) c v4 B W) as (ll_m & -> & Hll_m);
    try assumption. cbn [mbind result_bind].
  destruct (gather_diag_ok x_p' index n w) as (d1 & -> & Hd1); try assumption.
  cbn [mbind result_bind].
  destruct (gather_diag_ok x_m' index n w) as (d2 & -> & Hd2); try assumption.
  cbn [mbind result_bind].
  destruct (scatter_add_batch_ok d1 batch) as (g1 & -> & Hg1); [congruence|].
  cbn [mbind result_bind].
  destruct (scatter_add_batch_ok d2 batch) as (g2 & -> & Hg2); [congruence|].
  cbn [mbind result_bind].
  destruct (set_column_shape (graphlevel lv) c (zip_with Rminus g1 g2) B W)
    as (gl & -> & Hgl'); try assumption.
  { rewrite length_zip_with. lia. }
  cbn [mbind result_bind mret result_ret].
  eexists. split; [reflexivity|].
  unfold state_shape, levels_shape. cbn. tauto.
Qed.

(** The loop body of one head keeps the shape of the accumulators. *)
Lemma walk_head_ok walk_len weights_p weights_m head lv :
  Forall (fun c => length c = length edge_index) weights_p ->
  Forall (fun c => length c = length edge_index) weights_m ->
  (head < length weights_p)%nat -> (head < length weights_m)%nat ->
  (head * walk_len + walk_len <= W)%nat ->
  levels_shape lv ->
  exists lv', walk_head walk_len edge_index batch index w node_i node_j
                        weights_p weights_m head lv = Ok lv'
              /\ levels_shape lv'.
Proof using All.
  intros Hp Hm Hhp Hhm HW Hlv. unfold walk_head.
  destruct (one_hot_shape (length batch) w index) as (x0 & -> & Hx0);
    [congruence | assumption |]. rewrite Hbatch in Hx0.
  cbn [mbind result_bind].
  destruct (getidx_ok weights_p head Hhp) as (wp & -> & Hwp).
  destruct (getidx_ok weights_m head Hhm) as (wm & -> & Hwm).
  cbn [mbind result_bind].
  assert (Hlwp : length wp = length edge_index).
  { rewrite Forall_forall in Hp. apply Hp. eapply list_elem_of_lookup_2, Hwp. }
  assert (Hlwm : length wm = length edge_index).
  { rewrite Forall_forall in Hm. apply Hm. eapply list_elem_of_lookup_2, Hwm. }
  destruct (propagate_shape edge_index x0 wp n w Hx0 Hedges Hlwp) as (x_p & -> & Hxp).
  cbn [mbind result_bind].
  destruct (propagate_shape edge_index x0 wm n w Hx0 Hedges Hlwm) as (x_m & -> & Hxm).
  cbn [mbind result_bind].
  destruct (for_range_invariant state_shape walk_len
              (fun i st => walk_step edge_index batch index node_i node_j wp wm
                             (head * walk_len + i) st)
              (x_p, x_m, lv)) as (st' & -> & Hst').
  - intros i st Hi Hst. apply walk_step_ok; [assumption | assumption | lia | assumption].
  - unfold state_shape. cbn [fst snd]. tauto.
  - cbn [mbind result_bind mret result_ret].
    eexists. split; [reflexivity|]. apply Hst'.
Qed.

End WalkShapes.

(** *** The positions of the nodes inside their graphs *)

(** The number of nodes of graph [v], and of the graphs before [k]. *)
Definition cnt (batch : list nat) (v : nat) : nat :=
  length (filter (fun b => b = v) batch).
Definition psum (batch : list nat) (k : nat) : nat :=
  length (filter (fun b => (b < k)%nat) batch).

Lemma psum_succ batch k : psum batch (S k) = (psum batch k + cnt batch k)%nat.
Proof.
  unfold psum, cnt. induction batch as [|b batch IH]; [reflexivity|].
  rewrite !filter_cons.
  destruct (decide (b < S k)%nat), (decide (b < k)%nat), (decide (b = k));
    cbn [length]; lia.
Qed.

Lemma psum_0 batch : psum batch 0 = 0%nat.
Proof.
  unfold psum. induction batch as [|b batch IH]; [reflexivity|].
  rewrite filter_cons, decide_False by lia. exact IH.
Qed.

Lemma psum_le batch k : (psum batch k <= length batch)%nat.
Proof. apply length_filter. Qed.

Lemma cnt_pos batch b : b ∈ batch -> (1 <= cnt batch b)%nat.
Proof.
  unfold cnt. induction 1 as [b batch|b c batch _ IH]; rewrite filter_cons.
  - rewrite decide_True by reflexivity. cbn. lia.
  - destruct (decide _); cbn; lia.
Qed.

Lemma filter_all {X} (P : X -> Prop) `{forall x, Decision (P x)} (l : list X) :
  Forall P l -> filter P l = l.
Proof.
  induction 1 as [|a l Ha _ IH]; [reflexivity|].
  rewrite filter_cons, decide_True by exact Ha. now rewrite IH.
Qed.

(** When every graph id up to the largest occurs, [torch.unique] counts the
    nodes of graphs 0, 1, ..., in that order. *)
Lemma unique_counts_contiguous batch :
  (forall b, (b <= foldr Nat.max 0%nat batch)%nat -> b ∈ batch) ->
  unique_counts batch = map (cnt batch) (seq 0 (S (foldr Nat.max 0%nat batch))).
Proof.
  intros Hall. unfold unique_counts. rewrite filter_all; [reflexivity|].
  apply Forall_forall. intros v Hv. apply elem_of_seq in Hv. apply Hall. lia.
Qed.

Lemma make_index_ok batch :
  (forall b, (b <= foldr Nat.max 0%nat batch)%nat -> b ∈ batch) ->
  exists index max_nodes,
    torch_max (unique_counts batch) = Ok max_nodes
    /\ make_index batch (S (foldr Nat.max 0%nat batch)) (unique_counts batch) = Ok index
    /\ length index = length batch
    /\ Forall (fun i => (i < max_nodes)%nat) index.
Proof.
  intros Hall. set (m := foldr Nat.max 0%nat batch) in *.
  rewrite (unique_counts_contiguous batch Hall). fold m.
  set (counts := map (cnt batch) (seq 0 (S m))).
  set (max_nodes := foldr Nat.max 0%nat counts).
  assert (Hcounts : forall i, (i <= m)%nat -> counts !! i = Some (cnt batch i)).
  { intros i Hi. unfold counts. rewrite list_lookup_fmap, lookup_seq_lt by lia.
    reflexivity. }
  assert (Hmax : forall i, (i <= m)%nat -> (1 <= cnt batch i <= max_nodes)%nat).
  { intros i Hi. split; [apply cnt_pos, Hall; exact Hi|].
    pose proof (foldr_max_bound counts) as Hb. rewrite Forall_forall in Hb.
    apply Hb. eapply list_elem_of_lookup_2, Hcounts, Hi. }
  destruct (for_range_indexed
              (fun i (st : list nat * nat) =>
                 length st.1 = length batch
                 /\ Forall (fun j => (j < max_nodes)%nat) st.1
                 /\ st.2 = psum batch i)
              (S m)
              (fun i (st : list nat * nat) =>
                 c ← getidx counts i;
                 index ← assign_slice st.1 st.2 (seq 0 c);
                 mret (index, (st.2 + c)%nat))
              (replicate (length batch) 0%nat, 0%nat))
    as (r & Hr & Hlen & Hlt & _).
  - intros i [index id_start] Hi (Hlen & Hlt & Hstart). cbn [fst snd] in *.
    unfold getidx. rewrite (Hcounts i) by lia. cbn [mbind result_bind].
    pose proof (psum_succ batch i) as Hps. pose proof (psum_le batch (S i)) as Hle.
    unfold assign_slice. rewrite length_seq.
    rewrite decide_True by lia. cbn [mbind result_bind mret result_ret].
    eexists. split; [reflexivity|]. cbn [fst snd]. split; [|split].
    + rewrite !length_app, length_take, length_seq, length_drop. lia.
    + repeat apply Forall_app_2.
      * now apply Forall_take.
      * apply Forall_forall. intros j Hj. apply elem_of_seq in Hj.
        pose proof (Hmax i ltac:(lia)). lia.
      * now apply Forall_drop.
    + lia.
  - cbn [fst snd]. split; [apply length_replicate|].
    split; [|symmetry; apply psum_0].
    apply Forall_replicate. pose proof (Hmax 0%nat ltac:(lia)). lia.
  - exists r.1, max_nodes. split; [reflexivity|].
    unfold make_index. rewrite Hr. cbn [mbind result_bind mret result_ret].
    repeat split; assumption.
Qed.

(** *** The feature matrix *)

(** The masked-out edges, in the order they are stored. *)
Definition candidate_edges (edge_index : list (nat * nat)) (edge_mask : list bool)
    : list (nat * nat) :=
  (filter (fun p : (nat * nat) * bool => p.2 = true)
          (zip edge_index (map negb edge_mask))).*1.

Lemma mask_select_candidates edge_index edge_mask :
  length edge_mask = length edge_index ->
  mask_select edge_index (map negb edge_mask)
  = Ok (candidate_edges edge_index edge_mask).
Proof.
  intros H. unfold mask_select. rewrite decide_True by now rewrite length_map.
  reflexivity.
Qed.

Lemma candidate_edges_in edge_index edge_mask e :
  e ∈ candidate_edges edge_index edge_mask -> e ∈ edge_index.
Proof.
  unfold candidate_edges. intros H.
  apply list_elem_of_fmap in H as ([e' b] & -> & H).
  apply list_elem_of_filter in H as [_ H].
  apply list_elem_of_lookup in H as [i Hi].
  apply lookup_zip_with_Some in Hi as (x & y & [= <- <-] & Hx & _).
  eapply list_elem_of_lookup_2, Hx.
Qed.

Lemma arange2_even B :
  length (arange2 0 (2 * B)) = B
  /\ Forall (fun i => (i < 2 * B)%nat) (arange2 0 (2 * B)).
Proof.
  unfold arange2.
  replace (2 * B + 1 - 0)%nat with (S (2 * B)) by lia.
  rewrite Nat.div2_succ_double. split.
  - now rewrite length_map, length_seq.
  - apply Forall_fmap, Forall_forall. intros k Hk. apply elem_of_seq in Hk. cbn. lia.
Qed.

Lemma arange2_odd B :
  length (arange2 1 (2 * B)) = B
  /\ Forall (fun i => (i < 2 * B)%nat) (arange2 1 (2 * B)).
Proof.
  unfold arange2.
  replace (2 * B + 1 - 1)%nat with (2 * B)%nat by lia.
  rewrite Nat.div2_double. split.
  - now rewrite length_map, length_seq.
  - apply Forall_fmap, Forall_forall. intros k Hk. apply elem_of_seq in Hk. cbn. lia.
Qed.

Lemma cat1_shape a b B w1 w2 :
  is_matrix B w1 a -> is_matrix B w2 b ->
  exists c, cat1 a b = Ok c /\ is_matrix B (w1 + w2) c.
Proof.
  intros [Ha Ha'] [Hb Hb']. unfold cat1. rewrite decide_True by congruence.
  eexists. split; [reflexivity|]. split.
  - rewrite length_zip_with. lia.
  - apply Forall_forall. intros row Hrow.
    apply list_elem_of_lookup in Hrow as [i Hi].
    apply lookup_zip_with_Some in Hi as (r1 & r2 & -> & H1 & H2).
    rewrite Forall_forall in Ha'. rewrite Forall_forall in Hb'.
    rewrite length_app.
    rewrite (Ha' r1 (list_elem_of_lookup_2 _ _ _ H1)).
    now rewrite (Hb' r2 (list_elem_of_lookup_2 _ _ _ H2)).
Qed.

Lemma rows_of_shape n columns : is_matrix n (length columns) (rows_of n columns).
Proof.
  unfold rows_of. split.
  - now rewrite length_map, length_seq.
  - apply Forall_fmap, Forall_true. intros r. cbn. apply length_map.
Qed.

(** The two directions of every candidate pair are added up: one entry per
    pair and head. *)
Lemma omega_pairs_ok (omega : list (list R)) B :
  Forall (fun w => length w = (2 * B)%nat) omega ->
  exists om,
    for_each (fun w => a ← take_indices w (arange2 1 (2 * B));
                       b ← take_indices w (arange2 0 (2 * B));
                       add_broadcast a b) omega = Ok om
    /\ length om = length omega.
Proof.
  intros H. apply for_each_returns.
  eapply Forall_impl; [exact H|]. cbn beta. intros w Hw.
  destruct (arange2_even B) as [He He']. destruct (arange2_odd B) as [Ho Ho'].
  destruct (take_indices_ok w (arange2 1 (2 * B))) as (a & -> & Ha);
    [now rewrite Hw|].
  destruct (take_indices_ok w (arange2 0 (2 * B))) as (b & -> & Hb);
    [now rewrite Hw|].
  cbn [mbind result_bind].
  destruct (add_broadcast_ok a b) as (v & -> & _); [congruence|].
  eexists; reflexivity.
Qed.

Lemma zeros_shape B W : is_matrix B W (replicate B (replicate W 0)).
Proof.
  split; [apply length_replicate|].
  apply Forall_replicate, length_replicate.
Qed.

(** What lines 993-1081 of [forward] do once they are handed weights: for a
    batch whose graph ids are 0..B-1, edges that join nodes of the batch,
    two stored candidate edges per graph, and weights with one column per
    head and one entry per edge, they return one feature vector per graph,
    of width [heads * (5 * walk_len + 1)]. *)
Lemma walk_features_shape heads walk_len weights_p weights_m omega
    edge_index edge_mask batch :
  (forall b, (b <= foldr Nat.max 0%nat batch)%nat -> b ∈ batch) ->
  Forall (fun e : nat * nat => (e.1 < length batch)%nat /\ (e.2 < length batch)%nat)
         edge_index ->
  length edge_mask = length edge_index ->
  length (candidate_edges edge_index edge_mask)
  = (2 * S (foldr Nat.max 0%nat batch))%nat ->
  length weights_p = heads ->
  Forall (fun c => length c = length edge_index) weights_p ->
  length weights_m = heads ->
  Forall (fun c => length c = length edge_index) weights_m ->
  length omega = heads ->
  Forall (fun c => length c = (2 * S (foldr Nat.max 0%nat batch))%nat) omega ->
  exists feats,
    walk_features heads walk_len weights_p weights_m omega
                  edge_index edge_mask batch = Ok feats
    /\ is_matrix (S (foldr Nat.max 0%nat batch)) (heads * (5 * walk_len + 1)) feats.
Proof.
  intros Hall Hedges Hmask Hcand Hp Hp' Hm Hm' Ho Ho'.
  set (B := S (foldr Nat.max 0%nat batch)) in *.
  assert (Hne : batch <> []).
  { intros ->. specialize (Hall 0%nat ltac:(cbn; lia)). inversion Hall. }
  destruct (make_index_ok batch Hall) as (index & max_nodes & Hmaxn & Hidx & Hlen & Hlt).
  unfold walk_features.
  assert (Hmax : torch_max batch = Ok (foldr Nat.max 0%nat batch))
    by (destruct batch; [congruence | reflexivity]).
  rewrite Hmax. cbn [mbind result_bind]. rewrite Hmaxn. cbn [mbind result_bind].
  rewrite Hidx. cbn [mbind result_bind].
  rewrite (mask_select_candidates _ _ Hmask). cbn [mbind result_bind].
  fold B. rewrite Hcand.
  destruct (arange2_even B) as [He He']. destruct (arange2_odd B) as [Hod Hod'].
  unfold broadcast_length. rewrite decide_True by congruence.
  cbn [mbind result_bind].
  destruct (omega_pairs_ok omega B Ho') as (om & -> & Hom).
  cbn [mbind result_bind].
  set (link := candidate_edges edge_index edge_mask) in *.
  assert (Hlink : Forall (fun r => (r < length batch)%nat) link.*1).
  { apply Forall_fmap, Forall_forall. intros e He0.
    apply candidate_edges_in in He0. rewrite Forall_forall in Hedges.
    cbn. apply (Hedges e He0). }
  destruct (take_indices_ok link.*1 (arange2 0 (2 * B))) as (node_i & Hni & Hni');
    [now rewrite length_fmap, Hcand|].
  destruct (take_indices_ok link.*1 (arange2 1 (2 * B))) as (node_j & Hnj & Hnj');
    [now rewrite length_fmap, Hcand|].
  rewrite Hni. cbn [mbind result_bind]. rewrite Hnj. cbn [mbind result_bind].
  pose proof (take_indices_Forall _ _ _ _ Hni Hlink) as Hni_n.
  pose proof (take_indices_Forall _ _ _ _ Hnj Hlink) as Hnj_n.
  destruct (for_range_invariant
              (levels_shape B (walk_len * heads)) heads
              (fun head lv =>
                 walk_head walk_len edge_index batch index max_nodes node_i node_j
                           weights_p weights_m head lv)
              (mkLevels (replicate B (replicate (walk_len * heads) 0))
                        (replicate B (replicate (walk_len * heads) 0))
                        (replicate B (replicate (walk_len * heads) 0))
                        (replicate B (replicate (walk_len * heads) 0))
                        (replicate B (replicate (walk_len * heads) 0))))
    as (lv & -> & Hnp & Hnm & Hlp & Hlm & Hgl).
  - intros head lv Hhead Hlv.
    apply (walk_head_ok edge_index batch index node_i node_j (length batch));
      try assumption; try reflexivity; try lia; try (split; [congruence | assumption]).
    nia.
  - unfold levels_shape. cbn. pose proof (zeros_shape B (walk_len * heads)). tauto.
  - cbn [mbind result_bind].
    destruct (cat1_shape (graphlevel lv) (rows_of (length (arange2 1 (2 * B))) om)
                         B (walk_len * heads) (length om)) as (f1 & -> & Hf1);
      [assumption | rewrite Hod; apply rows_of_shape |].
    cbn [mbind result_bind].
    destruct (cat1_shape f1 (nodelevel_p lv) B _ _ Hf1 Hnp) as (f2 & -> & Hf2).
    cbn [mbind result_bind].
    destruct (cat1_shape f2 (nodelevel_m lv) B _ _ Hf2 Hnm) as (f3 & -> & Hf3).
    cbn [mbind result_bind].
    destruct (cat1_shape f3 (linklevel_p lv) B _ _ Hf3 Hlp) as (f4 & -> & Hf4).
    cbn [mbind result_bind].
    destruct (cat1_shape f4 (linklevel_m lv) B _ _ Hf4 Hlm) as (f5 & -> & Hf5).
    exists f5. split; [reflexivity|].
    replace (heads * (5 * walk_len + 1))%nat
      with (walk_len * heads + length om + walk_len * heads + walk_len * heads
            + walk_len * heads + walk_len * heads)%nat by (rewrite Hom, Ho; lia).
    exact Hf5.
Qed.

(** *** Symmetries of the walk statistics *)

Lemma zip_with_Rplus_comm (a b : list R) : zip_with Rplus a b = zip_with Rplus b a.
Proof.
  revert b. induction a as [|u a IH]; intros [|v b]; cbn; try reflexivity.
  rewrite IH. f_equal. lra.
Qed.

(** [a + b] is [b + a], broadcasting and shape errors included. *)
Lemma add_broadcast_comm a b : add_broadcast a b = add_broadcast b a.
Proof.
  unfold add_broadcast.
  destruct (decide (length a = length b)) as [Hab|Hab].
  - rewrite decide_True by congruence. now rewrite zip_with_Rplus_comm.
  - rewrite decide_False by congruence.
    destruct a as [|u [|u' a]], b as [|v [|v' b]]; cbn [length] in Hab;
      try congruence; cbn -[map]; try reflexivity;
      f_equal; apply map_ext; intros; lra.
Qed.

Lemma for_each_error_kind {X Y} (f : X -> result Y) (l : list X) (k e : exn) :
  (forall a e', f a = Raise e' -> e' = k) -> for_each f l = Raise e -> e = k.
Proof.
  intros Hf. induction l as [|a l IH]; cbn; [discriminate|].
  destruct (f a) as [b|e'] eqn:Hfa; cbn.
  - destruct (for_each f l) as [bs|e'']; cbn; [discriminate|].
    intros [= <-]. now apply IH.
  - intros [= <-]. eapply Hf, Hfa.
Qed.

Lemma getidx_error {X} (a : list X) i e : getidx a i = Raise e -> e = IndexError.
Proof. unfold getidx. destruct (a !! i); [discriminate | now intros [= <-]]. Qed.

(** Reading entries of the indicator matrix can only fail with an
    IndexError. *)
Lemma pick_at_error x index rows cols e :
  pick_at x index rows cols = Raise e -> e = IndexError.
Proof.
  unfold pick_at, take_indices.
  destruct (for_each (getidx index) cols) as [idx|e'] eqn:Hidx; cbn -[pick].
  - unfold pick. destruct (decide _); [|now intros [= <-]].
    apply for_each_error_kind. intros [r c] e'. cbn.
    destruct (getidx x r) as [row|e''] eqn:Hrow; cbn.
    + apply getidx_error.
    + intros [= <-]. eapply getidx_error, Hrow.
  - intros [= <-]. eapply for_each_error_kind, Hidx.
    intros a e''. apply getidx_error.
Qed.

(** The link-level statistic [x[i, index[j]] + x[j, index[i]]] does not
    depend on which end of the candidate link is called [i]. *)
Lemma linklevel_symmetric x index node_i node_j :
  pick_sum x index node_i node_j node_j node_i
  = pick_sum x index node_j node_i node_i node_j.
Proof.
  unfold pick_sum.
  destruct (pick_at x index node_i node_j) as [a|e1] eqn:Ha;
    destruct (pick_at x index node_j node_i) as [b|e2] eqn:Hb;
    cbn [mbind result_bind].
  - apply add_broadcast_comm.
  - reflexivity.
  - reflexivity.
  - apply pick_at_error in Ha, Hb. congruence.
Qed.

(** So does the node-level statistic [x[i, index[i]] + x[j, index[j]]]. *)
Lemma nodelevel_symmetric x index node_i node_j :
  pick_sum x index node_i node_i node_j node_j
  = pick_sum x index node_j node_j node_i node_i.
Proof.
  unfold pick_sum.
  destruct (pick_at x index node_i node_i) as [a|e1] eqn:Ha;
    destruct (pick_at x index node_j node_j) as [b|e2] eqn:Hb;
    cbn [mbind result_bind].
  - apply add_broadcast_comm.
  - reflexivity.
  - reflexivity.
  - apply pick_at_error in Ha, Hb. congruence.
Qed.

(** *** Message passing does not depend on the order of the edges *)

Lemma vadd_swap a b c : vadd a (vadd b c) = vadd b (vadd a c).
Proof.
  unfold vadd. revert b c. induction a as [|u a IH]; intros [|v b] [|t c];
    cbn; try reflexivity.
  rewrite IH. f_equal. lra.
Qed.

Lemma vsum_permutation w l l' : l ≡ₚ l' -> vsum w l = vsum w l'.
Proof.
  unfold vsum. induction 1 as [|v l l' _ IH|u v l|l1 l2 l3 _ IH1 _ IH2]; cbn.
  - reflexivity.
  - now rewrite IH.
  - apply vadd_swap.
  - congruence.
Qed.

Lemma take_indices_map {X Z} (a : list X) (g : Z -> nat) (dflt : X) (z : list Z) :
  Forall (fun e => (g e < length a)%nat) z ->
  take_indices a (map g z) = Ok (map (fun e => default dflt (a !! g e)) z).
Proof.
  induction 1 as [|e z He _ IH]; [reflexivity|].
  destruct (getidx_ok a (g e) He) as (v & Hv & Hlk).
  unfold take_indices in *. cbn -[getidx]. rewrite Hv. cbn -[getidx].
  rewrite IH. cbn. now rewrite Hlk.
Qed.

Lemma take_indices_outside {X Z} (a : list X) (g : Z -> nat) (z : list Z) :
  ~ Forall (fun e => (g e < length a)%nat) z ->
  take_indices a (map g z) = Raise IndexError.
Proof.
  induction z as [|e z IH]; intros H; [destruct H; constructor|].
  unfold take_indices in *. cbn -[getidx].
  destruct (decide (g e < length a)%nat) as [He|He].
  - destruct (getidx_ok a (g e) He) as (v & -> & _). cbn -[getidx].
    rewrite IH; [reflexivity|]. intros Hz. apply H. now constructor.
  - unfold getidx. rewrite (proj2 (lookup_ge_None a (g e))) by lia. reflexivity.
Qed.

Lemma group_map {X Z} (f : Z -> X) (g : Z -> nat) (z : list Z) d :
  group (map f z) (map g z) d = map f (filter (fun e => g e = d) z).
Proof.
  unfold group. induction z as [|e z IH]; [reflexivity|].
  cbn [map zip_with]. rewrite !filter_cons. cbn [fst snd].
  destruct (decide (g e = d)); cbn; [f_equal|]; exact IH.
Qed.

Lemma zip_with_map_same {X Y V Z} (h : X -> Y -> V) (f : Z -> X) (g : Z -> Y)
    (z : list Z) :
  zip_with h (map f z) (map g z) = map (fun e => h (f e) (g e)) z.
Proof. induction z as [|e z IH]; cbn; [reflexivity | now rewrite IH]. Qed.

(** The message an edge of weight [e.2] sends from its source. *)
Definition message_of (x : list (list R)) (e : nat * nat * R) : list R :=
  vscale e.2 (default [] (x !! e.1.1)).

(** [propagate] on a list of weighted edges, in closed form. *)
Lemma propagate_weighted (z : list (nat * nat * R)) x :
  propagate z.*1 x z.*2
  = if decide (Forall (fun e : nat * nat * R => (e.1.1 < length x)%nat) z)
    then if decide (Forall (fun e : nat * nat * R => (e.1.2 < length x)%nat) z)
         then Ok (map (fun d =>
                    vsum (width x)
                         (map (message_of x)
                              (filter (fun e : nat * nat * R => e.1.2 = d) z)))
                  (seq 0 (length x)))
         else Raise ValueError
    else Raise IndexError.
Proof.
  unfold propagate.
  replace (z.*1.*1) with (map (fun e : nat * nat * R => e.1.1) z)
    by (induction z as [|? ? IH]; cbn; [|rewrite IH]; reflexivity).
  replace (z.*1.*2) with (map (fun e : nat * nat * R => e.1.2) z)
    by (induction z as [|? ? IH]; cbn; [|rewrite IH]; reflexivity).
  destruct (decide (Forall (fun e : nat * nat * R => (e.1.1 < length x)%nat) z))
    as [Hsrc|Hsrc].
  - rewrite (take_indices_map x _ [] z Hsrc). cbn -[message].
    unfold message. rewrite decide_True by now rewrite length_fmap, length_map.
    cbn [mbind result_bind].
    rewrite (decide_ext _ (Forall (fun e : nat * nat * R => (e.1.2 < length x)%nat) z))
      by apply Forall_fmap.
    destruct (decide _); [|reflexivity].
    f_equal. apply map_ext. intros d.
    change (z.*2) with (map (fun e : nat * nat * R => e.2) z).
    rewrite zip_with_map_same, group_map. reflexivity.
  - now rewrite (take_indices_outside x _ z Hsrc).
Qed.

(** Storing the edges, with their weights, in another order changes nothing
    in the result of a propagation step. *)
Lemma propagate_permutation (z z' : list (nat * nat * R)) x :
  z ≡ₚ z' -> propagate z.*1 x z.*2 = propagate z'.*1 x z'.*2.
Proof.
  intros Hz. rewrite !propagate_weighted.
  rewrite (decide_ext (Forall _ z) (Forall (fun e : nat * nat * R => (e.1.1 < length x)%nat) z'))
    by now rewrite Hz.
  destruct (decide _); [|reflexivity].
  rewrite (decide_ext (Forall _ z) (Forall (fun e : nat * nat * R => (e.1.2 < length x)%nat) z'))
    by now rewrite Hz.
  destruct (decide _); [|reflexivity].
  f_equal. apply map_ext. intros d. apply vsum_permutation.
  now rewrite Hz.
Qed.

(** *** The plus-graph weights and [forward] *)

Section Encoder.

Variables (hidden_channels heads walk_len : nat).
Variables (lin_key1 lin_query1 lin_key2 lin_query2 : list R -> list R).
Variables (dropout_query dropout_key : list (list R) -> list (list R)).
Variable softmax_dim : list (list R) -> nat -> result (list (list R)).

Local Abbreviation attention_mlp :=
  (attention_mlp hidden_channels heads lin_key1 lin_query1 lin_key2 lin_query2
                 dropout_query dropout_key).
Local Abbreviation weight_encoder :=
  (weight_encoder hidden_channels heads lin_key1 lin_query1 lin_key2 lin_query2
                  dropout_query dropout_key softmax_dim).
Local Abbreviation forward :=
  (forward hidden_channels heads walk_len lin_key1 lin_query1 lin_key2 lin_query2
           dropout_query dropout_key softmax_dim).

(** The scores come as one column per head, one entry per edge. *)
Lemma attention_mlp_columns x edge_index w :
  attention_mlp x edge_index = Ok w ->
  length w = heads /\ Forall (fun c => length c = length edge_index) w.
Proof.
  unfold WalkPool.attention_mlp. intros H.
  apply bind_ok in H as (q & Hq & H). apply bind_ok in H as (k & Hk & [= <-]).
  apply for_each_length in Hq, Hk. rewrite length_fmap in Hq, Hk.
  split; [now rewrite length_map, length_seq|].
  apply Forall_fmap, Forall_true. intros h. cbn.
  rewrite length_zip_with. lia.
Qed.

Lemma select_rows_returns n (columns : list (list R)) mask :
  length mask = n -> Forall (fun c => length c = n) columns ->
  returns (select_rows n columns mask).
Proof.
  intros Hm Hc. unfold select_rows. rewrite decide_True by exact Hm.
  induction Hc as [|c columns Hc _ [r IH]]; [eexists; reflexivity|].
  assert (Hsel : returns (mask_select c mask)).
  { unfold mask_select. rewrite decide_True by congruence. eexists; reflexivity. }
  destruct Hsel as [b Hb]. cbn. rewrite Hb. cbn.
  rewrite IH. eexists; reflexivity.
Qed.

(** With two edges or more, the weight encoder stops at the softmax call. *)
Lemma weight_encoder_type_error x edge_index edge_mask :
  returns (attention_mlp x edge_index) ->
  length edge_mask = length edge_index ->
  (2 <= length edge_index)%nat ->
  weight_encoder x edge_index edge_mask = Raise TypeError.
Proof.
  intros [w Hw] Hmask HE. unfold WalkPool.weight_encoder.
  fold attention_mlp. rewrite Hw. cbn -[select_rows torch_max F_softmax].
  destruct (attention_mlp_columns _ _ _ Hw) as [_ Hcols].
  destruct (select_rows_returns (length edge_index) w (map negb edge_mask))
    as [om ->]; [now rewrite length_map | exact Hcols |].
  cbn -[torch_max F_softmax].
  destruct edge_index as [|e1 [|e2 es]]; cbn in HE; try lia.
  reflexivity.
Qed.

(** Whatever the input, the weight encoder returns only if there is exactly
    one edge. *)
Lemma weight_encoder_returns_one_edge x edge_index edge_mask :
  returns (weight_encoder x edge_index edge_mask) -> length edge_index = 1%nat.
Proof.
  intros [r Hr]. unfold WalkPool.weight_encoder in Hr.
  apply bind_ok in Hr as (w & _ & Hr). apply bind_ok in Hr as (om & _ & Hr).
  apply bind_ok in Hr as (m & _ & Hr). apply bind_ok in Hr as (wp & Hwp & _).
  unfold F_softmax in Hwp.
  destruct edge_index as [|e1 [|e2 es]]; cbn in Hwp; try discriminate.
  reflexivity.
Qed.

Lemma forward_type_error x edge_index edge_mask batch :
  returns (attention_mlp x edge_index) ->
  length edge_mask = length edge_index ->
  (2 <= length edge_index)%nat ->
  forward x edge_index edge_mask batch = Raise TypeError.
Proof.
  intros Ha Hm HE. unfold WalkPool.forward.
  fold weight_encoder. now rewrite weight_encoder_type_error.
Qed.

Lemma take_indices_returns {X} (a : list X) (idx : list nat) :
  Forall (fun j => (j < length a)%nat) idx -> returns (take_indices a idx).
Proof.
  induction 1 as [|j idx Hj _ [l IH]]; [eexists; reflexivity|].
  destruct (lookup_lt_is_Some_2 a j Hj) as [v Hv].
  assert (Hg : getidx a j = Ok v) by (unfold getidx; now rewrite Hv).
  unfold take_indices in *. cbn -[getidx]. rewrite Hg. cbn -[getidx].
  rewrite IH. eexists; reflexivity.
Qed.

(** The scores are computed whenever the edges join nodes of [x]; dropout
    may change values, not the number of rows. *)
Lemma attention_mlp_returns x edge_index :
  (forall m, length (dropout_query m) = length m) ->
  (forall m, length (dropout_key m) = length m) ->
  Forall (fun e : nat * nat => (e.1 < length x)%nat /\ (e.2 < length x)%nat)
         edge_index ->
  returns (attention_mlp x edge_index).
Proof using Type.
  intros Hq Hk He. unfold WalkPool.attention_mlp.
  destruct (take_indices_returns
              (map lin_key2 (dropout_query (map (map (leaky_relu 0.2)) (map lin_key1 x))))
              edge_index.*1) as [q ->].
  { rewrite length_map, Hq, !length_map. apply Forall_fmap.
    eapply Forall_impl; [exact He|]. cbn. intros e [H1 _]. exact H1. }
  destruct (take_indices_returns
              (map lin_query2 (dropout_key (map (map (leaky_relu 0.2)) (map lin_query1 x))))
              edge_index.*2) as [k ->].
  { rewrite length_map, Hk, !length_map. apply Forall_fmap.
    eapply Forall_impl; [exact He|]. cbn. intros e [_ H2]. exact H2. }
  eexists; reflexivity.
Qed.

(** C1 (the code departs from the claim). With two edges or more, joining
    nodes of [x], and one mask entry per edge, the weight encoder produces
    no plus-graph weights: [F.softmax] receives the destination tensor
    where it expects a dimension and the call raises a TypeError. *)
Theorem plus_weights_type_error x edge_index edge_mask :
  (forall m, length (dropout_query m) = length m) ->
  (forall m, length (dropout_key m) = length m) ->
  Forall (fun e : nat * nat => (e.1 < length x)%nat /\ (e.2 < length x)%nat)
         edge_index ->
  length edge_mask = length edge_index ->
  (2 <= length edge_index)%nat ->
  weight_encoder x edge_index edge_mask = Raise TypeError.
Proof.
  intros Hq Hk He Hm HE.
  apply weight_encoder_type_error; [|exact Hm|exact HE].
  now apply attention_mlp_returns.
Qed.


End Encoder.

(** *** The ring of the specification's end-to-end scenario *)

(** Four nodes on a ring, every edge stored in both directions, and the
    candidate pair 0-2 at the end, masked out; one graph, one head, walks of
    length 2, identity layers. *)
Definition ring_edges : list (nat * nat) :=
  [(0, 1); (1, 0); (1, 2); (2, 1); (2, 3); (3, 2); (3, 0); (0, 3); (0, 2); (2, 0)]%nat.
Definition ring_edges_swapped : list (nat * nat) :=
  [(0, 1); (1, 0); (1, 2); (2, 1); (2, 3); (3, 2); (3, 0); (0, 3); (2, 0); (0, 2)]%nat.
Definition ring_mask : list bool :=
  [true; true; true; true; true; true; true; true; false; false].
Definition ring_x : list (list R) := [[1; 0]; [0; 1]; [1; 1]; [0; 0]].
Definition ring_batch : list nat := [0; 0; 0; 0]%nat.

(** The identity as a linear layer, and dropout outside training. *)
Definition identity_layer (v : list R) : list R := v.
Definition no_dropout (m : list (list R)) : list (list R) := m.

(** *** The minus-graph weights on three nodes *)






Definition ring_forward (softmax_dim : list (list R) -> nat -> result (list (list R)))
    (edge_index : list (nat * nat)) : result (list (list R)) :=
  forward 2 1 2 identity_layer identity_layer identity_layer identity_layer
          no_dropout no_dropout softmax_dim ring_x edge_index ring_mask ring_batch.

(** Past the weight encoder the ring meets every requirement of
    [walk_features_shape]: handed weights of the right shape, lines 993-1081
    return one vector of width [1 * (5 * 2 + 1)]. *)
Example ring_walk_features_shape (wp wm : list R) (om : list R) :
  length wp = 10%nat -> length wm = 10%nat -> length om = 2%nat ->
  exists feats,
    walk_features 1 2 [wp] [wm] [om] ring_edges ring_mask ring_batch = Ok feats
    /\ is_matrix 1 11 feats.
Proof.
  intros Hwp Hwm Hom.
  apply (walk_features_shape 1 2 [wp] [wm] [om] ring_edges ring_mask ring_batch).
  - intros b Hb. cbn in Hb. replace b with 0%nat by lia. left.
  - unfold ring_edges, ring_batch. repeat constructor.
  - reflexivity.
  - reflexivity.
  - reflexivity.
  - now repeat constructor.
  - reflexivity.
  - now repeat constructor.
  - reflexivity.
  - now repeat constructor.
Qed.

Lemma plus_weights_type_error_witness :
  weight_encoder 2 1 identity_layer identity_layer identity_layer identity_layer
                 no_dropout no_dropout (fun _ _ => Raise IndexError)
                 ring_x ring_edges ring_mask
  = Raise TypeError.
Proof.
  apply (plus_weights_type_error 2 1 identity_layer identity_layer identity_layer
           identity_layer no_dropout no_dropout (fun _ _ => Raise IndexError)
           ring_x ring_edges ring_mask).
  - intros; reflexivity.
  - intros; reflexivity.
  - unfold ring_edges, ring_x. repeat constructor.
  - reflexivity.
  - unfold ring_edges. cbn. lia.
Defined.

(** C5 (the code departs from the claim). On the ring scenario, a valid
    batch of one graph with one candidate link, [forward] returns no feature
    vector: it stops with the TypeError of the weight encoder. *)
Theorem forward_ring_type_error softmax_dim :
  ring_forward softmax_dim ring_edges = Raise TypeError.
Proof.
  unfold ring_forward. apply forward_type_error.
  - apply attention_mlp_returns; [intros; reflexivity | intros; reflexivity |].
    unfold ring_edges, ring_x. repeat constructor.
  - reflexivity.
  - unfold ring_edges. cbn. lia.
Qed.

(** C9 (the code departs from the claim). With the candidate pair stored as
    0->2, 2->0 or as 2->0, 0->2, [forward] produces neither [omega] nor
    link-level statistics: both calls stop with the same TypeError. *)
Theorem forward_swapped_pair_type_error softmax_dim :
  ring_forward softmax_dim ring_edges = Raise TypeError
  /\ ring_forward softmax_dim ring_edges_swapped = Raise TypeError.
Proof.
  unfold ring_forward. split; apply forward_type_error;
    try reflexivity; try (cbn; lia);
    (apply attention_mlp_returns; [intros; reflexivity | intros; reflexivity |];
     unfold ring_edges, ring_edges_swapped, ring_x; repeat constructor).
Qed.

End WalkPoolSpec.

(** ** [BaseGraph]: feature storage *)

Module BaseGraphSpec.
Import Tensor Graph.

Lemma from_numpy_graph (a : tensor) (n : nat) :
  shape_at a 0 = Ok n ->
  from_numpy a
  = Ok (_set_A (_set_node_num (BaseGraph_init "default" "dense" false None None) n)
               (Some a)).
Proof. intros H. unfold from_numpy, from_dense_A. rewrite H. reflexivity. Qed.

(** X1. A graph made by [from_numpy] carries no features: reading them is
    a KeyError. Once [set_node_feat] has stored a tensor with one row per
    node, [get_node_features] returns that tensor; the adjacency and the
    node count are as before, and the edge features are still missing. *)
Theorem node_features_round_trip (a t : tensor) (n : nat) :
  shape_at a 0 = Ok n -> shape_at t 0 = Ok n ->
  exists g g',
    from_numpy a = Ok g
    /\ get_node_features g = Raise KeyError
    /\ set_node_feat g (Some t) = Ok g'
    /\ get_node_features g' = Ok (Some t)
    /\ A g' = Some a
    /\ node_num g' = Some n
    /\ get_edge_features g' = Raise KeyError.
Proof.
  intros Ha Ht. eexists. eexists.
  split; [apply from_numpy_graph; exact Ha|].
  split; [reflexivity|].
  split.
  - unfold set_node_feat, node_feat_shape_ok. cbn. rewrite Ht. cbn.
    rewrite bool_decide_eq_true_2 by reflexivity. reflexivity.
  - repeat split; reflexivity.
Qed.

Lemma node_features_round_trip_witness :
  exists g g',
    from_numpy (of_rows [[0; 1]; [1; 0]]%Q) = Ok g
    /\ get_node_features g = Raise KeyError
    /\ set_node_feat g (Some (of_rows [[3]; [4]]%Q)) = Ok g'
    /\ get_node_features g' = Ok (Some (of_rows [[3]; [4]]%Q))
    /\ A g' = Some (of_rows [[0; 1]; [1; 0]]%Q)
    /\ node_num g' = Some 2
    /\ get_edge_features g' = Raise KeyError.
Proof.
  apply (node_features_round_trip (of_rows [[0; 1]; [1; 0]]%Q)
                                  (of_rows [[3]; [4]]%Q) 2);
    reflexivity.
Defined.

(** X2. On a graph that is not a batch, [set_node_feat] compares the
    number of rows of the tensor with [node_num] and nothing else: equal,
    the tensor is stored under ['nfeat']; different (or [node_num] not
    set), the call is an AssertionError and nothing is stored. A tensor
    without dimensions is an IndexError, [None] an AttributeError. *)
Theorem set_node_feat_checks_rows (g : BaseGraph) (t : tensor) :
  batch g = false ->
  (forall n, shape_at t 0 = Ok n -> node_num g = Some n ->
     set_node_feat g (Some t) = Ok (set_ndata g "nfeat" (Some t)))
  /\ (forall n, shape_at t 0 = Ok n -> node_num g <> Some n ->
        set_node_feat g (Some t) = Raise AssertionError)
  /\ (shape t = [] -> set_node_feat g (Some t) = Raise IndexError)
  /\ set_node_feat g None = Raise AttributeError.
Proof.
  intros Hb. unfold set_node_feat, node_feat_shape_ok. rewrite Hb. cbn.
  repeat split.
  - intros n Hn Hg. rewrite Hn. cbn.
    rewrite bool_decide_eq_true_2 by (symmetry; exact Hg). reflexivity.
  - intros n Hn Hg. rewrite Hn. cbn.
    rewrite bool_decide_eq_false_2 by (intros E; apply Hg; symmetry; exact E).
    reflexivity.
  - intros Hs. unfold shape_at. rewrite Hs. reflexivity.
Qed.

Definition two_nodes : BaseGraph :=
  _set_A (_set_node_num (BaseGraph_init "default" "dense" false None None) 2)
         (Some (of_rows [[0; 1]; [1; 0]]%Q)).

Lemma set_node_feat_checks_rows_witness :
  (forall n, shape_at (of_rows [[3]; [4]; [5]]%Q) 0 = Ok n ->
     node_num two_nodes = Some n ->
     set_node_feat two_nodes (Some (of_rows [[3]; [4]; [5]]%Q))
     = Ok (set_ndata two_nodes "nfeat" (Some (of_rows [[3]; [4]; [5]]%Q))))
  /\ (forall n, shape_at (of_rows [[3]; [4]; [5]]%Q) 0 = Ok n ->
        node_num two_nodes <> Some n ->
        set_node_feat two_nodes (Some (of_rows [[3]; [4]; [5]]%Q))
        = Raise AssertionError)
  /\ (shape (of_rows [[3]; [4]; [5]]%Q) = [] ->
      set_node_feat two_nodes (Some (of_rows [[3]; [4]; [5]]%Q))
      = Raise IndexError)
  /\ set_node_feat two_nodes None = Raise AttributeError.
Proof.
  apply (set_node_feat_checks_rows two_nodes (of_rows [[3]; [4]; [5]]%Q)).
  reflexivity.
Defined.

(** X3. [set_edge_feat] checks nothing about the tensor it is given and
    does not interfere with the node features: storing node features and
    then edge features gives the graph that storing them in the other
    order gives, with the same exception when the node features are
    refused. *)
Theorem feature_setters_commute (g : BaseGraph) (nf : option tensor) (ef : tensor) :
  (g1 ← set_node_feat g nf; set_edge_feat g1 (Some ef))
  = (g1 ← set_edge_feat g (Some ef); set_node_feat g1 nf)
  /\ (forall g', set_edge_feat g (Some ef) = Ok g' ->
        get_edge_features g' = Ok (Some ef)
        /\ get_node_features g' = get_node_features g).
Proof.
  split.
  - destruct nf as [t|]; [|reflexivity].
    unfold set_edge_feat. cbn [mbind result_bind].
    unfold set_node_feat, node_feat_shape_ok. cbn [batch node_num batch_num set_edata].
    destruct (batch g).
    + cbn. destruct (shape_at t 0) as [s0|e]; cbn; [|reflexivity].
      destruct (bool_decide (Some s0 = batch_num g)); cbn; [|reflexivity].
      destruct (shape_at t 1) as [s1|e]; cbn; [|reflexivity].
      destruct (bool_decide (Some s1 = node_num g)); reflexivity.
    + cbn. destruct (shape_at t 0) as [s0|e]; cbn; [|reflexivity].
      destruct (bool_decide (Some s0 = node_num g)); reflexivity.
  - intros g' [= <-]. split; [|reflexivity].
    unfold get_edge_features, getitem. cbn. rewrite lookup_insert_eq. reflexivity.
Qed.

(** ** [BaseGraphUtils]: the two constructors of batches *)

(** X4. [from_pyg_graph] returns for no graph, whatever its nodes, edges,
    features and labels: line 126 uses [graph.num_nodes] as the integer it
    is, and line 133 calls it, [graph.num_nodes()], which is a TypeError.
    Nothing before that line raises, an edge to a node outside the graph
    included. *)
Theorem from_pyg_graph_never_returns (graph : pyg_Data) :
  from_pyg_graph graph = Raise TypeError
  /\ (forall g, from_pyg_graph graph <> Ok g).
Proof.
  assert (H : from_pyg_graph graph = Raise TypeError).
  { unfold from_pyg_graph, sparse_coo_tensor. cbn [mbind result_bind].
    unfold call_int. reflexivity. }
  split; [exact H|]. intros g Hg. rewrite H in Hg. discriminate.
Qed.

Lemma init_batch_graph_raises fdl (graphs : list BaseGraph) :
  raises (init_batch_graph fdl graphs).
Proof.
  destruct graphs as [|g1 rest]; [eexists; reflexivity|].
  unfold init_batch_graph. destruct (select_path (g1 :: rest)).
  - unfold sparse_union. destruct (fdl _) as [b|e]; cbn [mbind result_bind].
    + apply GraphSpec.from_pyg_graph_raises.
    + eexists; reflexivity.
  - apply GraphSpec.dense_stack_raises.
Qed.

(** X5. [init_batch_graph] returns a batch for no list of graphs,
    whatever [Batch.from_data_list] does: the empty list fails the first
    assertion, the sparse branch ends in [from_pyg_graph] and the dense
    branch in the assertion of [set_node_feat]. *)
Theorem init_batch_graph_never_returns fdl (graphs : list BaseGraph) :
  raises (init_batch_graph fdl graphs)
  /\ (forall b, init_batch_graph fdl graphs <> Ok b)
  /\ init_batch_graph fdl [] = Raise AssertionError.
Proof.
  split; [apply init_batch_graph_raises|].
  split; [|reflexivity].
  intros b Hb. destruct (init_batch_graph_raises fdl graphs) as [e He].
  rewrite He in Hb. discriminate.
Qed.

End BaseGraphSpec.

(** ** [lap_positional_encoding]: what it leaves alone *)

Module EncodingSpec.
Import Tensor Graph.

Section Encoder.

Variable lap : tensor -> result (list (list Q)).
Variable eig : list (list Q) -> result (list complex * list (list complex)).

(** The graph the encoder answers with, for whatever it computed. *)
Lemma encoder_result g k g' :
  lap_positional_encoding lap eig g k = Ok g' ->
  exists P, g' = set_ndata (set_ndata g "pos_enc" (Some P)) "eigvec" (Some P).
Proof.
  unfold lap_positional_encoding. intros H.
  apply bind_ok in H as (a & _ & H).
  apply bind_ok in H as (L & _ & H).
  apply bind_ok in H as (wv & _ & H).
  apply bind_ok in H as (w' & _ & H).
  apply bind_ok in H as (v' & _ & H).
  injection H as <-. eexists. reflexivity.
Qed.

(** X6. When the Laplacian and its eigenpairs are delivered, the encoder
    returns the graph it was given with two entries of [ndata] written,
    ['pos_enc'] and ['eigvec'], which hold the same tensor. Every other
    entry of [ndata] (the node features among them), the adjacency, the
    node count, the edge data and the label are as they were. *)
Theorem lap_positional_encoding_frame g k a L w v :
  A g = Some a -> lap a = Ok L -> eig L = Ok (w, v) ->
  Forall (fun row => length row = length w) v ->
  exists g' P,
    lap_positional_encoding lap eig g k = Ok g'
    /\ ndata g' !! "pos_enc" = Some (Some P)
    /\ ndata g' !! "eigvec" = Some (Some P)
    /\ (forall key, key <> "pos_enc" -> key <> "eigvec" ->
          ndata g' !! key = ndata g !! key)
    /\ get_node_features g' = get_node_features g
    /\ A g' = A g /\ node_num g' = node_num g
    /\ edata g' = edata g /\ label g' = label g.
Proof.
  intros HA HL He Hv.
  destruct (SpectralSpec.encoder_returns lap eig g k a L w v HA HL He Hv)
    as (rows & Hr & _).
  eexists. eexists. split; [exact Hr|].
  split; [apply SpectralSpec.pos_enc_stored|].
  split; [cbn; apply lookup_insert_eq|].
  split.
  - intros key H1 H2. cbn.
    rewrite lookup_insert_ne by (intros E; apply H2; symmetry; exact E).
    rewrite lookup_insert_ne by (intros E; apply H1; symmetry; exact E).
    reflexivity.
  - split; [|repeat split; reflexivity].
    unfold get_node_features, getitem. cbn.
    rewrite !lookup_insert_ne by discriminate. reflexivity.
Qed.

(** X7. Encoding a graph that is already encoded replaces the earlier
    encoding: a second call with dimension [k2] gives what a single call
    with [k2] on the original graph gives, whatever the first dimension
    was. In particular the call is idempotent. *)
Theorem lap_positional_encoding_overwrites g k1 k2 a L w v :
  A g = Some a -> lap a = Ok L -> eig L = Ok (w, v) ->
  Forall (fun row => length row = length w) v ->
  exists g1,
    lap_positional_encoding lap eig g k1 = Ok g1
    /\ lap_positional_encoding lap eig g1 k2 = lap_positional_encoding lap eig g k2
    /\ returns (lap_positional_encoding lap eig g k2).
Proof.
  intros HA HL He Hv.
  destruct (SpectralSpec.encoder_returns lap eig g k1 a L w v HA HL He Hv)
    as (rows1 & Hr1 & _).
  destruct (SpectralSpec.encoder_returns lap eig g k2 a L w v HA HL He Hv)
    as (rows2 & Hr2 & _).
  eexists. split; [exact Hr1|]. split; [|eexists; exact Hr2].
  clear Hr1 Hr2. unfold lap_positional_encoding. cbn [A set_ndata].
  rewrite HA. cbn [mbind result_bind]. rewrite HL. cbn [mbind result_bind].
  rewrite He. cbn [mbind result_bind fst snd].
  destruct (take_indices w (argsort w)); cbn [mbind result_bind]; [|reflexivity].
  destruct (for_each _ v); cbn [mbind result_bind mret result_ret]; [|reflexivity].
  f_equal. unfold set_ndata. cbn. f_equal.
  apply map_eq. intros key.
  destruct (decide (key = "eigvec")) as [->|N1].
  - rewrite !lookup_insert_eq. reflexivity.
  - rewrite !(lookup_insert_ne _ "eigvec") by congruence.
    destruct (decide (key = "pos_enc")) as [->|N2].
    + rewrite !lookup_insert_eq. reflexivity.
    + rewrite !lookup_insert_ne by congruence. reflexivity.
Qed.

End Encoder.

Lemma lap_positional_encoding_frame_witness :
  exists g' P,
    lap_positional_encoding SpectralSpec.K2_laplacian SpectralSpec.K2_eig
                            SpectralSpec.K2 1 = Ok g'
    /\ ndata g' !! "pos_enc" = Some (Some P)
    /\ ndata g' !! "eigvec" = Some (Some P)
    /\ (forall key, key <> "pos_enc" -> key <> "eigvec" ->
          ndata g' !! key = ndata SpectralSpec.K2 !! key)
    /\ get_node_features g' = get_node_features SpectralSpec.K2
    /\ A g' = A SpectralSpec.K2 /\ node_num g' = node_num SpectralSpec.K2
    /\ edata g' = edata SpectralSpec.K2 /\ label g' = label SpectralSpec.K2.
Proof.
  apply (lap_positional_encoding_frame SpectralSpec.K2_laplacian SpectralSpec.K2_eig
           SpectralSpec.K2 1 SpectralSpec.K2_adjacency
           [[1; -1]; [-1; 1]]%Q [mkC 2 0; mkC 0 0]
           [[mkC SpectralSpec.r2 0; mkC SpectralSpec.r2 0];
            [mkC (- SpectralSpec.r2) 0; mkC SpectralSpec.r2 0]]);
    [reflexivity | reflexivity | reflexivity | repeat constructor].
Defined.

Lemma lap_positional_encoding_overwrites_witness :
  exists g1,
    lap_positional_encoding SpectralSpec.K2_laplacian SpectralSpec.K2_eig
                            SpectralSpec.K2 1 = Ok g1
    /\ lap_positional_encoding SpectralSpec.K2_laplacian SpectralSpec.K2_eig g1 0
       = lap_positional_encoding SpectralSpec.K2_laplacian SpectralSpec.K2_eig
                                 SpectralSpec.K2 0
    /\ returns (lap_positional_encoding SpectralSpec.K2_laplacian SpectralSpec.K2_eig
                                        SpectralSpec.K2 0).
Proof.
  apply (lap_positional_encoding_overwrites SpectralSpec.K2_laplacian
           SpectralSpec.K2_eig SpectralSpec.K2 1 0 SpectralSpec.K2_adjacency
           [[1; -1]; [-1; 1]]%Q [mkC 2 0; mkC 0 0]
           [[mkC SpectralSpec.r2 0; mkC SpectralSpec.r2 0];
            [mkC (- SpectralSpec.r2) 0; mkC SpectralSpec.r2 0]]);
    [reflexivity | reflexivity | reflexivity | repeat constructor].
Defined.

End EncodingSpec.

(** ** [GraphDataset] *)

Module DatasetSpec.
Import Tensor Graph Dataset.

Lemma np_index_wraps (n : nat) (i : Z) :
  (- Z.of_nat n <= i < Z.of_nat n)%Z ->
  DataRecord.np_index n i = Ok (Z.to_nat (i mod Z.of_nat n))
  /\ Z.to_nat (i mod Z.of_nat n) < n.
Proof.
  intros Hi. unfold DataRecord.np_index.
  destruct (decide (0 <= i < Z.of_nat n)%Z) as [H|H].
  - rewrite Z.mod_small by exact H. split; [reflexivity | lia].
  - rewrite decide_True by lia.
    replace (i mod Z.of_nat n)%Z with (i + Z.of_nat n)%Z; [split; [reflexivity | lia]|].
    symmetry. rewrite <- (Z.mod_add i 1 (Z.of_nat n)) by lia.
    rewrite Z.mul_1_l. apply Z.mod_small. lia.
Qed.

Lemma np_index_outside (n : nat) (i : Z) :
  ~ (- Z.of_nat n <= i < Z.of_nat n)%Z ->
  DataRecord.np_index n i = Raise IndexError.
Proof.
  intros Hi. unfold DataRecord.np_index.
  rewrite decide_False by lia. rewrite decide_False by lia. reflexivity.
Qed.

Lemma shape_at_rows (t : tensor) (n : nat) :
  shape_at t 0 = Ok n -> exists ts, t = Stack ts /\ length ts = n.
Proof.
  destruct t as [q|ts]; unfold shape_at; cbn; [discriminate|].
  intros [= <-]. exists ts. split; reflexivity.
Qed.

(** X8. A dataset that [__init__] accepted has one label per graph, so
    [__getitem__] answers every position of the list of graphs with the
    graph and the label at that position; negative positions count from
    the end as Python's do, and any other position is an IndexError. *)
Theorem dataset_getitem (xs : list BaseGraph) (ys : tensor) (ds : GraphDataset)
    (i : Z) :
  GraphDataset_init xs ys = Ok ds ->
  __len__ ds = length xs
  /\ ((- Z.of_nat (length xs) <= i < Z.of_nat (length xs))%Z ->
      exists g l,
        __getitem__ ds i = Ok (g, l)
        /\ xs !! Z.to_nat (i mod Z.of_nat (length xs)) = Some g
        /\ slice ys (Z.to_nat (i mod Z.of_nat (length xs))) = Some l)
  /\ (~ (- Z.of_nat (length xs) <= i < Z.of_nat (length xs))%Z ->
      __getitem__ ds i = Raise IndexError).
Proof.
  unfold GraphDataset_init. intros H.
  apply bind_ok in H as (n & Hn & H).
  destruct (decide (length xs = n)) as [Hlen|]; [|discriminate].
  injection H as <-.
  apply shape_at_rows in Hn as (ts & -> & Hts).
  split; [reflexivity|]. unfold __getitem__, list_index, tensor_index, list_index.
  cbn [x y slice]. split.
  - intros Hi. destruct (np_index_wraps (length xs) i Hi) as [Hk Hlt].
    rewrite Hts, <- Hlen, Hk. cbn [mbind result_bind]. unfold getidx.
    destruct (lookup_lt_is_Some_2 xs _ Hlt) as [g Hg].
    destruct (lookup_lt_is_Some_2 ts (Z.to_nat (i mod Z.of_nat (length xs))))
      as [l Hl]; [lia|].
    rewrite Hg, Hl. cbn. exists g, l. repeat split; reflexivity.
  - intros Hi. rewrite (np_index_outside _ _ Hi). reflexivity.
Qed.

Definition three_graphs : list BaseGraph :=
  [SpectralSpec.K1; SpectralSpec.K2; SpectralSpec.K1].

Definition three_labels : tensor := Stack [Scalar 0; Scalar 1; Scalar 0]%Q.

Lemma dataset_getitem_witness :
  __len__ (mkGraphDataset three_graphs three_labels) = length three_graphs
  /\ ((- Z.of_nat (length three_graphs) <= -1 < Z.of_nat (length three_graphs))%Z ->
      exists g l,
        __getitem__ (mkGraphDataset three_graphs three_labels) (-1) = Ok (g, l)
        /\ three_graphs !! Z.to_nat (-1 mod Z.of_nat (length three_graphs)) = Some g
        /\ slice three_labels (Z.to_nat (-1 mod Z.of_nat (length three_graphs)))
           = Some l)
  /\ (~ (- Z.of_nat (length three_graphs) <= -1 < Z.of_nat (length three_graphs))%Z ->
      __getitem__ (mkGraphDataset three_graphs three_labels) (-1) = Raise IndexError).
Proof.
  apply (dataset_getitem three_graphs three_labels
           (mkGraphDataset three_graphs three_labels) (-1)).
  reflexivity.
Defined.

(** X9. [collate] returns for no list of samples. Without samples the
    unpacking of line 249 is a ValueError; with samples the labels are
    stacked (a RuntimeError when their shapes differ) and the graphs go to
    [init_batch_graph], which returns for no list. *)
Theorem collate_never_returns fdl (samples : list (BaseGraph * tensor)) :
  raises (collate fdl samples)
  /\ (forall b, collate fdl samples <> Ok b)
  /\ collate fdl [] = Raise ValueError.
Proof.
  assert (H : raises (collate fdl samples)).
  { destruct samples as [|s rest]; [eexists; reflexivity|].
    unfold collate.
    destruct (torch_stack _) as [l|e]; cbn [mbind result_bind];
      [|eexists; reflexivity].
    match goal with
    | |- context [init_batch_graph fdl ?gs] =>
        destruct (BaseGraphSpec.init_batch_graph_raises fdl gs) as [e He];
        rewrite He
    end.
    eexists; reflexivity. }
  split; [exact H|]. split; [|reflexivity].
  intros b Hb. destruct H as [e He]. rewrite He in Hb. discriminate.
Qed.

Section Encodings.

Variable lap : tensor -> result (list (list Q)).
Variable eig : list (list Q) -> result (list complex * list (list complex)).

Lemma encode_graphs_spec k (gs : list BaseGraph) :
  length (encode_graphs lap eig k gs).1 = length gs
  /\ (Forall (fun g => returns (lap_positional_encoding lap eig g k)) gs ->
      (encode_graphs lap eig k gs).2 = Ok tt)
  /\ ((encode_graphs lap eig k gs).2 = Ok tt ->
      Forall2 (fun g g' => lap_positional_encoding lap eig g k = Ok g')
              gs (encode_graphs lap eig k gs).1)
  /\ (forall e, (encode_graphs lap eig k gs).2 = Raise e ->
        exists j g,
          gs !! j = Some g
          /\ lap_positional_encoding lap eig g k = Raise e
          /\ Forall2 (fun g g' => lap_positional_encoding lap eig g k = Ok g')
                     (take j gs) (take j (encode_graphs lap eig k gs).1)
          /\ drop j (encode_graphs lap eig k gs).1 = drop j gs).
Proof.
  induction gs as [|g rest (IH1 & IH2 & IH3 & IH4)]; cbn.
  - repeat split; [constructor | discriminate].
  - destruct (lap_positional_encoding lap eig g k) as [g'|e0] eqn:Hg; cbn.
    + split; [f_equal; exact IH1|]. split; [|split].
      * intros H. inversion H; subst. now apply IH2.
      * intros H. constructor; [exact Hg | now apply IH3].
      * intros e He. destruct (IH4 e He) as (j & g0 & Hj & Hg0 & Hpre & Hpost).
        exists (S j), g0. cbn. repeat split; try assumption.
        constructor; assumption.
    + split; [reflexivity|]. split; [|split].
      * intros H. inversion H as [|? ? [g' Hg'] _]; subst. congruence.
      * discriminate.
      * intros e [= <-]. exists 0, g. cbn. repeat split; [exact Hg | constructor].
Qed.

(** X10. [_add_lap_positional_encodings] encodes the graphs of the
    dataset in order and stops at the first one the encoder raises on. The
    labels and the number of graphs never change. When every graph can be
    encoded the call succeeds and every graph is replaced by its encoding;
    when graph [j] raises, the call raises the same exception, the graphs
    before [j] stay encoded and the graphs from [j] on are untouched. *)
Theorem add_lap_positional_encodings_partial (ds : GraphDataset) (k : nat) :
  y (_add_lap_positional_encodings lap eig ds k).1 = y ds
  /\ length (x (_add_lap_positional_encodings lap eig ds k).1) = length (x ds)
  /\ (Forall (fun g => returns (lap_positional_encoding lap eig g k)) (x ds) ->
      (_add_lap_positional_encodings lap eig ds k).2 = Ok tt)
  /\ ((_add_lap_positional_encodings lap eig ds k).2 = Ok tt ->
      Forall2 (fun g g' => lap_positional_encoding lap eig g k = Ok g')
              (x ds) (x (_add_lap_positional_encodings lap eig ds k).1))
  /\ (forall e, (_add_lap_positional_encodings lap eig ds k).2 = Raise e ->
        exists j g,
          x ds !! j = Some g
          /\ lap_positional_encoding lap eig g k = Raise e
          /\ Forall2 (fun g g' => lap_positional_encoding lap eig g k = Ok g')
                     (take j (x ds))
                     (take j (x (_add_lap_positional_encodings lap eig ds k).1))
          /\ drop j (x (_add_lap_positional_encodings lap eig ds k).1)
             = drop j (x ds)).
Proof.
  unfold _add_lap_positional_encodings. cbn [fst snd x y].
  split; [reflexivity|]. apply encode_graphs_spec.
Qed.

End Encodings.

End DatasetSpec.

(** ** [Logger] *)

Module LoggingSpec.
Import Logging.
Local Open Scope R_scope.

(** The results every call of [add_result] accepts: pairs. *)
Definition well_formed (self : Logger) : Prop :=
  Forall (Forall (fun r : list R => length r = 2%nat)) (results self).

(** X11. [add_result] accepts a result exactly when it has two entries
    and the run is one of the logger's runs, counted from 0 (a negative
    run is refused, although Python would index from the end). It then
    appends the result to that run and leaves every other run, and the
    number of runs, as they were; a logger holding pairs still holds
    pairs. Anything else is an AssertionError. *)
Theorem add_result_appends (self : Logger) (run : Z) (res : list R) :
  (length res = 2%nat /\ (0 <= run < Z.of_nat (length (results self)))%Z ->
   exists self' old,
     add_result self run res = Ok self'
     /\ results self !! Z.to_nat run = Some old
     /\ results self' !! Z.to_nat run = Some (old ++ [res])
     /\ (forall r, r <> Z.to_nat run -> results self' !! r = results self !! r)
     /\ length (results self') = length (results self)
     /\ info self' = info self
     /\ (well_formed self -> well_formed self'))
  /\ (~ (length res = 2%nat /\ (0 <= run < Z.of_nat (length (results self)))%Z) ->
      add_result self run res = Raise AssertionError).
Proof.
  unfold add_result. split.
  - intros [Hres Hrun]. rewrite decide_True by exact Hres.
    rewrite decide_True by exact Hrun.
    destruct (lookup_lt_is_Some_2 (results self) (Z.to_nat run)) as [old Hold];
      [lia|].
    eexists. exists old. split; [reflexivity|]. cbn [results info].
    split; [exact Hold|]. split; [|split; [|split; [|split]]].
    + rewrite list_lookup_alter_eq, Hold. reflexivity.
    + intros r Hr. apply list_lookup_alter_ne. congruence.
    + apply length_alter.
    + reflexivity.
    + unfold well_formed. cbn [results]. intros Hwf.
      apply Forall_alter; [exact Hwf|].
      intros l _ Hl. apply Forall_app_2; [exact Hl|].
      repeat constructor. exact Hres.
  - intros H. destruct (decide (length res = 2%nat)); [|reflexivity].
    destruct (decide (0 <= run < Z.of_nat (length (results self)))%Z);
      [|reflexivity].
    exfalso. apply H. split; assumption.
Qed.

Lemma Logger_init_well_formed runs info : well_formed (Logger_init runs info).
Proof.
  unfold well_formed, Logger_init. cbn. apply Forall_replicate. constructor.
Qed.

(** *** The epoch [print_statistics] reports *)

Lemma argmax_from_first (l : list R) : forall (P : list R) i best best_i,
  length P = i -> P !! best_i = Some best ->
  (forall j u, P !! j = Some u -> u <= best) ->
  (forall j u, (j < best_i)%nat -> P !! j = Some u -> u < best) ->
  exists v,
    (P ++ l) !! argmax_from l i best best_i = Some v
    /\ (forall j u, (P ++ l) !! j = Some u -> u <= v)
    /\ (forall j u, (j < argmax_from l i best best_i)%nat ->
                    (P ++ l) !! j = Some u -> u < v).
Proof.
  induction l as [|v l IH]; intros P i best best_i Hlen Hbest Hle Hlt; cbn.
  - rewrite app_nil_r. exists best. repeat split; assumption.
  - replace (P ++ v :: l) with ((P ++ [v]) ++ l) by (rewrite <- app_assoc; reflexivity).
    destruct (Rlt_dec best v) as [Hv|Hv].
    + apply IH.
      * rewrite length_app. cbn. lia.
      * rewrite lookup_app_r by lia. rewrite Hlen, Nat.sub_diag. reflexivity.
      * intros j u Hj. apply lookup_app_Some in Hj as [Hj|[Hge Hj]].
        -- specialize (Hle j u Hj). lra.
        -- destruct (j - length P)%nat; cbn in Hj; [|discriminate].
           injection Hj as <-. lra.
      * intros j u Hji Hj. rewrite lookup_app_l in Hj by lia.
        specialize (Hle j u Hj). lra.
    + apply IH.
      * rewrite length_app. cbn. lia.
      * apply lookup_app_l_Some. exact Hbest.
      * intros j u Hj. apply lookup_app_Some in Hj as [Hj|[Hge Hj]].
        -- exact (Hle j u Hj).
        -- destruct (j - length P)%nat; cbn in Hj; [|discriminate].
           injection Hj as <-. lra.
      * intros j u Hji Hj.
        assert (best_i < length P)%nat by (eapply lookup_lt_Some; exact Hbest).
        rewrite lookup_app_l in Hj by lia. exact (Hlt j u Hji Hj).
Qed.

Lemma argmax_first (l : list R) :
  l <> [] ->
  exists k v,
    argmax l = Ok k /\ tensor_max l = Ok v /\ l !! k = Some v
    /\ (forall j u, l !! j = Some u -> u <= v)
    /\ (forall j u, (j < k)%nat -> l !! j = Some u -> u < v).
Proof.
  destruct l as [|v0 l]; [congruence|]. intros _.
  destruct (argmax_from_first l [v0] 1 v0 0) as (v & Hk & Hle & Hlt).
  - reflexivity.
  - reflexivity.
  - intros [|j] u; cbn; [intros [= <-]; lra | discriminate].
  - intros j u Hj. lia.
  - exists (argmax_from l 1 v0 0), v. cbn [app] in *.
    split; [reflexivity|]. split; [|repeat split; assumption].
    unfold tensor_max. f_equal. apply WalkPoolSpec.list_max_attained.
    + eapply list_elem_of_lookup_2. exact Hk.
    + intros u Hu. apply list_elem_of_lookup_1 in Hu as [j Hj]. exact (Hle j u Hj).
Qed.

Lemma pairs_of_rows (rows : list (list R)) :
  Forall (fun r => length r = 2%nat) rows ->
  exists pairs : list (R * R), rows = map (fun p => [p.1; p.2]) pairs.
Proof.
  induction 1 as [|r rows Hr _ [pairs ->]]; [exists []; reflexivity|].
  destruct r as [|a [|b [|c r]]]; try discriminate.
  exists ((a, b) :: pairs). reflexivity.
Qed.

Lemma for_each_getidx_pairs (pairs : list (R * R)) (f : R -> R) :
  for_each (fun r => getidx r 0)
           (map (map f) (map (fun p : R * R => [p.1; p.2]) pairs))
  = Ok (map (fun p => f p.1) pairs)
  /\ for_each (fun r => getidx r 1)
              (map (map f) (map (fun p : R * R => [p.1; p.2]) pairs))
     = Ok (map (fun p => f p.2) pairs).
Proof.
  induction pairs as [|p pairs [IH0 IH1]]; [split; reflexivity|].
  cbn [map for_each]. rewrite IH0, IH1. split; reflexivity.
Qed.

Lemma column_pairs (pairs : list (R * R)) (f : R -> R) :
  pairs <> [] ->
  column (map (map f) (map (fun p : R * R => [p.1; p.2]) pairs)) 0
  = Ok (map (fun p => f p.1) pairs)
  /\ column (map (map f) (map (fun p : R * R => [p.1; p.2]) pairs)) 1
     = Ok (map (fun p => f p.2) pairs).
Proof.
  intros Hne. destruct (for_each_getidx_pairs pairs f) as [H0 H1].
  destruct pairs as [|p0 pairs]; [congruence|]. split; [exact H0 | exact H1].
Qed.

(** The selection on the scaled results of one run: the first epoch whose
    validation score is the highest. *)
Lemma best_epoch_first (rows : list (list R)) :
  rows <> [] -> Forall (fun r => length r = 2%nat) rows ->
  exists k v t,
    rows !! k = Some [v; t]
    /\ (forall j v' t', rows !! j = Some [v'; t'] -> v' <= v)
    /\ (forall j v' t', (j < k)%nat -> rows !! j = Some [v'; t'] -> v' < v)
    /\ best_epoch (map (map (Rmult 100)) rows) = Ok (100 * v, 100 * t).
Proof.
  intros Hne Hrows. destruct (pairs_of_rows rows Hrows) as [pairs ->].
  assert (Hp : pairs <> []) by (intros ->; apply Hne; reflexivity).
  destruct (column_pairs pairs (Rmult 100) Hp) as [Hc0 _].
  destruct (argmax_first (map (fun p : R * R => 100 * p.1) pairs))
    as (k & m & Hk & Hm & Hkm & Hle & Hlt).
  { destruct pairs; [congruence | discriminate]. }
  rewrite list_lookup_fmap in Hkm.
  destruct (pairs !! k) as [[v t]|] eqn:Hpk; [|discriminate].
  cbn in Hkm. injection Hkm as <-.
  exists k, v, t. split; [rewrite list_lookup_fmap, Hpk; reflexivity|].
  split; [|split].
  - intros j v' t' Hj. rewrite list_lookup_fmap in Hj.
    destruct (pairs !! j) as [[a b]|] eqn:Hpj; [|discriminate].
    cbn in Hj. injection Hj as -> ->.
    specialize (Hle j (100 * v')). rewrite list_lookup_fmap, Hpj in Hle.
    specialize (Hle eq_refl). lra.
  - intros j v' t' Hjk Hj. rewrite list_lookup_fmap in Hj.
    destruct (pairs !! j) as [[a b]|] eqn:Hpj; [|discriminate].
    cbn in Hj. injection Hj as -> ->.
    specialize (Hlt j (100 * v') Hjk). rewrite list_lookup_fmap, Hpj in Hlt.
    specialize (Hlt eq_refl). lra.
  - unfold best_epoch. rewrite Hc0. cbn [mbind result_bind].
    rewrite Hm, Hk. cbn [mbind result_bind]. unfold getidx.
    rewrite !list_lookup_fmap, Hpk. cbn. reflexivity.
Qed.

Lemma torch_tensor_pairs (rows : list (list R)) :
  Forall (fun r => length r = 2%nat) rows -> torch_tensor rows = Ok rows.
Proof.
  intros H. unfold torch_tensor. destruct rows as [|r0 rows]; [reflexivity|].
  rewrite (proj2 (forallb_forall _ _)); [reflexivity|].
  intros r Hr. apply list_elem_of_In in Hr. rewrite Forall_forall in H.
  rewrite (H r Hr), (H r0) by left. reflexivity.
Qed.

(** X12. For a run that holds at least one result, each a pair of a
    validation and a test score, [print_statistics(run)] reports the
    highest validation score of the run and, as final test score, the test
    score of the first result that reaches it (both times 100), under the
    run's number counted from 1. *)
Theorem print_statistics_best_epoch (self : Logger) (run : Z)
    (rows : list (list R)) :
  Dataset.list_index (results self) run = Ok rows ->
  rows <> [] -> Forall (fun r => length r = 2%nat) rows ->
  exists k v t,
    rows !! k = Some [v; t]
    /\ (forall j v' t', rows !! j = Some [v'; t'] -> v' <= v)
    /\ (forall j v' t', (j < k)%nat -> rows !! j = Some [v'; t'] -> v' < v)
    /\ print_statistics self (Some run)
       = Ok (RunReport (run + 1) (100 * v) (100 * t)).
Proof.
  intros Hrun Hne Hrows.
  destruct (best_epoch_first rows Hne Hrows) as (k & v & t & Hk & Hle & Hlt & Hb).
  exists k, v, t. repeat split; try assumption.
  unfold print_statistics. rewrite Hrun. cbn [mbind result_bind].
  rewrite (torch_tensor_pairs rows Hrows). cbn [mbind result_bind].
  rewrite Hb. reflexivity.
Qed.

Definition two_epochs : Logger := mkLogger None [[[1; 5]; [2; 3]]].

Lemma print_statistics_best_epoch_witness :
  exists k v t,
    [[1; 5]; [2; 3]] !! k = Some [v; t]
    /\ (forall j v' t', [[1; 5]; [2; 3]] !! j = Some [v'; t'] -> v' <= v)
    /\ (forall j v' t', (j < k)%nat -> [[1; 5]; [2; 3]] !! j = Some [v'; t'] -> v' < v)
    /\ print_statistics two_epochs (Some 0%Z)
       = Ok (RunReport (0 + 1) (100 * v) (100 * t)).
Proof.
  apply (print_statistics_best_epoch two_epochs 0 [[1; 5]; [2; 3]]);
    [reflexivity | discriminate | repeat constructor].
Defined.

(** *** All runs *)

Lemma column_plain (bests : list (R * R)) :
  bests <> [] ->
  column (map (fun b : R * R => [b.1; b.2]) bests) 0 = Ok bests.*1
  /\ column (map (fun b : R * R => [b.1; b.2]) bests) 1 = Ok bests.*2.
Proof.
  intros Hne.
  assert (H : for_each (fun r => getidx r 0) (map (fun b : R * R => [b.1; b.2]) bests)
              = Ok bests.*1
              /\ for_each (fun r => getidx r 1)
                          (map (fun b : R * R => [b.1; b.2]) bests)
                 = Ok bests.*2).
  { clear Hne. induction bests as [|b bests [IH0 IH1]]; [split; reflexivity|].
    cbn [map for_each fmap list_fmap]. rewrite IH0, IH1. split; reflexivity. }
  destruct bests; [congruence|]. exact H.
Qed.

Lemma for_each_best_epoch (runs : list (list (list R))) :
  Forall (fun rows => rows <> [] /\ Forall (fun r => length r = 2%nat) rows) runs ->
  exists bests,
    for_each best_epoch (map (map (map (Rmult 100))) runs) = Ok bests
    /\ Forall2 (fun rows b => best_epoch (map (map (Rmult 100)) rows) = Ok b)
               runs bests.
Proof.
  induction 1 as [|rows runs [Hne Hrows] _ (bests & Hb & HF)].
  - exists []. split; [reflexivity | constructor].
  - destruct (best_epoch_first rows Hne Hrows) as (k & v & t & _ & _ & _ & Hbe).
    exists ((100 * v, 100 * t) :: bests). cbn [map for_each].
    rewrite Hbe. cbn [mbind result_bind]. rewrite Hb. cbn.
    split; [reflexivity|]. constructor; assumption.
Qed.

Lemma torch_tensor3_uniform (runs : list (list (list R))) (n : nat) :
  Forall (fun rows => length rows = n) runs ->
  Forall (Forall (fun r => length r = 2%nat)) runs ->
  torch_tensor3 runs = Ok runs.
Proof.
  intros Hn Hwf. unfold torch_tensor3. destruct runs as [|r0 runs]; [reflexivity|].
  rewrite (proj2 (forallb_forall _ _)).
  - destruct (concat (r0 :: runs)) as [|e0 es] eqn:E; [reflexivity|].
    rewrite (proj2 (forallb_forall _ _)); [reflexivity|].
    intros e He. apply list_elem_of_In in He.
    assert (Hall : Forall (fun r => length r = 2%nat) (concat (r0 :: runs))).
    { apply Forall_concat. exact Hwf. }
    rewrite E in Hall. rewrite Forall_forall in Hall.
    rewrite (Hall e He), (Hall e0) by left. reflexivity.
  - intros r Hr. apply list_elem_of_In in Hr. rewrite Forall_forall in Hn.
    rewrite (Hn r Hr), (Hn r0) by left. apply Nat.eqb_refl.
Qed.

Lemma torch_tensor3_ragged (runs : list (list (list R))) r1 r2 :
  r1 ∈ runs -> r2 ∈ runs -> length r1 <> length r2 ->
  torch_tensor3 runs = Raise ValueError.
Proof.
  intros H1 H2 Hne. unfold torch_tensor3. destruct runs as [|r0 runs].
  - inversion H1.
  - destruct (forallb _ _) eqn:E; [|reflexivity]. exfalso.
    rewrite forallb_forall in E.
    pose proof (E r1 (proj1 (list_elem_of_In _ _) H1)) as E1.
    pose proof (E r2 (proj1 (list_elem_of_In _ _) H2)) as E2.
    apply Nat.eqb_eq in E1, E2. congruence.
Qed.

(** X13. [print_statistics()] over all runs, for a logger that holds
    pairs. Without runs, or with runs that hold no result, it is an
    IndexError; with runs that hold different numbers of results it is a
    ValueError. With [n > 0] results in every run it reports the mean and
    the deviation, over the runs, of each run's highest validation score
    and of the test score at the first result that reaches it; the
    deviation is [nan] exactly when there is a single run. *)
Theorem print_statistics_all_runs (self : Logger) :
  well_formed self ->
  (results self = [] -> print_statistics self None = Raise IndexError)
  /\ (results self <> [] -> Forall (fun rows => rows = []) (results self) ->
      print_statistics self None = Raise IndexError)
  /\ (forall r1 r2, r1 ∈ results self -> r2 ∈ results self ->
        length r1 <> length r2 ->
        print_statistics self None = Raise ValueError)
  /\ (forall n, results self <> [] -> (0 < n)%nat ->
        Forall (fun rows => length rows = n) (results self) ->
        exists bests,
          Forall2 (fun rows b => best_epoch (map (map (Rmult 100)) rows) = Ok b)
                  (results self) bests
          /\ print_statistics self None
             = Ok (AllRuns (mean bests.*1) (std bests.*1)
                           (mean bests.*2) (std bests.*2))
          /\ is_Some (mean bests.*1) /\ is_Some (mean bests.*2)
          /\ (std bests.*1 = None <-> length (results self) = 1%nat)
          /\ (std bests.*2 = None <-> length (results self) = 1%nat)).
Proof.
  intros Hwf. unfold well_formed in Hwf. split; [|split; [|split]].
  - intros E. unfold print_statistics. rewrite E. reflexivity.
  - intros Hne Hempty. unfold print_statistics.
    rewrite (torch_tensor3_uniform (results self) 0 ltac:(
      eapply Forall_impl; [exact Hempty | intros ? ->; reflexivity]) Hwf).
    cbn [mbind result_bind].
    destruct (results self) as [|r0 runs]; [congruence|].
    inversion Hempty; subst. reflexivity.
  - intros r1 r2 H1 H2 Hlen. unfold print_statistics.
    rewrite (torch_tensor3_ragged _ r1 r2 H1 H2 Hlen). reflexivity.
  - intros n Hne Hn Hlen.
    destruct (for_each_best_epoch (results self)) as (bests & Hb & HF).
    { apply Forall_forall. intros rows Hr. rewrite Forall_forall in Hlen, Hwf.
      split; [|exact (Hwf rows Hr)].
      specialize (Hlen rows Hr). destruct rows; [cbn in Hlen; lia | discriminate]. }
    assert (Hbl : length bests = length (results self)).
    { symmetry. eapply Forall2_length. exact HF. }
    assert (Hbne : bests <> []).
    { destruct bests; [|discriminate]. destruct (results self); [congruence|discriminate]. }
    exists bests. split; [exact HF|].
    destruct (column_plain bests Hbne) as [Hc0 Hc1].
    split.
    + unfold print_statistics.
      rewrite (torch_tensor3_uniform _ n Hlen Hwf). cbn [mbind result_bind].
      rewrite Hb. cbn [mbind result_bind].
      rewrite torch_tensor_pairs
        by (apply Forall_forall; intros r Hr; apply list_elem_of_fmap in Hr as (b & -> & _);
            reflexivity).
      cbn [mbind result_bind]. rewrite Hc0. cbn [mbind result_bind].
      rewrite Hc1. reflexivity.
    + assert (Hm : forall l : list R, l <> [] -> is_Some (mean l)).
      { intros [|a l] H; [congruence | eexists; reflexivity]. }
      assert (Hs : forall l : list R, l <> [] ->
                     (std l = None <-> length l = 1%nat)).
      { intros [|a l] H; [congruence|]. unfold std. cbn [mean].
        destruct (decide (length (a :: l) <= 1)%nat) as [Hle|Hle].
        - split; [intros _; cbn in *; lia | reflexivity].
        - split; [discriminate | intros E; cbn in *; lia]. }
      assert (H1 : bests.*1 <> []) by (destruct bests; [congruence | discriminate]).
      assert (H2 : bests.*2 <> []) by (destruct bests; [congruence | discriminate]).
      split; [apply Hm, H1|]. split; [apply Hm, H2|].
      rewrite <- Hbl. split.
      * rewrite (Hs _ H1), length_fmap. reflexivity.
      * rewrite (Hs _ H2), length_fmap. reflexivity.
Qed.

Definition two_runs : Logger := mkLogger None [[[1; 5]; [2; 3]]; [[4; 1]; [0; 2]]].

Lemma print_statistics_all_runs_witness :
  (results two_runs = [] -> print_statistics two_runs None = Raise IndexError)
  /\ (results two_runs <> [] -> Forall (fun rows => rows = []) (results two_runs) ->
      print_statistics two_runs None = Raise IndexError)
  /\ (forall r1 r2, r1 ∈ results two_runs -> r2 ∈ results two_runs ->
        length r1 <> length r2 ->
        print_statistics two_runs None = Raise ValueError)
  /\ (forall n, results two_runs <> [] -> (0 < n)%nat ->
        Forall (fun rows => length rows = n) (results two_runs) ->
        exists bests,
          Forall2 (fun rows b => best_epoch (map (map (Rmult 100)) rows) = Ok b)
                  (results two_runs) bests
          /\ print_statistics two_runs None
             = Ok (AllRuns (mean bests.*1) (std bests.*1)
                           (mean bests.*2) (std bests.*2))
          /\ is_Some (mean bests.*1) /\ is_Some (mean bests.*2)
          /\ (std bests.*1 = None <-> length (results two_runs) = 1%nat)
          /\ (std bests.*2 = None <-> length (results two_runs) = 1%nat)).
Proof.
  apply (print_statistics_all_runs two_runs).
  unfold well_formed, two_runs. cbn. repeat constructor.
Defined.

End LoggingSpec.

(** ** [get_spd_matrix] *)

Module DistancesSpec.
Import DataRecord Distances.

Definition has_shape (n w : nat) (m : ndarray) : Prop :=
  length m = n /\ Forall (fun row => length row = w) m.

Lemma set_entry_shape n w m r c q :
  has_shape n w m -> has_shape n w (set_entry m r c q).
Proof.
  intros [Hn Hw]. unfold set_entry. split.
  - rewrite length_alter. exact Hn.
  - apply Forall_alter; [exact Hw|]. intros row _ Hrow.
    rewrite length_insert. exact Hrow.
Qed.

Lemma entry_set_entry_same n w m r c q :
  has_shape n w m -> r < n -> c < w ->
  entry (set_entry m r c q) r c = Some q.
Proof.
  intros [Hn Hw] Hr Hc. unfold entry, set_entry.
  rewrite list_lookup_alter_eq.
  destruct (lookup_lt_is_Some_2 m r) as [row Hrow]; [lia|].
  rewrite Hrow. cbn. apply list_lookup_insert_eq.
  rewrite Forall_lookup in Hw. rewrite (Hw _ _ Hrow). exact Hc.
Qed.

Lemma entry_set_entry_other m r c q r' c' :
  r' <> r \/ c' <> c ->
  entry (set_entry m r c q) r' c' = entry m r' c'.
Proof.
  intros H. unfold entry, set_entry.
  destruct (decide (r' = r)) as [->|Hr].
  - rewrite list_lookup_alter_eq. destruct (m !! r) as [row|]; [|reflexivity].
    cbn. apply list_lookup_insert_ne. destruct H; congruence.
  - rewrite list_lookup_alter_ne by congruence. reflexivity.
Qed.

Lemma entry_zeros n w v i :
  v < n -> i < w -> entry (replicate n (replicate w 0%Q)) v i = Some 0%Q.
Proof.
  intros Hv Hi. unfold entry. rewrite lookup_replicate_2 by exact Hv. cbn.
  apply lookup_replicate_2. exact Hi.
Qed.

Lemma np_index_nonneg n i :
  (0 <= i < Z.of_nat n)%Z -> np_index n i = Ok (Z.to_nat i).
Proof. intros H. unfold np_index. rewrite decide_True by exact H. reflexivity. Qed.

Section Spd.

Variable nx_Graph : Type.
Variable number_of_nodes : nx_Graph -> nat.
Variable shortest_path_length : nx_Graph -> Z -> result (list (Z * nat)).

Local Abbreviation get_spd_matrix :=
  (get_spd_matrix nx_Graph number_of_nodes shortest_path_length).

(** The items of a dictionary of distances of a graph with nodes
    [0 .. n-1]: no node twice, every node a node of the graph. *)
Definition distances_of (n : nat) (items : list (Z * nat)) : Prop :=
  NoDup items.*1 /\ Forall (fun nl : Z * nat => (0 <= nl.1 < Z.of_nat n)%Z) items.

Definition capped (max_spd : Z) (d : nat) : Q :=
  inject_Z (Z.min (Z.of_nat d) max_spd).

Lemma inner_loop n w (max_spd : Z) (i : nat) (items : list (Z * nat)) :
  i < w -> distances_of n items ->
  forall m, has_shape n w m ->
  exists m',
    for_fold (fun (nl : Z * nat) spd =>
                r ← np_index n nl.1;
                mret (set_entry spd r i (capped max_spd nl.2))) items m
    = Ok m'
    /\ has_shape n w m'
    /\ (forall v j, j <> i -> entry m' v j = entry m v j)
    /\ (forall node d, (node, d) ∈ items ->
          entry m' (Z.to_nat node) i = Some (capped max_spd d))
    /\ (forall v, Z.of_nat v ∉ items.*1 -> entry m' v i = entry m v i).
Proof.
  intros Hi [Hnd Hval]. induction items as [|[node d] items IH]; intros m Hm.
  - exists m. split; [reflexivity|]. split; [exact Hm|].
    split; [reflexivity|]. split; [|reflexivity].
    intros node d H. inversion H.
  - cbn [fmap list_fmap fst] in Hnd. apply NoDup_cons in Hnd as [Hnotin Hnd].
    apply Forall_cons in Hval as [Hnode Hval]. cbn [fst] in Hnode.
    cbn [for_fold fst snd]. rewrite (np_index_nonneg n node Hnode).
    cbn [mbind result_bind mret result_ret].
    set (m1 := set_entry m (Z.to_nat node) i (capped max_spd d)).
    destruct (IH Hnd Hval m1) as (m' & Hrun & Hshape & Ha & Hb & Hc).
    { apply set_entry_shape. exact Hm. }
    exists m'. split; [exact Hrun|]. split; [exact Hshape|].
    split; [|split].
    + intros v j Hj. rewrite (Ha v j Hj). unfold m1.
      apply entry_set_entry_other. right. exact Hj.
    + intros node' d' Hin. apply elem_of_cons in Hin as [[= -> ->]|Hin].
      * rewrite Hc.
        -- unfold m1. apply (entry_set_entry_same n w); [exact Hm | lia | exact Hi].
        -- rewrite Z2Nat.id by lia. exact Hnotin.
      * apply Hb. exact Hin.
    + intros v Hv. rewrite fmap_cons, not_elem_of_cons in Hv.
      cbn [fst] in Hv. destruct Hv as [Hne Hv].
      rewrite (Hc v Hv). unfold m1. apply entry_set_entry_other. left.
      intros ->. apply Hne. rewrite Z2Nat.id by lia. reflexivity.
Qed.

Lemma outer_loop G (max_spd : Z) w (l : list (nat * Z)) :
  NoDup l.*1 -> Forall (fun p : nat * Z => p.1 < w) l ->
  Forall (fun p : nat * Z =>
            exists items, shortest_path_length G p.2 = Ok items
                          /\ distances_of (number_of_nodes G) items) l ->
  forall m, has_shape (number_of_nodes G) w m ->
  exists m',
    for_fold (fun (iS : nat * Z) spd =>
        items ← shortest_path_length G iS.2;
        for_fold (fun (nl : Z * nat) spd =>
            r ← np_index (number_of_nodes G) nl.1;
            mret (set_entry spd r iS.1
                    (inject_Z (Z.min (Z.of_nat nl.2) max_spd))))
          items spd) l m
    = Ok m'
    /\ has_shape (number_of_nodes G) w m'
    /\ (forall j, j ∉ l.*1 -> forall v, entry m' v j = entry m v j)
    /\ (forall i s items, (i, s) ∈ l -> shortest_path_length G s = Ok items ->
          (forall node d, (node, d) ∈ items ->
             entry m' (Z.to_nat node) i = Some (capped max_spd d))
          /\ (forall v, Z.of_nat v ∉ items.*1 -> entry m' v i = entry m v i)).
Proof.
  induction l as [|[i s] l IH]; intros Hnd Hw Hsrc m Hm.
  - exists m. split; [reflexivity|]. split; [exact Hm|].
    split; [reflexivity|]. intros i s items H. inversion H.
  - cbn [fmap list_fmap fst] in Hnd. apply NoDup_cons in Hnd as [Hnotin Hnd].
    apply Forall_cons in Hw as [Hi Hw]. cbn [fst] in Hi.
    apply Forall_cons in Hsrc as [(items & Hitems & Hdist) Hsrc]. cbn [snd] in Hitems.
    cbn [for_fold fst snd]. rewrite Hitems. cbn [mbind result_bind].
    destruct (inner_loop (number_of_nodes G) w max_spd i items Hi Hdist m Hm)
      as (m1 & Hrun1 & Hshape1 & Ha1 & Hb1 & Hc1).
    unfold capped in Hrun1. rewrite Hrun1. cbn [mbind result_bind].
    destruct (IH Hnd Hw Hsrc m1 Hshape1) as (m' & Hrun & Hshape & Ha & Hb).
    exists m'. split; [exact Hrun|]. split; [exact Hshape|]. split.
    + intros j Hj v. rewrite fmap_cons, not_elem_of_cons in Hj.
      cbn [fst] in Hj. destruct Hj as [Hne Hj].
      rewrite (Ha j Hj v). apply Ha1. exact Hne.
    + intros i' s' items' Hin Hspl.
      apply elem_of_cons in Hin as [[= -> ->]|Hin].
      * rewrite Hitems in Hspl. injection Hspl as <-. split.
        -- intros node d Hd. rewrite (Ha i Hnotin). apply Hb1. exact Hd.
        -- intros v Hv. rewrite (Ha i Hnotin). apply Hc1. exact Hv.
      * destruct (Hb i' s' items' Hin Hspl) as [Hb' Hc']. split; [exact Hb'|].
        intros v Hv. rewrite (Hc' v Hv). apply Ha1.
        intros ->. apply Hnotin. apply list_elem_of_fmap. exists (i, s'). split; [reflexivity | exact Hin].
Qed.

(** X14. For a graph with nodes [0 .. N-1] and sources [S] that
    [shortest_path_length] answers for, [get_spd_matrix] returns a matrix
    with one row per node and one column per source. The entry of node
    [v] in the column of source [S[i]] is the distance of [v] from [S[i]]
    capped at [max_spd] when [v] is reachable, and 0 when it is not: an
    unreachable node reads like the source itself. With [max_spd >= 0]
    every entry lies between 0 and [max_spd]. *)
Theorem get_spd_matrix_entries G (S : list Z) (max_spd : Z) :
  (forall i s, S !! i = Some s ->
     exists items, shortest_path_length G s = Ok items
                   /\ distances_of (number_of_nodes G) items) ->
  exists m,
    get_spd_matrix G S max_spd = Ok m
    /\ length m = number_of_nodes G
    /\ Forall (fun row => length row = length S) m
    /\ (forall i s items, S !! i = Some s -> shortest_path_length G s = Ok items ->
          (forall node d, (node, d) ∈ items ->
             entry m (Z.to_nat node) i = Some (inject_Z (Z.min (Z.of_nat d) max_spd)))
          /\ (forall v, v < number_of_nodes G -> Z.of_nat v ∉ items.*1 ->
                entry m v i = Some 0%Q))
    /\ ((0 <= max_spd)%Z ->
        forall v i q, entry m v i = Some q -> (0 <= q <= inject_Z max_spd)%Q).
Proof.
  intros Hsrc. unfold Distances.get_spd_matrix.
  set (N := number_of_nodes G). set (m0 := replicate N (replicate (length S) 0%Q)).
  assert (Hm0 : has_shape N (length S) m0).
  { split; [apply length_replicate|]. apply Forall_replicate, length_replicate. }
  destruct (outer_loop G max_spd (length S) (imap pair S)) with (m := m0)
    as (m & Hrun & [Hlen Hrows] & Ha & Hb).
  - rewrite SpectralSpec.imap_pair_fst. apply NoDup_seq.
  - apply Forall_forall. intros [i s] Hin.
    apply elem_of_lookup_imap in Hin as (i' & s' & [= -> ->] & Hs).
    cbn. eapply lookup_lt_Some. exact Hs.
  - apply Forall_forall. intros [i s] Hin.
    apply elem_of_lookup_imap in Hin as (i' & s' & [= -> ->] & Hs).
    cbn. exact (Hsrc _ _ Hs).
  - exact Hm0.
  - assert (Hentries : forall i s items, S !! i = Some s ->
              shortest_path_length G s = Ok items ->
              (forall node d, (node, d) ∈ items ->
                 entry m (Z.to_nat node) i = Some (capped max_spd d))
              /\ (forall v, v < N -> Z.of_nat v ∉ items.*1 -> entry m v i = Some 0%Q)).
    { intros i s items Hs Hspl.
      destruct (Hb i s items) as [Hb1 Hb2]; [|exact Hspl|].
      - apply elem_of_lookup_imap. exists i, s. split; [reflexivity | exact Hs].
      - split; [exact Hb1|]. intros v Hv Hnot. rewrite (Hb2 v Hnot).
        apply entry_zeros; [exact Hv|]. eapply lookup_lt_Some. exact Hs. }
    exists m. split; [exact Hrun|]. split; [exact Hlen|]. split; [exact Hrows|].
    split; [exact Hentries|].
    intros Hmax v i q Hq.
    assert (Hv : v < N).
    { unfold entry in Hq. destruct (m !! v) as [row|] eqn:Hrow; [|discriminate].
      apply lookup_lt_Some in Hrow. subst N. lia. }
    assert (Hi : i < length S).
    { unfold entry in Hq. destruct (m !! v) as [row|] eqn:Hrow; [|discriminate].
      cbn in Hq. rewrite Forall_lookup in Hrows. specialize (Hrows _ _ Hrow).
      apply lookup_lt_Some in Hq. lia. }
    destruct (lookup_lt_is_Some_2 S i Hi) as [s Hs].
    destruct (Hsrc i s Hs) as (items & Hspl & Hnd & Hval).
    destruct (Hentries i s items Hs Hspl) as [He1 He2].
    destruct (decide (Z.of_nat v ∈ items.*1)) as [Hin|Hout].
    + apply list_elem_of_fmap in Hin as ([node d] & Hnode & Hin). cbn in Hnode.
      specialize (He1 node d Hin). rewrite <- Hnode, Nat2Z.id in He1.
      rewrite He1 in Hq. injection Hq as <-. unfold capped.
      rewrite <- (Zle_Qle 0), <- Zle_Qle. lia.
    + rewrite (He2 v Hv Hout) in Hq. injection Hq as <-.
      rewrite <- (Zle_Qle 0). split; [apply Qle_refl | exact Hmax].
Qed.

End Spd.

(** A path 0 - 1 - 2 and an isolated node 3, with the distances a
    breadth-first search from each node finds. *)
Definition path_and_island (source : Z) : result (list (Z * nat)) :=
  if decide (source = 0)%Z then Ok [(0%Z, 0); (1%Z, 1); (2%Z, 2)]
  else if decide (source = 1)%Z then Ok [(1%Z, 0); (0%Z, 1); (2%Z, 1)]
  else if decide (source = 2)%Z then Ok [(2%Z, 0); (1%Z, 1); (0%Z, 2)]
  else if decide (source = 3)%Z then Ok [(3%Z, 0)]
  else Raise KeyError.

Lemma get_spd_matrix_entries_witness :
  exists m,
    get_spd_matrix unit (fun _ => 4) (fun _ => path_and_island) tt [0; 3]%Z 1
    = Ok m
    /\ length m = 4
    /\ Forall (fun row => length row = length [0; 3]%Z) m
    /\ (forall i s items, [0; 3]%Z !! i = Some s -> path_and_island s = Ok items ->
          (forall node d, (node, d) ∈ items ->
             entry m (Z.to_nat node) i = Some (inject_Z (Z.min (Z.of_nat d) 1)))
          /\ (forall v, v < 4 -> Z.of_nat v ∉ items.*1 ->
                entry m v i = Some 0%Q))
    /\ ((0 <= 1)%Z ->
        forall v i q, entry m v i = Some q -> (0 <= q <= inject_Z 1)%Q).
Proof.
  apply (get_spd_matrix_entries unit (fun _ => 4) (fun _ => path_and_island)
           tt [0; 3]%Z 1).
  intros [|[|i]] s Hs; cbn in Hs; try discriminate; injection Hs as <-.
  - eexists. split; [reflexivity|]. split.
    + apply (bool_decide_unpack _). reflexivity.
    + repeat constructor; cbn; lia.
  - eexists. split; [reflexivity|]. split.
    + apply (bool_decide_unpack _). reflexivity.
    + repeat constructor; cbn; lia.
Defined.

Example spd_matrix_of_path_and_island :
  get_spd_matrix unit (fun _ => 4) (fun _ => path_and_island) tt [0; 3]%Z 1
  = Ok [[0; 0]; [1; 0]; [1; 0]; [0; 0]]%Q.
Proof. reflexivity. Qed.

End DistancesSpec.

(** ** Link predictors and decoders *)

Module LinkPredictionSpec.
Import WalkPool LinkPrediction.
Local Open Scope R_scope.

(** *** The sigmoid *)

Lemma sigmoid_range v : 0 < sigmoid v < 1.
Proof.
  unfold sigmoid. pose proof (exp_pos (- v)) as He.
  split.
  - apply Rdiv_lt_0_compat; lra.
  - apply (Rmult_lt_reg_r (1 + exp (- v))); [lra|].
    unfold Rdiv. rewrite Rmult_assoc, Rinv_l by lra. lra.
Qed.

(** The bounds every value of the sigmoid keeps, whatever the precision it
    is computed in: single-precision [torch.sigmoid] reaches both 0 and 1,
    so the properties below are stated with the bounds included. *)
Lemma sigmoid_unit v : 0 <= sigmoid v <= 1.
Proof. pose proof (sigmoid_range v). lra. Qed.

Lemma sigmoid_half v :
  (0 <= v -> 1 / 2 <= sigmoid v) /\ (0 < v -> 1 / 2 < sigmoid v)
  /\ (v < 0 -> sigmoid v < 1 / 2).
Proof.
  unfold sigmoid. pose proof (exp_pos (- v)) as He.
  assert (H1 : 0 <= v -> exp (- v) <= 1).
  { intros H. rewrite <- exp_0. destruct (Req_dec v 0) as [->|Hne].
    - rewrite Ropp_0. lra.
    - left. apply exp_increasing. lra. }
  assert (H2 : 0 < v -> exp (- v) < 1).
  { intros H. rewrite <- exp_0. apply exp_increasing. lra. }
  assert (H3 : v < 0 -> 1 < exp (- v)).
  { intros H. rewrite <- exp_0. apply exp_increasing. lra. }
  repeat split; intros H.
  - specialize (H1 H). apply (Rmult_le_reg_r (1 + exp (- v))); [lra|].
    unfold Rdiv at 2. rewrite Rmult_assoc, Rinv_l by lra. lra.
  - specialize (H2 H). apply (Rmult_lt_reg_r (1 + exp (- v))); [lra|].
    unfold Rdiv at 2. rewrite Rmult_assoc, Rinv_l by lra. lra.
  - specialize (H3 H). apply (Rmult_lt_reg_r (1 + exp (- v))); [lra|].
    unfold Rdiv at 1. rewrite Rmult_assoc, Rinv_l by lra. lra.
Qed.

(** *** Broadcasting *)

Lemma zip_with_comm (op : R -> R -> R) (a b : list R) :
  (forall u v, op u v = op v u) -> zip_with op a b = zip_with op b a.
Proof.
  intros Hop. revert b. induction a as [|u a IH]; intros [|v b]; cbn; try reflexivity.
  rewrite Hop, IH. reflexivity.
Qed.

Lemma broadcast_row_comm (op : R -> R -> R) (a b : list R) :
  (forall u v, op u v = op v u) ->
  broadcast_row op a b = broadcast_row op b a.
Proof.
  intros Hop. unfold broadcast_row.
  destruct (decide (length a = length b)) as [E|E].
  - rewrite decide_True by congruence. f_equal. apply zip_with_comm, Hop.
  - rewrite decide_False by congruence.
    destruct a as [|u [|u' a]], b as [|v [|v' b]]; cbn in E; try congruence;
      try reflexivity; f_equal; apply map_ext; intros; apply Hop.
Qed.

Lemma for_each_zip_swap {X Y} (g : X -> X -> result Y) (a b : list X) :
  (forall u v, g u v = g v u) ->
  for_each (fun p : X * X => g p.1 p.2) (zip a b)
  = for_each (fun p : X * X => g p.1 p.2) (zip b a).
Proof.
  intros Hg. revert b. induction a as [|u a IH]; intros [|v b]; cbn; try reflexivity.
  rewrite Hg, IH. reflexivity.
Qed.

Lemma for_each_ext {X Y} (f g : X -> result Y) (l : list X) :
  (forall a, f a = g a) -> for_each f l = for_each g l.
Proof.
  intros H. induction l as [|a l IH]; [reflexivity|]. cbn. rewrite H, IH. reflexivity.
Qed.

Lemma broadcast_comm (op : R -> R -> R) (a b : matrix) :
  (forall u v, op u v = op v u) -> broadcast op a b = broadcast op b a.
Proof.
  intros Hop. unfold broadcast.
  destruct (decide (length a = length b)) as [E|E].
  - rewrite decide_True by congruence.
    apply (for_each_zip_swap (broadcast_row op)). intros; apply broadcast_row_comm, Hop.
  - rewrite decide_False by congruence.
    destruct a as [|u [|u' a]], b as [|v [|v' b]]; cbn in E; try congruence;
      try reflexivity; apply for_each_ext; intros; apply broadcast_row_comm, Hop.
Qed.

(** *** [LinkPredictor] *)

(** X15. [LinkPredictor.forward] does not tell its two arguments apart:
    the score of the pair (x_i, x_j) is the score of (x_j, x_i), for the
    same layers and dropout masks, and the exception is the same when
    there is one. Every score it returns is a probability: a number from
    0 to 1, the bounds included. *)
Theorem link_predictor_symmetric (self : LinkPredictor) (x_i x_j : matrix) :
  LinkPredictor_forward self x_i x_j = LinkPredictor_forward self x_j x_i
  /\ (forall p, LinkPredictor_forward self x_i x_j = Ok p ->
        Forall (Forall (fun v => 0 <= v <= 1)) p).
Proof.
  split.
  - unfold LinkPredictor_forward. rewrite (broadcast_comm Rmult x_i x_j); [reflexivity|].
    intros; apply Rmult_comm.
  - unfold LinkPredictor_forward. intros p H.
    apply bind_ok in H as (x0 & _ & H).
    apply bind_ok in H as (x1 & _ & H).
    apply bind_ok in H as (lin & _ & H).
    apply bind_ok in H as (x2 & _ & H).
    injection H as <-.
    apply Forall_forall. intros row Hrow.
    apply list_elem_of_fmap in Hrow as (r & -> & _).
    apply Forall_forall. intros v Hv.
    apply list_elem_of_fmap in Hv as (u & -> & _).
    apply sigmoid_unit.
Qed.

(** *** [LinkPredictorMy] *)

Lemma exp_ln_half p : 0 < p -> exp (ln p / 0.5) = p * p.
Proof.
  intros Hp. replace (ln p / 0.5) with (ln p + ln p) by lra.
  rewrite exp_plus, exp_ln by exact Hp. reflexivity.
Qed.

(** The probability the sampler answers with for a raw score [s]. *)
Definition sharpened (s : R) : R :=
  sigmoid s * sigmoid s
  / ((1 - sigmoid s) * (1 - sigmoid s) + sigmoid s * sigmoid s).

Lemma sharpened_range s :
  0 <= sharpened s <= 1
  /\ (0 <= s -> 1 / 2 <= sharpened s)
  /\ (s <= 0 -> sharpened s <= 1 / 2).
Proof.
  unfold sharpened. pose proof (sigmoid_range s) as [H0 H1].
  destruct (sigmoid_half s) as (Hpos & _ & Hneg).
  assert (Hzero : s = 0 -> sigmoid s = 1 / 2).
  { intros ->. unfold sigmoid. rewrite Ropp_0, exp_0. lra. }
  set (P := sigmoid s) in *.
  assert (Hd : 0 < (1 - P) * (1 - P) + P * P) by nra.
  split; [split|split].
  - apply Rlt_le, Rdiv_lt_0_compat; nra.
  - apply (Rmult_le_reg_r ((1 - P) * (1 - P) + P * P)); [exact Hd|].
    unfold Rdiv. rewrite Rmult_assoc, Rinv_l by lra. nra.
  - intros Hs. specialize (Hpos Hs).
    apply (Rmult_le_reg_r ((1 - P) * (1 - P) + P * P)); [exact Hd|].
    unfold Rdiv at 2. rewrite Rmult_assoc, Rinv_l by lra. nra.
  - intros Hs.
    assert (HP : P <= 1 / 2).
    { destruct (Req_dec s 0) as [E|Hne]; [rewrite (Hzero E); lra|].
      apply Rlt_le, Hneg. lra. }
    apply (Rmult_le_reg_r ((1 - P) * (1 - P) + P * P)); [exact Hd|].
    unfold Rdiv at 1. rewrite Rmult_assoc, Rinv_l by lra. nra.
Qed.

Lemma sampled_rows (s : list R) :
  let p_exp := map (map exp)
                 (map (map (fun v => v / 0.5))
                    (map (map ln) (map (fun p => [1 - p; p]) (map sigmoid s)))) in
  (p_exp1 ← for_each (fun r => getidx r 1) p_exp;
   broadcast_row Rdiv p_exp1 (map sum_R p_exp))
  = Ok (map sharpened s).
Proof.
  cbn zeta.
  assert (H1 : for_each (fun r => getidx r 1)
                 (map (map exp)
                    (map (map (fun v => v / 0.5))
                       (map (map ln) (map (fun p => [1 - p; p]) (map sigmoid s)))))
               = Ok (map (fun x => sigmoid x * sigmoid x) s)).
  { induction s as [|x s IH]; [reflexivity|].
    cbn [map for_each]. rewrite IH. cbn.
    rewrite exp_ln_half by apply sigmoid_range. reflexivity. }
  rewrite H1. cbn [mbind result_bind]. unfold broadcast_row.
  rewrite decide_True by (rewrite !length_map; reflexivity).
  f_equal. clear H1. induction s as [|x s IH]; [reflexivity|].
  cbn [map zip_with]. rewrite IH. f_equal.
  cbn [sum_R]. pose proof (sigmoid_range x) as [H0 Hlt].
  rewrite !exp_ln_half by lra. unfold sharpened. f_equal. lra.
Qed.

Section Sampling.

Variable torch_rand_cuda : nat -> nat -> nat -> result matrix.
Variable Linear : nat -> nat -> nat -> layer.

(** X16. A [LinkPredictorMy] as [__init__] builds it, without empirical
    sampling: the warm-up counter starts above its bound ([count = 0],
    [warm_up = -1]), so [forward] never calls the inner [LinkPredictor]
    and never moves the counter. For raw scores [s = <zi W, zj>] it
    returns, with the temperature 0.5 of the constructor, the probability
    [P^2 / ((1-P)^2 + P^2)] where [P = sigmoid s]: a number from 0 to 1
    (the bounds included), at least 1/2 for a score that is not negative
    and at most 1/2 for a score that is not positive. *)
Theorem link_predictor_my_sharpens (W0 : matrix) (dim_in dim_hidden : nat)
    (dropout : nat -> matrix -> matrix) (num_gumbels : positive)
    (zi zj : matrix) (s : list R) :
  (zw ← matmul zi W0; einsum_nc_nc_n zw zj) = Ok s ->
  LinkPredictorMy_forward torch_rand_cuda
    (LinkPredictorMy_init Linear W0 dim_in dim_hidden dropout num_gumbels false)
    zi zj
  = (LinkPredictorMy_init Linear W0 dim_in dim_hidden dropout num_gumbels false,
     Ok (Sampled (map sharpened s)))
  /\ Forall (fun x => 0 <= sharpened x <= 1
                      /\ (0 <= x -> 1 / 2 <= sharpened x)
                      /\ (x <= 0 -> sharpened x <= 1 / 2)) s.
Proof.
  intros Hs. split; [|apply Forall_forall; intros x _; apply sharpened_range].
  unfold LinkPredictorMy_forward, LinkPredictorMy_init.
  cbn [count warm_up W tau emperical].
  rewrite decide_False by lia. f_equal.
  apply bind_ok in Hs as (zw & Hzw & Hs). rewrite Hzw. cbn [mbind result_bind].
  rewrite Hs. cbn [mbind result_bind mret result_ret].
  pose proof (sampled_rows s) as H. cbn zeta in H.
  destruct (for_each _ _) as [p_exp1|e]; cbn [mbind result_bind] in *; [|discriminate].
  rewrite H. reflexivity.
Qed.

End Sampling.

Lemma link_predictor_my_sharpens_witness :
  LinkPredictorMy_forward (fun _ _ _ => Raise RuntimeError)
    (LinkPredictorMy_init (fun _ _ _ x => Ok x) [[1; 0]; [0; 1]] 2 2
                          (fun _ x => x) 1 false)
    [[1; 2]] [[3; -1]]
  = (LinkPredictorMy_init (fun _ _ _ x => Ok x) [[1; 0]; [0; 1]] 2 2
                          (fun _ x => x) 1 false,
     Ok (Sampled (map sharpened [1 * 3 + (2 * -1 + 0)])))
  /\ Forall (fun x => 0 <= sharpened x <= 1
                      /\ (0 <= x -> 1 / 2 <= sharpened x)
                      /\ (x <= 0 -> sharpened x <= 1 / 2)) [1 * 3 + (2 * -1 + 0)].
Proof.
  apply (link_predictor_my_sharpens (fun _ _ _ => Raise RuntimeError)
           (fun _ _ _ x => Ok x) [[1; 0]; [0; 1]] 2 2 (fun _ x => x) 1
           [[1; 2]] [[3; -1]]).
  unfold matmul, einsum_nc_nc_n, broadcast, broadcast_row.
  rewrite decide_True by (repeat constructor). cbn.
  rewrite !decide_True by reflexivity. cbn.
  f_equal. f_equal. lra.
Defined.

(** *** [dot_product_decode] *)

Definition entry_R (m : matrix) (i j : nat) : option R := row ← m !! i; row !! j.

Lemma nth_tabulate (z : list R) : map (fun k => nth k z 0) (seq 0 (length z)) = z.
Proof.
  induction z as [|a z IH]; [reflexivity|].
  cbn [length seq map nth]. f_equal.
  rewrite <- fmap_S_seq, <- list_fmap_compose.
  etransitivity; [|exact IH]. reflexivity.
Qed.

Lemma nth_map_lookup {X} (g : X -> R) (l : list X) (j : nat) (a : X) :
  l !! j = Some a -> nth j (map g l) 0 = g a.
Proof.
  intros H. rewrite nth_lookup, list_lookup_fmap, H. reflexivity.
Qed.

Lemma width_rows (Z : matrix) (n c : nat) :
  (0 < n)%nat -> length Z = n -> Forall (fun r => length r = c) Z -> width Z = c.
Proof.
  intros Hn Hlen Hrows. destruct Z as [|r0 Z]; [cbn in Hlen; lia|].
  apply Forall_cons in Hrows as [H _]. exact H.
Qed.

Lemma transpose_column (Z : matrix) (n c j : nat) (zj : list R) :
  (0 < n)%nat -> length Z = n -> Forall (fun r => length r = c) Z ->
  Z !! j = Some zj ->
  map (fun r => nth j r 0) (transpose Z) = zj.
Proof.
  intros Hn Hlen Hrows Hj. unfold transpose.
  rewrite (width_rows Z n c Hn Hlen Hrows), map_map.
  assert (Hzj : length zj = c).
  { rewrite Forall_lookup in Hrows. exact (Hrows _ _ Hj). }
  rewrite <- Hzj. etransitivity; [|apply nth_tabulate].
  apply map_ext. intros k.
  exact (nth_map_lookup (fun r => nth k r 0) Z j zj Hj).
Qed.

Lemma sum_squares_nonneg (z : list R) : 0 <= sum_R (zip_with Rmult z z).
Proof. induction z as [|a z IH]; cbn; [lra | nra]. Qed.

(** The matrix of the sigmoids of the inner products of the rows. *)
Lemma gram_matrix (Z : matrix) (n c : nat) :
  (0 < n)%nat -> (0 < c)%nat -> length Z = n ->
  Forall (fun r => length r = c) Z ->
  exists A,
    dot_product_decode Z = Ok A
    /\ length A = n /\ Forall (fun r => length r = n) A
    /\ (forall i j zi zj, Z !! i = Some zi -> Z !! j = Some zj ->
          entry_R A i j = Some (sigmoid (sum_R (zip_with Rmult zi zj))))
    /\ (forall i j, (i < n)%nat -> (j < n)%nat -> entry_R A i j = entry_R A j i)
    /\ (forall i j a, entry_R A i j = Some a -> 0 <= a <= 1)
    /\ (forall i a, entry_R A i i = Some a -> 1 / 2 <= a).
Proof.
  intros Hn Hc Hlen Hrows.
  assert (HlenT : length (transpose Z) = c).
  { unfold transpose. rewrite length_map, length_seq.
    exact (width_rows Z n c Hn Hlen Hrows). }
  assert (HwT : width (transpose Z) = n).
  { unfold transpose. rewrite (width_rows Z n c Hn Hlen Hrows).
    destruct c as [|c]; [lia|]. cbn. rewrite length_map. exact Hlen. }
  set (A := map (map sigmoid)
              (map (fun row =>
                 map (fun j => sum_R (zip_with Rmult row
                                        (map (fun r => nth j r 0) (transpose Z))))
                     (seq 0 n)) Z)).
  assert (Hrun : dot_product_decode Z = Ok A).
  { unfold dot_product_decode, matmul. rewrite HlenT.
    rewrite decide_True by exact Hrows. rewrite HwT. reflexivity. }
  assert (Hentry : forall i j zi zj, Z !! i = Some zi -> Z !! j = Some zj ->
            entry_R A i j = Some (sigmoid (sum_R (zip_with Rmult zi zj)))).
  { intros i j zi zj Hi Hj. unfold entry_R, A.
    rewrite !list_lookup_fmap, Hi. cbn.
    rewrite !list_lookup_fmap.
    assert (Hjn : (j < n)%nat) by (rewrite <- Hlen; eapply lookup_lt_Some; exact Hj).
    rewrite lookup_seq_lt by exact Hjn. cbn.
    rewrite (transpose_column Z n c j zj Hn Hlen Hrows Hj). reflexivity. }
  exists A. split; [exact Hrun|].
  split; [unfold A; rewrite !length_map; exact Hlen|].
  split.
  { unfold A. apply Forall_forall. intros r Hr.
    apply list_elem_of_fmap in Hr as (r' & -> & Hr').
    apply list_elem_of_fmap in Hr' as (row & -> & _).
    rewrite !length_map, length_seq. reflexivity. }
  split; [exact Hentry|].
  assert (Hcases : forall i j a, entry_R A i j = Some a ->
            exists zi zj, Z !! i = Some zi /\ Z !! j = Some zj
                          /\ a = sigmoid (sum_R (zip_with Rmult zi zj))).
  { intros i j a Ha.
    assert (Hi : (i < n)%nat).
    { unfold entry_R in Ha. destruct (A !! i) as [row|] eqn:E; [|discriminate].
      apply lookup_lt_Some in E. unfold A in E. rewrite !length_map in E. lia. }
    assert (Hj : (j < n)%nat).
    { unfold entry_R, A in Ha. rewrite !list_lookup_fmap in Ha.
      destruct (Z !! i) as [zi|]; [|discriminate]. cbn in Ha.
      apply lookup_lt_Some in Ha. rewrite !length_map, length_seq in Ha. exact Ha. }
    destruct (lookup_lt_is_Some_2 Z i) as [zi Hzi]; [lia|].
    destruct (lookup_lt_is_Some_2 Z j) as [zj Hzj]; [lia|].
    exists zi, zj. split; [exact Hzi|]. split; [exact Hzj|].
    rewrite (Hentry i j zi zj Hzi Hzj) in Ha. injection Ha as <-. reflexivity. }
  split; [|split].
  - intros i j Hi Hj.
    destruct (lookup_lt_is_Some_2 Z i) as [zi Hzi]; [lia|].
    destruct (lookup_lt_is_Some_2 Z j) as [zj Hzj]; [lia|].
    rewrite (Hentry i j zi zj Hzi Hzj), (Hentry j i zj zi Hzj Hzi).
    rewrite (zip_with_comm Rmult zi zj) by (intros; apply Rmult_comm). reflexivity.
  - intros i j a Ha. destruct (Hcases i j a Ha) as (zi & zj & _ & _ & ->).
    apply sigmoid_unit.
  - intros i a Ha. destruct (Hcases i i a Ha) as (zi & zj & Hzi & Hzj & ->).
    rewrite Hzi in Hzj. injection Hzj as <-.
    apply sigmoid_half, sum_squares_nonneg.
Qed.

(** X17. For a matrix [Z] of [n] embeddings, [dot_product_decode]
    returns the [n x n] matrix whose entry (i, j) is the sigmoid of the
    inner product of embeddings [i] and [j]. The matrix is symmetric, its
    entries lie between 0 and 1 (the bounds included), and its diagonal is
    at least 1/2: every node is predicted to link to itself. *)
Theorem dot_product_decode_gram (Z : matrix) (n c : nat) :
  (0 < n)%nat -> (0 < c)%nat -> length Z = n ->
  Forall (fun r => length r = c) Z ->
  exists A,
    dot_product_decode Z = Ok A
    /\ length A = n /\ Forall (fun r => length r = n) A
    /\ (forall i j zi zj, Z !! i = Some zi -> Z !! j = Some zj ->
          entry_R A i j = Some (sigmoid (sum_R (zip_with Rmult zi zj))))
    /\ (forall i j, (i < n)%nat -> (j < n)%nat -> entry_R A i j = entry_R A j i)
    /\ (forall i j a, entry_R A i j = Some a -> 0 <= a <= 1)
    /\ (forall i a, entry_R A i i = Some a -> 1 / 2 <= a).
Proof. apply gram_matrix. Qed.

Lemma dot_product_decode_gram_witness :
  exists A,
    dot_product_decode [[1; 0]; [-1; 2]] = Ok A
    /\ length A = 2%nat /\ Forall (fun r => length r = 2%nat) A
    /\ (forall i j zi zj,
          [[1; 0]; [-1; 2]] !! i = Some zi -> [[1; 0]; [-1; 2]] !! j = Some zj ->
          entry_R A i j = Some (sigmoid (sum_R (zip_with Rmult zi zj))))
    /\ (forall i j, (i < 2)%nat -> (j < 2)%nat -> entry_R A i j = entry_R A j i)
    /\ (forall i j a, entry_R A i j = Some a -> 0 <= a <= 1)
    /\ (forall i a, entry_R A i i = Some a -> 1 / 2 <= a).
Proof.
  apply (dot_product_decode_gram [[1; 0]; [-1; 2]] 2 2);
    [lia | lia | reflexivity | repeat constructor].
Defined.

End LinkPredictionSpec.

(** ** [GCN], [MultiGCN], [GenerativeGNN] *)

Module ConvolutionSpec.
Import WalkPool LinkPrediction Convolution.
Local Open Scope R_scope.

Lemma GCN_forward_raises (self : GCN) x edge_index edge_attr :
  raises (GCN_forward self x edge_index edge_attr).
Proof.
  unfold GCN_forward. destruct (lin self x); eexists; reflexivity.
Qed.

Lemma GCN_forward_name_error (self : GCN) x edge_index edge_attr x' :
  lin self x = Ok x' -> GCN_forward self x edge_index edge_attr = Raise NameError.
Proof. intros Hx. unfold GCN_forward. rewrite Hx. reflexivity. Qed.

Lemma for_fold_first_raises {A St} (body : A -> St -> result St) a l s :
  raises (body a s) -> raises (for_fold body (a :: l) s).
Proof. intros [e He]. cbn. rewrite He. eexists; reflexivity. Qed.

Lemma stack_forward_raises convs dropout x adj_t edge_attr emb_ea :
  raises (stack_forward convs dropout x adj_t edge_attr emb_ea).
Proof.
  unfold stack_forward.
  destruct (matmul edge_attr emb_ea) as [ea|e]; cbn [mbind result_bind];
    [|eexists; reflexivity].
  destruct (imap pair (removelast convs)) as [|[k conv] rest] eqn:E.
  - cbn [for_fold mbind result_bind].
    destruct (last convs) as [conv|]; cbn [mbind result_bind];
      [apply GCN_forward_raises | eexists; reflexivity].
  - match goal with
    | |- raises (for_fold ?body _ _ ≫= _) =>
        destruct (for_fold_first_raises body (k, conv) rest x) as [e He]
    end.
    + cbn [fst snd].
      destruct (GCN_forward_raises conv x adj_t ea) as [e He]. rewrite He.
      eexists; reflexivity.
    + rewrite He. eexists; reflexivity.
Qed.

(** X18. [GCN.forward] returns for no input: once its linear layer has
    answered, it looks up [degree], a name the module does not have, which
    is a NameError. [MultiGCN.forward] and [GenerativeGNN.forward] run
    such a convolution first whatever the number of layers, so they return
    for no input either (when the product of line 698 or 755 is refused
    they raise that RuntimeError instead). *)
Theorem gcn_forward_never_returns :
  (forall (self : GCN) x edge_index edge_attr,
     raises (GCN_forward self x edge_index edge_attr)
     /\ (forall x', lin self x = Ok x' ->
           GCN_forward self x edge_index edge_attr = Raise NameError))
  /\ (forall (self : MultiGCN) x adj_t edge_attr emb_ea,
        raises (MultiGCN_forward self x adj_t edge_attr emb_ea))
  /\ (forall (self : GenerativeGNN) x adj_t edge_attr emb_ea,
        raises (GenerativeGNN_forward self x adj_t edge_attr emb_ea))
  /\ (forall Linear dim_in dim_hidden dim_out num_layers dropout
             x adj_t edge_attr emb_ea ea x',
        matmul edge_attr emb_ea = Ok ea ->
        Linear 0%nat dim_in dim_hidden x = Ok x' ->
        MultiGCN_forward
          (MultiGCN_init Linear dim_in dim_hidden dim_out num_layers dropout)
          x adj_t edge_attr emb_ea
        = Raise NameError).
Proof.
  split; [|split; [|split]].
  - intros self x edge_index edge_attr. split; [apply GCN_forward_raises|].
    apply GCN_forward_name_error.
  - intros. apply stack_forward_raises.
  - intros. apply stack_forward_raises.
  - intros Linear dim_in dim_hidden dim_out num_layers dropout
           x adj_t edge_attr emb_ea ea x' Hea Hx.
    unfold MultiGCN_forward, MultiGCN_init, stack_forward, gcn_stack.
    cbn [convs Convolution.dropout]. rewrite Hea. cbn [mbind result_bind].
    set (rest := map _ (seq 0 (num_layers - 2)) ++ [_]).
    assert (Hrest : rest <> []) by (unfold rest; destruct (map _ _); discriminate).
    destruct rest as [|c rest']; [congruence|]. cbn [removelast imap for_fold fst snd].
    rewrite (GCN_forward_name_error (mkGCN (Linear 0%nat dim_in dim_hidden))
               x adj_t ea x' Hx).
    reflexivity.
Qed.

End ConvolutionSpec.

(** ** More of [WalkPooling] *)

Module WalkSpec.
Import WalkPool WalkPoolSpec.

(** *** The positions of the nodes inside their graphs *)

(** The positions [0 .. c-1] for each graph in turn, [c] its number of
    nodes. *)
Definition blocks (batch : list nat) (k : nat) : list nat :=
  concat (map (fun b => seq 0 (cnt batch b)) (seq 0 k)).

Lemma blocks_succ batch k :
  blocks batch (S k) = blocks batch k ++ seq 0 (cnt batch k).
Proof.
  unfold blocks. rewrite seq_S, map_app, concat_app. cbn.
  rewrite app_nil_r. reflexivity.
Qed.

Lemma blocks_length batch k : length (blocks batch k) = psum batch k.
Proof.
  induction k as [|k IH]; [cbn; symmetry; apply psum_0|].
  rewrite blocks_succ, length_app, length_seq, IH, psum_succ. reflexivity.
Qed.

Lemma psum_all batch :
  psum batch (S (foldr Nat.max 0 batch)) = length batch.
Proof.
  unfold psum. rewrite filter_all; [reflexivity|].
  eapply Forall_impl; [apply foldr_max_bound|]. cbn. intros; lia.
Qed.

Lemma psum_mono batch j k : j <= k -> psum batch j <= psum batch k.
Proof.
  intros Hjk. unfold psum. induction batch as [|a batch IH]; [reflexivity|].
  rewrite !filter_cons.
  destruct (decide (a < j)), (decide (a < k)); cbn [length]; lia.
Qed.

Lemma blocks_lookup batch k b o :
  b < k -> o < cnt batch b -> blocks batch k !! (psum batch b + o) = Some o.
Proof.
  intros Hb Ho. induction k as [|k IH]; [lia|].
  rewrite blocks_succ. destruct (decide (b = k)) as [->|Hne].
  - rewrite lookup_app_r by (rewrite blocks_length; lia).
    rewrite blocks_length.
    replace (psum batch k + o - psum batch k) with o by lia.
    apply lookup_seq_lt. exact Ho.
  - rewrite lookup_app_l; [apply IH; lia|].
    rewrite blocks_length.
    pose proof (psum_mono batch (S b) k ltac:(lia)) as H.
    rewrite psum_succ in H. lia.
Qed.

Lemma filter_none {X} (P : X -> Prop) `{forall a, Decision (P a)} (l : list X) :
  Forall (fun a => ~ P a) l -> filter P l = [].
Proof.
  induction 1 as [|a l Ha _ IH]; [reflexivity|].
  rewrite filter_cons, decide_False by exact Ha. exact IH.
Qed.

Lemma sorted_position (batch : list nat) i b :
  StronglySorted le batch -> batch !! i = Some b ->
  psum batch b <= i < psum batch (S b).
Proof.
  intros Hs Hi.
  pose proof (take_drop_middle batch i b Hi) as E.
  assert (Hlen : length (take i batch) = i).
  { rewrite length_take. apply lookup_lt_Some in Hi. lia. }
  rewrite <- E in Hs.
  assert (Hbefore : Forall (fun a => a <= b) (take i batch)).
  { apply Forall_forall. intros a Ha.
    eapply (StronglySorted_app_1_elem_of le); [exact Hs | exact Ha | left]. }
  assert (Hafter : Forall (fun a => b <= a) (b :: drop (S i) batch)).
  { apply StronglySorted_app_1_r in Hs. inversion Hs; subst.
    constructor; [lia | assumption]. }
  unfold psum. rewrite <- E, !filter_app, !length_app.
  split.
  - assert (H0 : filter (fun a => a < b) (b :: drop (S i) batch) = []).
    { apply filter_none. eapply Forall_impl; [exact Hafter|].
      cbn. intros; lia. }
    rewrite H0. cbn [length].
    pose proof (length_filter (fun a => a < b) (take i batch)). lia.
  - rewrite (filter_all (fun a => a < S b) (take i batch))
      by (eapply Forall_impl; [exact Hbefore | cbn; intros; lia]).
    rewrite filter_cons, decide_True by lia. cbn [length]. lia.
Qed.

(** X19. For a batch vector in which every graph id up to the largest
    occurs, lines 997-1009 of [forward] build the tensor [index] as the
    positions [0 .. c-1] of each graph in turn, [c] being the number of
    nodes torch.unique counts for it: [index] depends on the counts only.
    When the batch vector is sorted, as the batches of torch_geometric
    are, [index[i]] is the position of node [i] inside its own graph: [i]
    minus the number of nodes of the graphs before it. *)
Theorem make_index_positions (batch : list nat) :
  (forall b, b <= foldr Nat.max 0 batch -> b ∈ batch) ->
  exists index,
    make_index batch (S (foldr Nat.max 0 batch)) (unique_counts batch) = Ok index
    /\ index = blocks batch (S (foldr Nat.max 0 batch))
    /\ length index = length batch
    /\ (StronglySorted le batch ->
        forall i b, batch !! i = Some b -> index !! i = Some (i - psum batch b)).
Proof.
  intros Hall. set (m := foldr Nat.max 0 batch) in *.
  rewrite (unique_counts_contiguous batch Hall). fold m.
  set (counts := map (cnt batch) (seq 0 (S m))).
  assert (Hcounts : forall i, i <= m -> counts !! i = Some (cnt batch i)).
  { intros i Hi. unfold counts. rewrite list_lookup_fmap, lookup_seq_lt by lia.
    reflexivity. }
  destruct (for_range_indexed
              (fun i (st : list nat * nat) =>
                 st.1 = blocks batch i ++ replicate (length batch - psum batch i) 0
                 /\ st.2 = psum batch i)
              (S m)
              (fun i (st : list nat * nat) =>
                 c ← getidx counts i;
                 index ← assign_slice st.1 st.2 (seq 0 c);
                 mret (index, st.2 + c))
              (replicate (length batch) 0, 0))
    as (r & Hr & Hidx & _).
  - intros i [index id_start] Hi [Hindex Hstart]. cbn [fst snd] in *. subst.
    unfold getidx. rewrite (Hcounts i) by lia. cbn [mbind result_bind].
    pose proof (psum_succ batch i) as Hps. pose proof (psum_le batch (S i)) as Hle.
    pose proof (blocks_length batch i) as Hbl.
    unfold assign_slice. rewrite length_seq, length_app, length_replicate, Hbl.
    rewrite decide_True by lia. cbn [mbind result_bind mret result_ret].
    eexists. split; [reflexivity|]. cbn [fst snd]. split; [|lia].
    replace (psum batch i `min` (psum batch i + (length batch - psum batch i)))
      with (length (blocks batch i)) by lia.
    rewrite take_app_length.
    replace ((psum batch i + cnt batch i)
               `min` (psum batch i + (length batch - psum batch i)))
      with (length (blocks batch i) + cnt batch i) by lia.
    rewrite drop_app_add, drop_replicate, blocks_succ, <- app_assoc.
    do 3 f_equal. lia.
  - cbn [fst snd]. rewrite psum_0, Nat.sub_0_r. split; reflexivity.
  - cbn [fst snd] in Hidx. unfold m in Hidx at 2. rewrite psum_all, Nat.sub_diag in Hidx.
    cbn [replicate] in Hidx. rewrite app_nil_r in Hidx.
    exists r.1. unfold make_index. rewrite Hr. cbn [mbind result_bind mret result_ret].
    split; [reflexivity|]. split; [exact Hidx|].
    split; [rewrite Hidx, blocks_length; apply psum_all|].
    intros Hs i b Hi. rewrite Hidx.
    destruct (sorted_position batch i b Hs Hi) as [Hlo Hhi].
    rewrite psum_succ in Hhi.
    replace i with (psum batch b + (i - psum batch b)) at 1 by lia.
    apply blocks_lookup; [|lia].
    assert (b <= m); [|lia].
    pose proof (foldr_max_bound batch) as Hb. rewrite Forall_forall in Hb.
    apply Hb. eapply list_elem_of_lookup_2. exact Hi.
Qed.

Lemma make_index_positions_witness :
  exists index,
    make_index [0; 0; 1; 1; 1] 2 (unique_counts [0; 0; 1; 1; 1]) = Ok index
    /\ index = blocks [0; 0; 1; 1; 1] 2
    /\ length index = 5
    /\ (StronglySorted le [0; 0; 1; 1; 1] ->
        forall i b, [0; 0; 1; 1; 1] !! i = Some b ->
                    index !! i = Some (i - psum [0; 0; 1; 1; 1] b)).
Proof.
  apply (make_index_positions [0; 0; 1; 1; 1]).
  intros b Hb. cbn in Hb.
  destruct b as [|[|b]]; [apply (bool_decide_unpack _); reflexivity
                         | apply (bool_decide_unpack _); reflexivity | lia].
Defined.

(** *** The two ends of a candidate link *)

Lemma for_range_ext {St} (n : nat) (f g : nat -> St -> result St) (s : St) :
  (forall i s, f i s = g i s) -> for_range n f s = for_range n g s.
Proof.
  intros H. unfold for_range. generalize (Ok s) as acc. generalize (seq 0 n) as l.
  induction l as [|i l IH]; intros acc; [reflexivity|].
  cbn [foldl]. rewrite <- IH. f_equal.
  destruct acc as [s'|e]; cbn; [apply H | reflexivity].
Qed.

Lemma walk_step_symmetric edge_index batch index node_i node_j wp wm c st :
  walk_step edge_index batch index node_i node_j wp wm c st
  = walk_step edge_index batch index node_j node_i wp wm c st.
Proof.
  unfold walk_step. destruct st as [[x_p x_m] lv].
  destruct (propagate edge_index x_p wp) as [x_p'|e]; cbn [mbind result_bind];
    [|reflexivity].
  destruct (propagate edge_index x_m wm) as [x_m'|e]; cbn [mbind result_bind];
    [|reflexivity].
  rewrite (nodelevel_symmetric x_p' index node_i node_j).
  rewrite (nodelevel_symmetric x_m' index node_i node_j).
  rewrite (linklevel_symmetric x_p' index node_i node_j).
  rewrite (linklevel_symmetric x_m' index node_i node_j).
  reflexivity.
Qed.

(** X20. The features the walk loop writes for one head (lines
    1035-1071) do not depend on which end of a candidate link is called
    [node_i] and which [node_j]: exchanging the two lists gives the same
    node-level, link-level and graph-level columns, or the same
    exception. *)
Theorem walk_head_symmetric walk_len edge_index batch index max_nodes
    node_i node_j weights_p weights_m head lv :
  walk_head walk_len edge_index batch index max_nodes node_i node_j
            weights_p weights_m head lv
  = walk_head walk_len edge_index batch index max_nodes node_j node_i
              weights_p weights_m head lv.
Proof.
  unfold walk_head.
  destruct (one_hot _ _ _) as [x0|e]; cbn [mbind result_bind]; [|reflexivity].
  destruct (getidx weights_p head) as [wp|e]; cbn [mbind result_bind]; [|reflexivity].
  destruct (propagate edge_index x0 wp) as [x_p|e]; cbn [mbind result_bind];
    [|reflexivity].
  destruct (getidx weights_m head) as [wm|e]; cbn [mbind result_bind]; [|reflexivity].
  destruct (propagate edge_index x0 wm) as [x_m|e]; cbn [mbind result_bind];
    [|reflexivity].
  rewrite (for_range_ext walk_len _
             (fun i st => walk_step edge_index batch index node_j node_i wp wm
                                    (head * walk_len + i) st));
    [reflexivity|].
  intros i st. apply walk_step_symmetric.
Qed.

(** *** Propagation *)

(** X21. One step of propagation over edges that join rows of [x], with
    one weight per edge, returns a matrix of the shape of [x], and the
    result does not depend on the order in which the edges are stored:
    any rearrangement of the edges together with their weights gives the
    same matrix. *)
Theorem propagate_edge_order (z z' : list (nat * nat * R)) (x : list (list R))
    (n w : nat) :
  z ≡ₚ z' ->
  is_matrix n w x ->
  Forall (fun e : nat * nat * R => e.1.1 < n /\ e.1.2 < n) z ->
  exists y,
    propagate z.*1 x z.*2 = Ok y
    /\ propagate z'.*1 x z'.*2 = Ok y
    /\ is_matrix n w y.
Proof.
  intros Hperm Hx Hz.
  destruct (propagate_shape z.*1 x z.*2 n w Hx) as (y & Hy & Hshape).
  - apply Forall_fmap. eapply Forall_impl; [exact Hz|]. cbn. tauto.
  - rewrite !length_fmap. reflexivity.
  - exists y. split; [exact Hy|]. split; [|exact Hshape].
    rewrite <- (propagate_permutation z z' x Hperm). exact Hy.
Qed.

Lemma propagate_edge_order_witness :
  exists y,
    propagate [(0, 1, 2%R); (1, 0, 3%R)].*1 [[1%R]; [5%R]] [(0, 1, 2%R); (1, 0, 3%R)].*2
    = Ok y
    /\ propagate [(1, 0, 3%R); (0, 1, 2%R)].*1 [[1%R]; [5%R]]
                 [(1, 0, 3%R); (0, 1, 2%R)].*2 = Ok y
    /\ is_matrix 2 1 y.
Proof.
  apply (propagate_edge_order [(0, 1, 2%R); (1, 0, 3%R)] [(1, 0, 3%R); (0, 1, 2%R)]
                              [[1%R]; [5%R]] 2 1).
  - apply perm_swap.
  - split; [reflexivity | repeat constructor].
  - repeat constructor.
Defined.

(** *** The layout of the features *)

Lemma cat1_rows (a b c : list (list R)) : cat1 a b = Ok c -> c = zip_with app a b.
Proof.
  unfold cat1. destruct (decide _); [|discriminate]. intros [= <-]. reflexivity.
Qed.

Lemma zip_app_lookup (a b : list (list R)) i x y :
  a !! i = Some x -> b !! i = Some y -> zip_with app a b !! i = Some (x ++ y).
Proof. intros Ha Hb. rewrite lookup_zip_with, Ha, Hb. reflexivity. Qed.

Lemma nth_tabulated (g : nat -> R) (n b : nat) :
  b < n -> nth b (map g (seq 0 n)) 0%R = g b.
Proof.
  intros Hb. rewrite nth_lookup, list_lookup_fmap, lookup_seq_lt by exact Hb.
  reflexivity.
Qed.

(** The two directions of candidate link [b] are entries [2b] and [2b+1]
    of a column of [omega]. *)
Definition paired (w : list R) (b : nat) : R :=
  (nth (2 * b + 1) w 0 + nth (2 * b) w 0)%R.

Lemma omega_pairs_values (omega : list (list R)) (B : nat) :
  Forall (fun w => length w = 2 * B) omega ->
  for_each (fun w => a ← take_indices w (arange2 1 (2 * B));
                     b ← take_indices w (arange2 0 (2 * B));
                     add_broadcast a b) omega
  = Ok (map (fun w => map (paired w) (seq 0 B)) omega).
Proof.
  intros Hlen. apply for_each_ok. eapply Forall_impl; [exact Hlen|].
  intros w Hw. cbn beta in Hw |- *. unfold arange2.
  replace (Nat.div2 (2 * B + 1 - 1)) with B
    by (replace (2 * B + 1 - 1) with (2 * B) by lia; symmetry; apply Nat.div2_double).
  replace (Nat.div2 (2 * B + 1 - 0)) with B
    by (replace (2 * B + 1 - 0) with (S (2 * B)) by lia;
        symmetry; apply Nat.div2_succ_double).
  rewrite (take_indices_map w (fun k => 1 + 2 * k) 0%R (seq 0 B))
    by (apply Forall_forall; intros k Hk; apply elem_of_seq in Hk; lia).
  cbn [mbind result_bind].
  rewrite (take_indices_map w (fun k => 0 + 2 * k) 0%R (seq 0 B))
    by (apply Forall_forall; intros k Hk; apply elem_of_seq in Hk; lia).
  cbn [mbind result_bind]. unfold add_broadcast.
  rewrite decide_True by (rewrite !length_map; reflexivity).
  f_equal. rewrite zip_with_map_same. apply map_ext. intros k.
  unfold paired. rewrite !nth_lookup.
  replace (2 * k + 1) with (1 + 2 * k) by lia.
  replace (2 * k) with (0 + 2 * k) at 2 by lia. reflexivity.
Qed.

(** The five accumulators as lines 1017-1021 create them: [B] rows of
    [walk_len * heads] zeros each. *)
Definition zero_levels (B width : nat) : levels :=
  mkLevels (replicate B (replicate width 0%R))
           (replicate B (replicate width 0%R))
           (replicate B (replicate width 0%R))
           (replicate B (replicate width 0%R))
           (replicate B (replicate width 0%R)).

(** X23. What lines 993-1081 of [forward] return once they are handed
    weights: for a batch whose graph ids are 0..B-1, edges that join nodes
    of the batch, two stored candidate edges per graph, and [weights_p],
    [weights_m] and [omega] with one column per head (one entry per edge,
    per candidate edge for [omega]), one row of features per graph, of
    width [heads * (5 * walk_len + 1)]. The loop over the heads (lines
    1035-1071), started from accumulators of zeros, with the positions
    [index] of the nodes in their graphs and the two ends [node_i] and
    [node_j] of the candidate links (the sources of the candidate edges
    stored at even and at odd places), ends with accumulators [lv]; and row
    [b] of the features is, in this order, row [b] of [graphlevel], the
    [omega] block, and row [b] of [nodelevel_p], of [nodelevel_m], of
    [linklevel_p] and of [linklevel_m]. Every block has [walk_len * heads]
    entries except the [omega] block, which has one entry per head: the
    sum of entries [2b+1] and [2b] of that head's column of [omega], the
    two stored directions of candidate link [b]. *)
Theorem walk_features_layout heads walk_len weights_p weights_m omega
    edge_index edge_mask batch :
  (forall b, b <= foldr Nat.max 0 batch -> b ∈ batch) ->
  Forall (fun e : nat * nat => e.1 < length batch /\ e.2 < length batch)
         edge_index ->
  length edge_mask = length edge_index ->
  length (candidate_edges edge_index edge_mask) = 2 * S (foldr Nat.max 0 batch) ->
  length weights_p = heads ->
  Forall (fun c => length c = length edge_index) weights_p ->
  length weights_m = heads ->
  Forall (fun c => length c = length edge_index) weights_m ->
  length omega = heads ->
  Forall (fun c => length c = 2 * S (foldr Nat.max 0 batch)) omega ->
  exists feats lv index max_nodes node_i node_j,
    walk_features heads walk_len weights_p weights_m omega
                  edge_index edge_mask batch = Ok feats
    /\ is_matrix (S (foldr Nat.max 0 batch)) (heads * (5 * walk_len + 1)) feats
    /\ torch_max (unique_counts batch) = Ok max_nodes
    /\ make_index batch (S (foldr Nat.max 0 batch)) (unique_counts batch)
       = Ok index
    /\ take_indices (candidate_edges edge_index edge_mask).*1
                    (arange2 0 (2 * S (foldr Nat.max 0 batch))) = Ok node_i
    /\ take_indices (candidate_edges edge_index edge_mask).*1
                    (arange2 1 (2 * S (foldr Nat.max 0 batch))) = Ok node_j
    /\ for_range heads
         (fun head lv =>
            walk_head walk_len edge_index batch index max_nodes node_i node_j
                      weights_p weights_m head lv)
         (zero_levels (S (foldr Nat.max 0 batch)) (walk_len * heads))
       = Ok lv
    /\ levels_shape (S (foldr Nat.max 0 batch)) (walk_len * heads) lv
    /\ (forall b, b < S (foldr Nat.max 0 batch) ->
          exists gl nl_p nl_m ll_p ll_m,
            graphlevel lv !! b = Some gl
            /\ nodelevel_p lv !! b = Some nl_p
            /\ nodelevel_m lv !! b = Some nl_m
            /\ linklevel_p lv !! b = Some ll_p
            /\ linklevel_m lv !! b = Some ll_m
            /\ feats !! b
               = Some (gl ++ map (fun w => paired w b) omega
                          ++ nl_p ++ nl_m ++ ll_p ++ ll_m)).
Proof.
  intros Hall Hedges Hmask Hcand Hp Hp' Hm Hm' Ho Ho'.
  set (B := S (foldr Nat.max 0 batch)) in *.
  assert (Hne : batch <> []).
  { intros ->. specialize (Hall 0 ltac:(cbn; lia)). inversion Hall. }
  destruct (make_index_ok batch Hall) as (index & max_nodes & Hmaxn & Hidx & Hlen & Hlt).
  unfold walk_features.
  assert (Hmax : torch_max batch = Ok (foldr Nat.max 0 batch))
    by (destruct batch; [congruence | reflexivity]).
  rewrite Hmax. cbn [mbind result_bind]. rewrite Hmaxn. cbn [mbind result_bind].
  rewrite Hidx. cbn [mbind result_bind].
  rewrite (mask_select_candidates _ _ Hmask). cbn [mbind result_bind].
  fold B. rewrite Hcand.
  destruct (arange2_even B) as [He He']. destruct (arange2_odd B) as [Hod Hod'].
  unfold broadcast_length. rewrite decide_True by congruence.
  cbn [mbind result_bind].
  rewrite (omega_pairs_values omega B Ho'). cbn [mbind result_bind].
  set (om := map (fun w => map (paired w) (seq 0 B)) omega).
  set (link := candidate_edges edge_index edge_mask) in *.
  assert (Hlink : Forall (fun r => r < length batch) link.*1).
  { apply Forall_fmap, Forall_forall. intros e He0.
    apply candidate_edges_in in He0. rewrite Forall_forall in Hedges.
    cbn. apply (Hedges e He0). }
  destruct (take_indices_ok link.*1 (arange2 0 (2 * B))) as (node_i & Hni & Hni');
    [now rewrite length_fmap, Hcand|].
  destruct (take_indices_ok link.*1 (arange2 1 (2 * B))) as (node_j & Hnj & Hnj');
    [now rewrite length_fmap, Hcand|].
  rewrite Hni. cbn [mbind result_bind]. rewrite Hnj. cbn [mbind result_bind].
  pose proof (take_indices_Forall _ _ _ _ Hni Hlink) as Hni_n.
  pose proof (take_indices_Forall _ _ _ _ Hnj Hlink) as Hnj_n.
  destruct (for_range_invariant
              (levels_shape B (walk_len * heads)) heads
              (fun head lv =>
                 walk_head walk_len edge_index batch index max_nodes node_i node_j
                           weights_p weights_m head lv)
              (mkLevels (replicate B (replicate (walk_len * heads) 0%R))
                        (replicate B (replicate (walk_len * heads) 0%R))
                        (replicate B (replicate (walk_len * heads) 0%R))
                        (replicate B (replicate (walk_len * heads) 0%R))
                        (replicate B (replicate (walk_len * heads) 0%R))))
    as (lv & Hlv & Hshape).
  - intros head lv Hhead Hlv.
    apply (walk_head_ok edge_index batch index node_i node_j (length batch));
      try assumption; try reflexivity; try lia; try (split; [congruence | assumption]).
    nia.
  - unfold levels_shape. cbn. pose proof (zeros_shape B (walk_len * heads)). tauto.
  - rewrite Hlv. cbn [mbind result_bind].
    destruct Hshape as (Hnp & Hnm & Hlp & Hlm & Hgl).
    assert (Hom : length om = heads) by (unfold om; rewrite length_map; exact Ho).
    destruct (cat1_shape (graphlevel lv) (rows_of (length (arange2 1 (2 * B))) om)
                         B (walk_len * heads) (length om)) as (f1 & Hf1e & Hf1);
      [assumption | rewrite Hod; apply rows_of_shape |].
    rewrite Hf1e. cbn [mbind result_bind].
    destruct (cat1_shape f1 (nodelevel_p lv) B _ _ Hf1 Hnp) as (f2 & Hf2e & Hf2).
    rewrite Hf2e. cbn [mbind result_bind].
    destruct (cat1_shape f2 (nodelevel_m lv) B _ _ Hf2 Hnm) as (f3 & Hf3e & Hf3).
    rewrite Hf3e. cbn [mbind result_bind].
    destruct (cat1_shape f3 (linklevel_p lv) B _ _ Hf3 Hlp) as (f4 & Hf4e & Hf4).
    rewrite Hf4e. cbn [mbind result_bind].
    destruct (cat1_shape f4 (linklevel_m lv) B _ _ Hf4 Hlm) as (f5 & Hf5e & Hf5).
    exists f5, lv, index, max_nodes, node_i, node_j. split; [exact Hf5e|].
    split.
    { replace (heads * (5 * walk_len + 1))
        with (walk_len * heads + length om + walk_len * heads + walk_len * heads
              + walk_len * heads + walk_len * heads) by (rewrite Hom; lia).
      exact Hf5. }
    split; [first [reflexivity | exact Hmaxn]|].
    split; [first [reflexivity | exact Hidx]|].
    split; [first [reflexivity | exact Hni]|].
    split; [first [reflexivity | exact Hnj]|].
    split; [exact Hlv|].
    split; [unfold levels_shape; tauto|].
    intros b Hb.
    destruct (lookup_lt_is_Some_2 (graphlevel lv) b) as [gl Hgl'];
      [rewrite (proj1 Hgl); exact Hb|].
    destruct (lookup_lt_is_Some_2 (nodelevel_p lv) b) as [nlp Hnlp];
      [rewrite (proj1 Hnp); exact Hb|].
    destruct (lookup_lt_is_Some_2 (nodelevel_m lv) b) as [nlm Hnlm];
      [rewrite (proj1 Hnm); exact Hb|].
    destruct (lookup_lt_is_Some_2 (linklevel_p lv) b) as [llp Hllp];
      [rewrite (proj1 Hlp); exact Hb|].
    destruct (lookup_lt_is_Some_2 (linklevel_m lv) b) as [llm Hllm];
      [rewrite (proj1 Hlm); exact Hb|].
    exists gl, nlp, nlm, llp, llm. repeat (split; [assumption|]).
    apply cat1_rows in Hf1e, Hf2e, Hf3e, Hf4e, Hf5e. subst f5 f4 f3 f2 f1.
    assert (Hrow : rows_of (length (arange2 1 (2 * B))) om !! b
                   = Some (map (fun w => paired w b) omega)).
    { rewrite Hod. unfold rows_of. rewrite list_lookup_fmap, lookup_seq_lt by exact Hb.
      cbn. f_equal. unfold om. rewrite map_map. apply map_ext. intros w.
      apply nth_tabulated. exact Hb. }
    rewrite (zip_app_lookup _ _ b _ llm
               (zip_app_lookup _ _ b _ llp
                  (zip_app_lookup _ _ b _ nlm
                     (zip_app_lookup _ _ b _ nlp
                        (zip_app_lookup _ _ b _ _ Hgl' Hrow) Hnlp) Hnlm) Hllp) Hllm).
    f_equal. rewrite <- !app_assoc. reflexivity.
Qed.

Lemma walk_features_layout_witness :
  exists feats lv index max_nodes node_i node_j,
    walk_features 1 2 [replicate 10 1%R] [replicate 10 1%R] [[1%R; 1%R]]
                  ring_edges ring_mask ring_batch = Ok feats
    /\ is_matrix (S (foldr Nat.max 0 ring_batch)) (1 * (5 * 2 + 1)) feats
    /\ torch_max (unique_counts ring_batch) = Ok max_nodes
    /\ make_index ring_batch (S (foldr Nat.max 0 ring_batch))
                  (unique_counts ring_batch)
       = Ok index
    /\ take_indices (candidate_edges ring_edges ring_mask).*1
                    (arange2 0 (2 * S (foldr Nat.max 0 ring_batch))) = Ok node_i
    /\ take_indices (candidate_edges ring_edges ring_mask).*1
                    (arange2 1 (2 * S (foldr Nat.max 0 ring_batch))) = Ok node_j
    /\ for_range 1
         (fun head lv =>
            walk_head 2 ring_edges ring_batch index max_nodes node_i node_j
                      [replicate 10 1%R] [replicate 10 1%R] head lv)
         (zero_levels (S (foldr Nat.max 0 ring_batch)) (2 * 1))
       = Ok lv
    /\ levels_shape (S (foldr Nat.max 0 ring_batch)) (2 * 1) lv
    /\ (forall b, b < S (foldr Nat.max 0 ring_batch) ->
          exists gl nl_p nl_m ll_p ll_m,
            graphlevel lv !! b = Some gl
            /\ nodelevel_p lv !! b = Some nl_p
            /\ nodelevel_m lv !! b = Some nl_m
            /\ linklevel_p lv !! b = Some ll_p
            /\ linklevel_m lv !! b = Some ll_m
            /\ feats !! b
               = Some (gl ++ map (fun w => paired w b) [[1%R; 1%R]]
                          ++ nl_p ++ nl_m ++ ll_p ++ ll_m)).
Proof.
  apply (walk_features_layout 1 2 [replicate 10 1%R] [replicate 10 1%R]
           [[1%R; 1%R]] ring_edges ring_mask ring_batch).
  - intros b Hb. cbn in Hb. replace b with 0 by lia. left.
  - unfold ring_edges, ring_batch. repeat constructor.
  - reflexivity.
  - reflexivity.
  - reflexivity.
  - repeat constructor.
  - reflexivity.
  - repeat constructor.
  - reflexivity.
  - repeat constructor.
Defined.

End WalkSpec.

(** ** [Data.to_numpy_array]: when it raises *)

Module DataArraySpec.
Import DataRecord.

Lemma np_index_returns n i k : np_index n i = Ok k -> valid_index n i.
Proof.
  unfold np_index, valid_index.
  destruct (decide (0 <= i < Z.of_nat n)%Z); [intros _; lia|].
  destruct (decide (- Z.of_nat n <= i < 0)%Z); [intros _; lia | discriminate].
Qed.

Lemma indices_error n (es : list (Z * Z)) :
  ~ valid_edges n es ->
  for_each (fun rc : Z * Z =>
              r ← np_index n rc.1; c ← np_index n rc.2; mret (r, c)) es
  = Raise IndexError.
Proof.
  intros Hbad. induction es as [|[r c] es IH].
  - exfalso. apply Hbad. constructor.
  - cbn [for_each fst snd].
    destruct (decide (valid_index n r)) as [Hr|Hr];
      [|rewrite (DataRecordSpec.np_index_invalid n r Hr); reflexivity].
    destruct (DataRecordSpec.np_index_valid n r Hr) as (kr & -> & _).
    cbn [mbind result_bind].
    destruct (decide (valid_index n c)) as [Hc|Hc];
      [|rewrite (DataRecordSpec.np_index_invalid n c Hc); reflexivity].
    destruct (DataRecordSpec.np_index_valid n c Hc) as (kc & -> & _).
    cbn [mbind result_bind mret result_ret].
    rewrite IH; [reflexivity|].
    intros Hes. apply Hbad. constructor; [split; assumption | exact Hes].
Qed.

(** X24. [to_numpy_array] returns exactly when the record has an
    [edge_index] whose entries all address nodes of the record (from -N
    to N-1, negative ones counting from the end). Without [edge_index] it
    is a TypeError; with an entry outside that range it is an IndexError,
    and no matrix is returned. *)
Theorem to_numpy_array_returns_iff (d : Data) :
  (returns (to_numpy_array d) <->
   exists es, edge_index d = Some es /\ valid_edges (length (x d)) es)
  /\ (edge_index d = None -> to_numpy_array d = Raise TypeError)
  /\ (forall es, edge_index d = Some es -> ~ valid_edges (length (x d)) es ->
        to_numpy_array d = Raise IndexError).
Proof.
  assert (Hbad : forall es, edge_index d = Some es ->
                   ~ valid_edges (length (x d)) es ->
                   to_numpy_array d = Raise IndexError).
  { intros es He Hes. unfold to_numpy_array. rewrite He.
    rewrite (indices_error _ es Hes). reflexivity. }
  split; [|split; [apply DataRecordSpec.to_numpy_array_no_edge_index | exact Hbad]].
  split.
  - intros [m Hm]. destruct (edge_index d) as [es|] eqn:He.
    + exists es. split; [reflexivity|].
      destruct (decide (valid_edges (length (x d)) es)) as [Hv|Hv]; [exact Hv|].
      rewrite (Hbad es eq_refl Hv) in Hm. discriminate.
    + rewrite (DataRecordSpec.to_numpy_array_no_edge_index d He) in Hm. discriminate.
  - intros (es & He & Hv). unfold to_numpy_array. rewrite He.
    destruct (DataRecordSpec.indices_ok _ es Hv) as [idx Hidx].
    rewrite Hidx. eexists. reflexivity.
Qed.

End DataArraySpec.

(** ** [GAE] *)

Module AutoEncoderSpec.
Import WalkPool WalkPoolSpec LinkPrediction LinkPredictionSpec AutoEncoder.
Local Open Scope R_scope.

Lemma matmul_shape (a b : matrix) (n k h : nat) :
  (0 < k)%nat -> is_matrix n k a -> is_matrix k h b ->
  exists m, matmul a b = Ok m /\ is_matrix n h m.
Proof.
  intros Hk [Han Hak] [Hbk Hbh]. unfold matmul.
  rewrite decide_True by (rewrite Hbk; exact Hak).
  rewrite (width_rows b k h Hk Hbk Hbh).
  eexists. split; [reflexivity|]. split.
  - rewrite length_map. exact Han.
  - apply Forall_forall. intros r Hr.
    apply list_elem_of_fmap in Hr as (row & -> & _).
    rewrite length_map, length_seq. reflexivity.
Qed.

Lemma map_map_shape (f : R -> R) (m : matrix) n h :
  is_matrix n h m -> is_matrix n h (map (map f) m).
Proof.
  intros [Hn Hh]. split; [rewrite length_map; exact Hn|].
  apply Forall_forall. intros r Hr.
  apply list_elem_of_fmap in Hr as (row & -> & Hrow).
  rewrite length_map. rewrite Forall_forall in Hh. exact (Hh row Hrow).
Qed.

Lemma conv_shape (self : GraphConvSparse) (inputs : matrix) n d h :
  (0 < n)%nat -> (0 < d)%nat ->
  is_matrix n d inputs -> is_matrix d h (weight self) -> is_matrix n n (adj self) ->
  (forall m, is_matrix n h m -> is_matrix n h (activation self m)) ->
  exists out, GraphConvSparse_forward self inputs = Ok out /\ is_matrix n h out.
Proof.
  intros Hn Hd Hin Hw Hadj Hact. unfold GraphConvSparse_forward.
  destruct (matmul_shape inputs (weight self) n d h Hd Hin Hw) as (x1 & -> & Hx1).
  cbn [mbind result_bind].
  destruct (matmul_shape (adj self) x1 n n h Hn Hadj Hx1) as (x2 & -> & Hx2).
  cbn [mbind result_bind mret result_ret].
  eexists. split; [reflexivity|]. apply Hact. exact Hx2.
Qed.

(** X25. A graph auto-encoder built by [GAE.__init__] from an [n x n]
    adjacency and weights of shapes [d x h1] and [h1 x h2], applied to
    [n x d] features (all dimensions positive): [forward] returns an
    [n x n] matrix of link probabilities, and leaves the embeddings [Z]
    in the attribute [mean]. Whatever the weights, the prediction is
    symmetric, between 0 and 1 (the bounds included: single-precision
    sigmoids reach both), and at least 1/2 on the diagonal;
    entry (i, j) is the sigmoid of the inner product of the embeddings of
    [i] and [j]. *)
Theorem gae_forward_symmetric (adj w1 w2 X : matrix) (n d h1 h2 : nat) :
  (0 < n)%nat -> (0 < d)%nat -> (0 < h1)%nat -> (0 < h2)%nat ->
  is_matrix n n adj -> is_matrix d h1 w1 -> is_matrix h1 h2 w2 ->
  is_matrix n d X ->
  exists Z A,
    GAE_forward (GAE_init adj w1 w2) X
    = (mkGAE (base_gcn (GAE_init adj w1 w2)) (gcn_mean (GAE_init adj w1 w2))
             (Some Z), Ok A)
    /\ is_matrix n h2 Z
    /\ is_matrix n n A
    /\ (forall i j zi zj, Z !! i = Some zi -> Z !! j = Some zj ->
          entry_R A i j = Some (sigmoid (sum_R (zip_with Rmult zi zj))))
    /\ (forall i j, (i < n)%nat -> (j < n)%nat -> entry_R A i j = entry_R A j i)
    /\ (forall i j a, entry_R A i j = Some a -> 0 <= a <= 1)
    /\ (forall i a, entry_R A i i = Some a -> 1 / 2 <= a).
Proof.
  intros Hn Hd Hh1 Hh2 Hadj Hw1 Hw2 HX.
  destruct (conv_shape (base_gcn (GAE_init adj w1 w2)) X n d h1 Hn Hd HX Hw1 Hadj)
    as (hidden & Hhid & Hhs).
  { intros m Hm. cbn. apply map_map_shape. exact Hm. }
  destruct (conv_shape (gcn_mean (GAE_init adj w1 w2)) hidden n h1 h2
              Hn Hh1 Hhs Hw2 Hadj) as (Z & HZ & HZs).
  { intros m Hm. exact Hm. }
  destruct (gram_matrix Z n h2 Hn Hh2 (proj1 HZs) (proj2 HZs))
    as (A & HA & HAn & HAr & Hentries & Hsym & Hrange & Hdiag).
  exists Z, A. split.
  - unfold GAE_forward, GAE_encode. rewrite Hhid. cbn [mbind result_bind].
    rewrite HZ. cbn [fst snd mbind result_bind]. rewrite HA. reflexivity.
  - split; [exact HZs|]. split; [split; assumption|].
    split; [exact Hentries|]. split; [exact Hsym|].
    split; [exact Hrange | exact Hdiag].
Qed.

Lemma gae_forward_symmetric_witness :
  exists Z A,
    GAE_forward (GAE_init [[0; 1]; [1; 0]] [[1]] [[2]]) [[1]; [-1]]
    = (mkGAE (base_gcn (GAE_init [[0; 1]; [1; 0]] [[1]] [[2]]))
             (gcn_mean (GAE_init [[0; 1]; [1; 0]] [[1]] [[2]]))
             (Some Z), Ok A)
    /\ is_matrix 2 1 Z
    /\ is_matrix 2 2 A
    /\ (forall i j zi zj, Z !! i = Some zi -> Z !! j = Some zj ->
          entry_R A i j = Some (sigmoid (sum_R (zip_with Rmult zi zj))))
    /\ (forall i j, (i < 2)%nat -> (j < 2)%nat -> entry_R A i j = entry_R A j i)
    /\ (forall i j a, entry_R A i j = Some a -> 0 <= a <= 1)
    /\ (forall i a, entry_R A i i = Some a -> 1 / 2 <= a).
Proof.
  apply (gae_forward_symmetric [[0; 1]; [1; 0]] [[1]] [[2]] [[1]; [-1]] 2 1 1 1);
    try lia; (split; [reflexivity | repeat constructor]).
Defined.

End AutoEncoderSpec.

(** ** The noise buffer of [LatentGraphGenerator] *)

Module NoiseSpec.
Import Tensor Noise.

(** The buffer holds 1000 samples and the position is one of them. *)
Definition in_buffer (self : LatentGraphGenerator) : Prop :=
  shape_at (Norm self) 0 = Ok 1000 /\ (0 <= norm_index self <= 999)%Z.

Lemma slice_in_buffer (t : tensor) (k : Z) :
  shape_at t 0 = Ok 1000 -> (0 <= k < 1000)%Z ->
  exists s, slice t (Z.to_nat k) = Some s /\ Dataset.tensor_index t k = Ok s.
Proof.
  intros Ht Hk. apply DatasetSpec.shape_at_rows in Ht as (ts & -> & Hts).
  destruct (lookup_lt_is_Some_2 ts (Z.to_nat k)) as [s Hs]; [lia|].
  exists s. split; [exact Hs|].
  unfold Dataset.tensor_index, Dataset.list_index, DataRecord.np_index.
  rewrite Hts. rewrite decide_True by lia. cbn [mbind result_bind].
  unfold getidx. rewrite Hs. reflexivity.
Qed.

(** X26. The position [norm_index] of a [LatentGraphGenerator] stays
    inside its buffer of 1000 samples. Starting from a position between 0
    and 999 (0 after [init_norm]), a call of [get_norm_noise] leaves a
    position between 0 and 999; a call with [size == batch_size] never
    raises an IndexError and answers with the sample at the new position,
    which is between 1 and 999: sample 0 of a buffer is never used. The
    buffer is redrawn exactly when the call finds the position at 999,
    also when the call then takes its noise elsewhere. *)
Theorem get_norm_noise_in_buffer (self : LatentGraphGenerator) (size : Z)
    (t : tensor) (fresh : result tensor) :
  in_buffer self -> shape_at t 0 = Ok 1000 ->
  in_buffer (get_norm_noise self size (Ok t) fresh).1
  /\ Norm (get_norm_noise self size (Ok t) fresh).1
     = (if decide (norm_index self = 999)%Z then t else Norm self)
  /\ (size = batch_size self ->
      (1 <= norm_index (get_norm_noise self size (Ok t) fresh).1 <= 999)%Z
      /\ norm_index (get_norm_noise self size (Ok t) fresh).1
         = (if decide (norm_index self = 999) then 1 else norm_index self + 1)%Z
      /\ exists s,
           slice (Norm (get_norm_noise self size (Ok t) fresh).1)
                 (Z.to_nat (norm_index (get_norm_noise self size (Ok t) fresh).1))
           = Some s
           /\ (get_norm_noise self size (Ok t) fresh).2 = Ok (squeeze s))
  /\ (size <> batch_size self ->
      (get_norm_noise self size (Ok t) fresh).2 = fresh).
Proof.
  intros [Hbuf Hidx] Ht. unfold get_norm_noise.
  destruct (decide (norm_index self = 999)%Z) as [E|E].
  - rewrite decide_True by lia.
    cbn [init_norm fst snd batch_size N Norm norm_index].
    destruct (decide (size = batch_size self)) as [Hs|Hs];
      unfold in_buffer; cbn [fst snd Norm norm_index].
    + split; [split; [exact Ht | lia]|]. split; [reflexivity|].
      split; [|intros; congruence]. intros _. split; [lia|]. split; [reflexivity|].
      destruct (slice_in_buffer t (0 + 1) Ht ltac:(lia)) as (s & Hs1 & Hs2).
      exists s. split; [exact Hs1|]. rewrite Hs2. reflexivity.
    + split; [split; [exact Ht | lia]|]. split; [reflexivity|].
      split; [intros; congruence | reflexivity].
  - rewrite decide_False by lia.
    cbn [fst snd].
    destruct (decide (size = batch_size self)) as [Hs|Hs];
      unfold in_buffer; cbn [fst snd Norm norm_index].
    + split; [split; [exact Hbuf | lia]|]. split; [reflexivity|].
      split; [|intros; congruence]. intros _. split; [lia|]. split; [reflexivity|].
      destruct (slice_in_buffer (Norm self) (norm_index self + 1) Hbuf ltac:(lia))
        as (s & Hs1 & Hs2).
      exists s. split; [exact Hs1|]. rewrite Hs2. reflexivity.
    + split; [split; [exact Hbuf | lia]|]. split; [reflexivity|].
      split; [intros; congruence | reflexivity].
Qed.

Definition samples : tensor := Stack (map (fun k => Scalar (inject_Z (Z.of_nat k))) (seq 0 1000)).

Definition at_end : LatentGraphGenerator := mkLatentGraphGenerator 1 1 samples 999.

Lemma get_norm_noise_in_buffer_witness :
  in_buffer (get_norm_noise at_end 1 (Ok samples) (Raise RuntimeError)).1
  /\ Norm (get_norm_noise at_end 1 (Ok samples) (Raise RuntimeError)).1
     = (if decide (norm_index at_end = 999)%Z then samples else Norm at_end)
  /\ (1%Z = batch_size at_end ->
      (1 <= norm_index (get_norm_noise at_end 1 (Ok samples) (Raise RuntimeError)).1
       <= 999)%Z
      /\ norm_index (get_norm_noise at_end 1 (Ok samples) (Raise RuntimeError)).1
         = (if decide (norm_index at_end = 999) then 1 else norm_index at_end + 1)%Z
      /\ exists s,
           slice (Norm (get_norm_noise at_end 1 (Ok samples) (Raise RuntimeError)).1)
                 (Z.to_nat (norm_index
                    (get_norm_noise at_end 1 (Ok samples) (Raise RuntimeError)).1))
           = Some s
           /\ (get_norm_noise at_end 1 (Ok samples) (Raise RuntimeError)).2
              = Ok (squeeze s))
  /\ (1%Z <> batch_size at_end ->
      (get_norm_noise at_end 1 (Ok samples) (Raise RuntimeError)).2
      = Raise RuntimeError).
Proof.
  apply (get_norm_noise_in_buffer at_end 1 samples (Raise RuntimeError)).
  - split; [vm_compute; reflexivity | cbn; lia].
  - vm_compute. reflexivity.
Defined.

End NoiseSpec.

(** ** [SAGEConv] and [GraphSAGE] *)

Module SageSpec.
Import WalkPool LinkPrediction Sage.
Local Open Scope R_scope.

Lemma width_map_map (f : R -> R) (m : matrix) : width (map (map f) m) = width m.
Proof. destruct m as [|r m]; [reflexivity|]. cbn. apply length_map. Qed.

Lemma SAGEConv_assertion (self : SAGEConv) x edge_index edge_attr :
  width x <> width edge_attr ->
  SAGEConv_forward self x edge_index (Some edge_attr) = Raise AssertionError.
Proof.
  intros H. unfold SAGEConv_forward. rewrite decide_False by exact H. reflexivity.
Qed.

Section Parameters.

Variable draw : nat -> nat -> nat -> matrix * list R * matrix.

(** The layers are drawn with the shapes they are asked for: [lin_l] has
    one weight row and one bias per output channel. *)
Hypothesis draw_shape : forall k i o,
  length (draw k i o).1.1 = o /\ length (draw k i o).1.2 = o.

(** What a convolution of the stack returns has one row per node, each
    with one entry per output channel; and it returns only for features as
    wide as the edge attributes. *)
Lemma conv_at_output k i o x edge_index edge_attr y :
  x <> [] ->
  SAGEConv_forward (conv_at draw k i o) x edge_index (Some edge_attr) = Ok y ->
  width x = width edge_attr /\ y <> [] /\ width y = o.
Proof.
  intros Hx. unfold SAGEConv_forward, conv_at, SAGEConv_init.
  cbn [lin_l lin_r root_weight normalize].
  destruct (decide (width x = width edge_attr)) as [Hw|]; [|discriminate].
  intros H. split; [exact Hw|].
  apply bind_ok in H as (out1 & H1 & H).
  apply bind_ok in H as (out2 & H2 & H).
  apply bind_ok in H as (out3 & H3 & H). injection H as <-.
  assert (Hl1 : length out1 = length x).
  { unfold SAGE_propagate in H1.
    apply bind_ok in H1 as (x_j & _ & H1). apply bind_ok in H1 as (s & _ & H1).
    destruct (decide _); [|discriminate]. injection H1 as <-.
    rewrite length_map, length_seq. reflexivity. }
  assert (Hl2 : length out2 = length x /\ width out2 = o).
  { unfold Linear_forward in H2. cbn [weight bias] in H2.
    destruct (decide _); [|discriminate]. injection H2 as <-.
    rewrite length_map. split; [exact Hl1|].
    destruct out1 as [|r out1]; [destruct x; [congruence | discriminate]|].
    cbn. rewrite length_map, length_zip.
    destruct (draw_shape k i o) as [-> ->]. lia. }
  destruct Hl2 as [Hl2 Hw2].
  apply bind_ok in H3 as (r & _ & H3). unfold iadd in H3.
  apply bind_ok in H3 as (s & _ & H3).
  destruct (decide _) as [[Hls Hws]|]; [|discriminate]. injection H3 as <-.
  split; [|congruence].
  intros ->. cbn in Hls. destruct x; [congruence|]. cbn in Hl2. lia.
Qed.

(** X27. A [GraphSAGE] needs [hidden_channels] to be the width of its
    input. Every convolution asserts that the features are as wide as the
    edge attributes, the same edge attributes for all layers, and the
    first convolution returns features of width [hidden_channels]. So with
    input features of another width (at least one node, layers drawn with
    the shapes they are asked for, dropout that keeps widths) [forward]
    returns for no edge data: if the first convolution gets through, the
    second one raises an AssertionError. *)
Theorem graphsage_hidden_width (in_channels hidden_channels out_channels : nat)
    (num_layers : nat) (dropout : nat -> matrix -> matrix) (x : matrix)
    (adj_t : list (nat * nat)) (edge_attr emb_ea : matrix) :
  (forall k m, width (dropout k m) = width m) ->
  x <> [] ->
  width x <> hidden_channels ->
  raises (GraphSAGE_forward
            (GraphSAGE_init draw in_channels hidden_channels out_channels
                            num_layers dropout)
            x adj_t edge_attr emb_ea)
  /\ (forall ea x1,
        matmul edge_attr emb_ea = Ok ea ->
        SAGEConv_forward (conv_at draw 0 in_channels hidden_channels)
                         x adj_t (Some ea) = Ok x1 ->
        GraphSAGE_forward
          (GraphSAGE_init draw in_channels hidden_channels out_channels
                          num_layers dropout)
          x adj_t edge_attr emb_ea
        = Raise AssertionError).
Proof.
  intros Hdrop Hx Hwidth.
  assert (Hmain : forall ea x1,
            matmul edge_attr emb_ea = Ok ea ->
            SAGEConv_forward (conv_at draw 0 in_channels hidden_channels)
                             x adj_t (Some ea) = Ok x1 ->
            GraphSAGE_forward
              (GraphSAGE_init draw in_channels hidden_channels out_channels
                              num_layers dropout)
              x adj_t edge_attr emb_ea
            = Raise AssertionError).
  { intros ea x1 Hea Hx1.
    destruct (conv_at_output 0 in_channels hidden_channels x adj_t ea x1 Hx Hx1)
      as (Hwea & _ & Hw1).
    set (x1' := dropout 0%nat (map (map relu) x1)).
    assert (Hbad : width x1' <> width ea).
    { unfold x1'. rewrite Hdrop, width_map_map, Hw1, <- Hwea. congruence. }
    unfold GraphSAGE_forward, GraphSAGE_init. cbn [convs Sage.dropout].
    rewrite Hea. cbn [mbind result_bind].
    set (rest := map (fun k => conv_at draw (S k) hidden_channels hidden_channels)
                     (seq 0 (num_layers - 2))).
    set (clast := conv_at draw (S (num_layers - 2)) hidden_channels out_channels).
    assert (Hrm : removelast (conv_at draw 0 in_channels hidden_channels
                                :: rest ++ [clast])
                  = conv_at draw 0 in_channels hidden_channels :: rest).
    { change (removelast ((conv_at draw 0 in_channels hidden_channels :: rest)
                            ++ [clast])
              = conv_at draw 0 in_channels hidden_channels :: rest).
      apply removelast_last. }
    rewrite Hrm. cbn [imap for_fold fst snd]. rewrite Hx1.
    cbn [mbind result_bind mret result_ret]. fold x1'.
    destruct rest as [|c2 rest'].
    - cbn [imap for_fold mbind result_bind app last].
      rewrite (SAGEConv_assertion clast x1' adj_t ea Hbad). reflexivity.
    - cbn [imap for_fold fst snd compose].
      rewrite (SAGEConv_assertion c2 x1' adj_t ea Hbad). reflexivity. }
  split; [|exact Hmain].
  destruct (matmul edge_attr emb_ea) as [ea|e] eqn:Hea.
  - destruct (SAGEConv_forward (conv_at draw 0 in_channels hidden_channels)
                               x adj_t (Some ea)) as [x1|e] eqn:Hx1.
    + rewrite (Hmain ea x1 eq_refl Hx1). eexists; reflexivity.
    + unfold GraphSAGE_forward, GraphSAGE_init. cbn [convs Sage.dropout].
      rewrite Hea. cbn [mbind result_bind].
      set (rest := map _ (seq 0 (num_layers - 2)) ++ [_]).
      assert (Hrest : rest <> []) by (unfold rest; destruct (map _ _); discriminate).
      destruct rest as [|c rest']; [congruence|].
      cbn [removelast imap for_fold fst snd]. rewrite Hx1. eexists; reflexivity.
  - unfold GraphSAGE_forward. rewrite Hea. eexists; reflexivity.
Qed.

End Parameters.

(** Layers whose parameters are all ones (and zero biases), of the shapes
    asked for. *)
Definition draw_ones (k i o : nat) : matrix * list R * matrix :=
  (replicate o (replicate i 1), replicate o 0, replicate o (replicate i 1)).

Lemma graphsage_hidden_width_witness :
  raises (GraphSAGE_forward (GraphSAGE_init draw_ones 2 1 1 2 (fun _ m => m))
            [[1; 2]; [3; 4]] [(0, 1); (1, 0)]%nat [[1]; [1]] [[1; 1]])
  /\ (forall ea x1,
        matmul [[1]; [1]] [[1; 1]] = Ok ea ->
        SAGEConv_forward (conv_at draw_ones 0 2 1)
                         [[1; 2]; [3; 4]] [(0, 1); (1, 0)]%nat (Some ea) = Ok x1 ->
        GraphSAGE_forward (GraphSAGE_init draw_ones 2 1 1 2 (fun _ m => m))
          [[1; 2]; [3; 4]] [(0, 1); (1, 0)]%nat [[1]; [1]] [[1; 1]]
        = Raise AssertionError).
Proof.
  apply (graphsage_hidden_width draw_ones).
  - intros k i o. split; apply length_replicate.
  - intros; reflexivity.
  - discriminate.
  - cbn. lia.
Defined.

End SageSpec.

